(** * Brancher: the variable graph of [brancher/variables.py]

    A shallow embedding of the classes of [variables.py] and the properties
    of its sampling, log-probability, reset, lookup and coupling code.

    Python objects live in a heap and are named by their identity, a [nat].
    The fields [__init__] writes and no method assigns afterwards ([name],
    [parents], [distribution], [link]) are held in the [graph]; the fields
    the methods assign ([samples], [_evaluated], [_current_value] and the
    observation fields) are held in the [store].  Recursion over [parents]
    is by fuel: an exhausted fuel is Python recursing without end. *)

From stdpp Require Import gmap strings list fin_maps.

(** ** Exceptions and outcomes *)

(** The key of a failed subscript: a string or an object. *)
Inductive pykey : Type :=
| KStr (s : string)
| KObj (id : nat).

(** The exceptions of the code.  [Dangling] stands for a reference to an
    object that the graph does not hold, which no Python run has. *)
Inductive exn : Type :=
| KeyError (key : pykey)
| ValueError (msg : string)
| TypeError (msg : string)
| AttributeError (msg : string)
| NotImplementedError (msg : string)
| Dangling (id : nat).

(** A string as an argument.  The identity of a string matters where the
    code compares with [is]: a string literal of the program text, and so the
    default value of a parameter, is the one interned object of its text,
    whereas a string that is built at run time is an object of its own,
    whatever its text. *)
Inductive py_string : Type :=
| Literal (text : string)
| Built (text : string).

(** [s is lit], where [lit] is a string literal. *)
Definition py_is_literal (s : py_string) (lit : string) : bool :=
  match s with
  | Literal text => String.eqb text lit
  | Built _ => false
  end.

(** What a call comes to: it returns, it raises, or it recurses beyond the
    fuel. *)
Inductive outcome (A : Type) : Type :=
| Ok (a : A)
| Raise (e : exn)
| OutOfFuel.
Arguments Ok {A} a.
Arguments Raise {A} e.
Arguments OutOfFuel {A}.

#[global] Instance outcome_ret : MRet outcome := fun A a => Ok a.
#[global] Instance outcome_bind : MBind outcome := fun A B f m =>
  match m with
  | Ok a => f a
  | Raise e => Raise e
  | OutOfFuel => OutOfFuel
  end.

(** [[f(x) for x in l]] where [f] reads and writes the heap: the calls run
    left to right, each on the heap the previous one left. *)
Fixpoint mapM_st {A B S : Type} (f : A -> S -> outcome (B * S)) (l : list A) (s : S)
  : outcome (list B * S) :=
  match l with
  | [] => Ok ([], s)
  | a :: l' =>
      '(b, s1) ← f a s;
      '(bs, s2) ← mapM_st f l' s1;
      Ok (b :: bs, s2)
  end.

(** [for x in l: f(x)] for a method that returns nothing. *)
Fixpoint iterM_st {A S : Type} (f : A -> S -> outcome S) (l : list A) (s : S) : outcome S :=
  match l with
  | [] => Ok s
  | a :: l' => s1 ← f a s; iterM_st f l' s1
  end.

(** Modelled from the spec: [flatten_list] of [brancher/utilities.py], whose
    source is not in [variables.py]; it concatenates a list of lists. *)
Definition flatten_list {A : Type} (ls : list (list A)) : list A := concat ls.

(** Modelled from the spec: [join_dicts_list] of [brancher/utilities.py], the
    union of a list of assignments; on a shared key the later assignment wins,
    as in Python's [{**d1, **d2}]. *)
Definition join_dicts_list {V : Type} (ds : list (gmap nat V)) : gmap nat V :=
  foldl (fun acc d => d ∪ acc) ∅ ds.

(** ** The variable graph *)

(** The collaborators of the engine: tensors and their coercion, the
    distributions, the links with their broadcasting, and the arithmetic of
    log-densities.  [value] is what a node or an assignment holds, Python's
    [None] among them.  A draw of a distribution depends on how many draws the
    run has made before it.  The collaborators are functions: the properties
    are about the runs in which they return. *)
Class Backend : Type := {
  value : Type;
  params : Type;
  dist : Type;
  lnk : Type;
  L : Type;
  pyNone : value;
  coerce_to_dtype : value -> bool -> value;
  is_chainer_Variable : value -> bool;
  tile_parameter : value -> nat -> value;
  apply_link : lnk -> gmap nat value -> params;
  dist_get_sample : dist -> params -> nat -> nat -> value;
  dist_calculate_log_probability : dist -> value -> params -> L;
  lzero : L;
  ladd : L -> L -> L;
  lsub : L -> L -> L;
  F_sum_axis1 : L -> L;
  F_mean : L -> L;
  is_tensor : L -> bool;
  partial_broadcast : L -> L -> L * L
}.

Section Engine.

Context `{Backend}.

(** [DeterministicVariable]: [det_value] is what the [value] property
    returns (the stored value, through the bias link when [learnable]). *)
Record det_info : Type := {
  det_name : string;
  det_value : value;
  det_observed : bool
}.

(** [RandomVariable], the fields set once by [__init__]. *)
Record rv_info : Type := {
  rv_name : string;
  rv_distribution : dist;
  rv_link : lnk;
  rv_parents : list nat
}.

Inductive vnode : Type :=
| Det (d : det_info)
| Rand (r : rv_info).

Definition graph : Type := gmap nat vnode.

(** [RandomVariable], the fields the methods assign. *)
Record rv_state : Type := {
  samples : list value;
  _evaluated : bool;
  _observed : bool;
  _observed_value : value;
  _current_value : value;
  dataset : option nat;
  has_random_dataset : bool;
  has_observed_value : bool
}.

(** The state [RandomVariable.__init__] leaves. *)
Definition rv_init : rv_state := {|
  samples := [];
  _evaluated := false;
  _observed := false;
  _observed_value := pyNone;
  _current_value := pyNone;
  dataset := None;
  has_random_dataset := false;
  has_observed_value := false
|}.

#[global] Instance rv_state_inhabited : Inhabited rv_state := populate rv_init.

(** The heap of a run: the random variables' fields, and two logs of the calls
    to the distributions, in call order: [draws] has a pair [(self,
    var_to_sample)] for each call of [get_sample], made by [self] on the
    distribution of [var_to_sample]; [evals] has the variable that called
    [calculate_log_probability] on its distribution. *)
Record state : Type := {
  store : gmap nat rv_state;
  draws : list (nat * nat);
  evals : list nat
}.

Definition get (s : state) (n : nat) : rv_state := store s !!! n.

Definition put (n : nat) (st : rv_state) (s : state) : state :=
  {| store := <[n := st]> (store s); draws := draws s; evals := evals s |}.

Definition log_draw (self var_to_sample : nat) (s : state) : state :=
  {| store := store s; draws := draws s ++ [(self, var_to_sample)]; evals := evals s |}.

Definition log_eval (n : nat) (s : state) : state :=
  {| store := store s; draws := draws s; evals := evals s ++ [n] |}.

Definition set_samples (l : list value) (st : rv_state) : rv_state :=
  {| samples := l; _evaluated := _evaluated st; _observed := _observed st;
     _observed_value := _observed_value st; _current_value := _current_value st;
     dataset := dataset st; has_random_dataset := has_random_dataset st;
     has_observed_value := has_observed_value st |}.

Definition set_evaluated (b : bool) (st : rv_state) : rv_state :=
  {| samples := samples st; _evaluated := b; _observed := _observed st;
     _observed_value := _observed_value st; _current_value := _current_value st;
     dataset := dataset st; has_random_dataset := has_random_dataset st;
     has_observed_value := has_observed_value st |}.

Definition set_current_value (v : value) (st : rv_state) : rv_state :=
  {| samples := samples st; _evaluated := _evaluated st; _observed := _observed st;
     _observed_value := _observed_value st; _current_value := v;
     dataset := dataset st; has_random_dataset := has_random_dataset st;
     has_observed_value := has_observed_value st |}.

(** *** Properties and observation of a random variable *)

(** [RandomVariable.value] (the getter). *)
Definition rv_value (st : rv_state) : value :=
  if _observed st then _observed_value st else _current_value st.

(** [RandomVariable.value] (the setter). *)
Definition rv_set_value (val : value) (st : rv_state) : rv_state :=
  set_current_value (coerce_to_dtype val false) st.

(** [RandomVariable.is_observed]. *)
Definition rv_is_observed (st : rv_state) : bool := _observed st.

(** The argument of [observe], after [pandas_frame2value]: a random variable
    that supplies the data, or the data. *)
Inductive obs_data : Type :=
| ObsVariable (d : nat)
| ObsValue (v : value).

(** [RandomVariable.observe]. *)
Definition observe (data : obs_data) (st : rv_state) : rv_state :=
  match data with
  | ObsVariable d =>
      {| samples := samples st; _evaluated := _evaluated st; _observed := true;
         _observed_value := _observed_value st; _current_value := _current_value st;
         dataset := Some d; has_random_dataset := true;
         has_observed_value := has_observed_value st |}
  | ObsValue v =>
      {| samples := samples st; _evaluated := _evaluated st; _observed := true;
         _observed_value := coerce_to_dtype v true;
         _current_value := _current_value st;
         dataset := dataset st; has_random_dataset := has_random_dataset st;
         has_observed_value := true |}
  end.

(** [RandomVariable.unobserve]. *)
Definition unobserve (st : rv_state) : rv_state :=
  {| samples := samples st; _evaluated := _evaluated st; _observed := false;
     _observed_value := pyNone; _current_value := _current_value st;
     dataset := None; has_random_dataset := false;
     has_observed_value := false |}.

(** The body of [RandomVariable.reset] before it turns to the parents. *)
Definition clear (st : rv_state) : rv_state :=
  {| samples := []; _evaluated := false; _observed := _observed st;
     _observed_value := _observed_value st; _current_value := pyNone;
     dataset := dataset st; has_random_dataset := has_random_dataset st;
     has_observed_value := has_observed_value st |}.

(** *** Traversals of the graph *)

Variable G : graph.

(** [var.name]. *)
Definition name_of (n : nat) : outcome string :=
  match G !! n with
  | None => Raise (Dangling n)
  | Some (Det d) => Ok (det_name d)
  | Some (Rand r) => Ok (rv_name r)
  end.

(** [DeterministicVariable._flatten] and [RandomVariable._flatten]. *)
Fixpoint _flatten (fuel : nat) (n : nat) : outcome (list nat) :=
  match fuel with
  | 0 => OutOfFuel
  | S fuel' =>
      match G !! n with
      | None => Raise (Dangling n)
      | Some (Det _) => Ok [n]
      | Some (Rand r) =>
          ls ← mapM (_flatten fuel') (rv_parents r);
          Ok (flatten_list ls ++ [n])
      end
  end.

(** [ProbabilisticModel._flatten]. *)
Definition pm_flatten (fuel : nat) (variables : list nat) : outcome (list nat) :=
  ls ← mapM (_flatten fuel) variables;
  Ok (flatten_list ls).

(** [DeterministicVariable.reset] and [RandomVariable.reset]. *)
Fixpoint reset (fuel : nat) (n : nat) (s : state) : outcome state :=
  match fuel with
  | 0 => OutOfFuel
  | S fuel' =>
      match G !! n with
      | None => Raise (Dangling n)
      | Some (Det _) => Ok s
      | Some (Rand r) =>
          let s := put n (clear (get s n)) s in
          iterM_st (reset fuel') (rv_parents r) s
      end
  end.

(** [ProbabilisticModel.reset]. *)
Definition pm_reset (fuel : nat) (variables : list nat) (s : state) : outcome state :=
  iterM_st (reset fuel) variables s.

(** *** Log-probability *)

(** Python's [sum] of a list: [0 + x1 + x2 + ...]. *)
Definition py_sum (xs : list L) : L := foldl ladd lzero xs.

(** [{parent: parent.value for parent in self.parents
      if type(parent) is DeterministicVariable}]. *)
Definition deterministic_parents_values (parents : list nat) : gmap nat value :=
  foldl (fun acc parent =>
           match G !! parent with
           | Some (Det d) => <[parent := det_value d]> acc
           | _ => acc
           end) ∅ parents.

(** [{parent: parent_input for parent, parent_input in input_values.items()
      if parent in self.parents}]. *)
Definition parents_input_values (parents : list nat) (input_values : gmap nat value)
  : gmap nat value :=
  filter (fun kv => kv.1 ∈ parents) input_values.

(** [RandomVariable.calculate_log_probability]; [dispatch] is the method call
    on a parent, whatever its class. *)
Definition RandomVariable_calculate_log_probability
    (dispatch : nat -> gmap nat value -> bool -> state -> outcome (L * state))
    (self : nat) (r : rv_info) (input_values : gmap nat value) (reevaluate : bool)
    (s : state) : outcome (L * state) :=
  if _evaluated (get s self) && negb reevaluate then Ok (lzero, s) else
  let value := match input_values !! self with
               | Some v => v
               | None => rv_value (get s self)
               end in
  let s := put self (set_evaluated true (get s self)) s in
  let parents_values :=
    deterministic_parents_values (rv_parents r)
      ∪ parents_input_values (rv_parents r) input_values in
  let parameters_dict := apply_link (rv_link r) parents_values in
  let log_probability :=
    dist_calculate_log_probability (rv_distribution r) value parameters_dict in
  let s := log_eval self s in
  '(lps, s) ← mapM_st (fun parent => dispatch parent input_values reevaluate)
                      (rv_parents r) s;
  let parents_log_probability := py_sum lps in
  let log_probability :=
    if rv_is_observed (get s self) then F_sum_axis1 log_probability
    else log_probability in
  let '(log_probability, parents_log_probability) :=
    if is_tensor log_probability && is_tensor parents_log_probability
    then partial_broadcast log_probability parents_log_probability
    else (log_probability, parents_log_probability) in
  Ok (ladd log_probability parents_log_probability, s).

(** What [RandomVariable.calculate_log_probability] returns when it does not
    return at its first line: [s] is the heap at the call, [lps] what the
    parents returned, [s1] the heap they left. *)
Definition RandomVariable_calculate_log_probability_total (self : nat) (r : rv_info)
    (input_values : gmap nat value) (s : state) (lps : list L) (s1 : state) : L :=
  let value := match input_values !! self with
               | Some v => v
               | None => rv_value (get s self)
               end in
  let parents_values :=
    deterministic_parents_values (rv_parents r)
      ∪ parents_input_values (rv_parents r) input_values in
  let log_probability :=
    dist_calculate_log_probability (rv_distribution r) value
                                   (apply_link (rv_link r) parents_values) in
  let parents_log_probability := py_sum lps in
  let log_probability :=
    if rv_is_observed (get s1 self) then F_sum_axis1 log_probability
    else log_probability in
  let pair :=
    if is_tensor log_probability && is_tensor parents_log_probability
    then partial_broadcast log_probability parents_log_probability
    else (log_probability, parents_log_probability) in
  ladd pair.1 pair.2.

(** [var.calculate_log_probability(input_values, reevaluate)] on a
    deterministic or a random variable. *)
Fixpoint calculate_log_probability (fuel : nat) (n : nat) (input_values : gmap nat value)
    (reevaluate : bool) (s : state) : outcome (L * state) :=
  match fuel with
  | 0 => OutOfFuel
  | S fuel' =>
      match G !! n with
      | None => Raise (Dangling n)
      | Some (Det _) => Ok (lzero, s)
      | Some (Rand r) =>
          RandomVariable_calculate_log_probability
            (calculate_log_probability fuel') n r input_values reevaluate s
      end
  end.

(** [ProbabilisticModel.calculate_log_probability]. *)
Definition pm_calculate_log_probability (fuel : nat) (variables : list nat)
    (rv_values : gmap nat value) (s : state) : outcome (L * state) :=
  '(lps, s) ← mapM_st (fun var => calculate_log_probability fuel var rv_values false)
                      variables s;
  let log_probability := py_sum lps in
  s ← pm_reset fuel variables s;
  Ok (log_probability, s).

(** *** Sampling *)

(** [DeterministicVariable._get_sample]. *)
Definition DeterministicVariable_get_sample (self : nat) (d : det_info)
    (number_samples : nat) (input_values : gmap nat value) : gmap nat value :=
  let value := match input_values !! self with
               | Some v => v
               | None => det_value d
               end in
  if is_chainer_Variable value
  then {[ self := tile_parameter value number_samples ]}
  else {[ self := value ]}.

(** [{parent: parents_samples_dict[parent] for parent in parents}]. *)
Fixpoint input_dict_of (parents_samples_dict : gmap nat value) (parents : list nat)
  : outcome (gmap nat value) :=
  match parents with
  | [] => Ok ∅
  | parent :: rest =>
      match parents_samples_dict !! parent with
      | None => Raise (KeyError (KObj parent))
      | Some v =>
          d ← input_dict_of parents_samples_dict rest;
          Ok (<[parent := v]> d)
      end
  end.

(** What the branches of [RandomVariable._get_sample] settle before the
    parents are sampled: a value to return, or the variable to sample. *)
Inductive target : Type :=
| Return_value (v : value)
| Var_to_sample (var_to_sample : nat).

Definition choose_target (self : nat) (st : rv_state) (observed : bool)
    (input_values : gmap nat value) : outcome target :=
  if negb observed then
    match input_values !! self with
    | Some v => Ok (Return_value v)
    | None => Ok (Var_to_sample self)
    end
  else if has_observed_value st then Ok (Return_value (_observed_value st))
  else if has_random_dataset st then
    match dataset st with
    | Some d => Ok (Var_to_sample d)
    | None => Raise (AttributeError "'NoneType' object has no attribute 'parents'")
    end
  else Ok (Var_to_sample self).

(** [RandomVariable._get_sample]. *)
Definition RandomVariable_get_sample
    (dispatch : nat -> nat -> bool -> bool -> gmap nat value -> state
                -> outcome (gmap nat value * state))
    (self : nat) (number_samples : nat) (resample observed : bool)
    (input_values : gmap nat value) (s : state) : outcome (gmap nat value * state) :=
  match (if resample then None else last (samples (get s self))) with
  | Some cached => Ok ({[ self := cached ]}, s)
  | None =>
      tgt ← choose_target self (get s self) observed input_values;
      match tgt with
      | Return_value v => Ok ({[ self := v ]}, s)
      | Var_to_sample var_to_sample =>
          match G !! var_to_sample with
          | None => Raise (Dangling var_to_sample)
          | Some (Det _) => Raise (AttributeError "distribution")
          | Some (Rand r) =>
              '(ds, s) ← mapM_st (fun parent =>
                                    dispatch parent number_samples resample observed
                                             input_values)
                                 (rv_parents r) s;
              let parents_samples_dict := join_dicts_list ds in
              input_dict ← input_dict_of parents_samples_dict (rv_parents r);
              let parameters_dict := apply_link (rv_link r) input_dict in
              let sample :=
                dist_get_sample (rv_distribution r) parameters_dict number_samples
                                (length (draws s)) in
              let s := log_draw self var_to_sample s in
              let s := put self (set_samples (samples (get s self) ++ [sample])
                                             (get s self)) s in
              Ok (<[ self := sample ]> parents_samples_dict, s)
          end
      end
  end.

(** [var._get_sample(number_samples, resample, observed, input_values)] on a
    deterministic or a random variable. *)
Fixpoint _get_sample (fuel : nat) (n : nat) (number_samples : nat)
    (resample observed : bool) (input_values : gmap nat value) (s : state)
  : outcome (gmap nat value * state) :=
  match fuel with
  | 0 => OutOfFuel
  | S fuel' =>
      match G !! n with
      | None => Raise (Dangling n)
      | Some (Det d) =>
          Ok (DeterministicVariable_get_sample n d number_samples input_values, s)
      | Some (Rand _) =>
          RandomVariable_get_sample (_get_sample fuel') n number_samples resample
                                    observed input_values s
      end
  end.

(** [var.is_observed]. *)
Definition is_observed (n : nat) (s : state) : outcome bool :=
  match G !! n with
  | None => Raise (Dangling n)
  | Some (Det d) => Ok (det_observed d)
  | Some (Rand _) => Ok (rv_is_observed (get s n))
  end.

(** [Variable.get_sample], on input values already reformatted and before
    the sample is reformatted for pandas. *)
Definition get_sample (fuel : nat) (self : nat) (number_samples : nat)
    (input_values : gmap nat value) (s : state) : outcome (gmap nat value * state) :=
  obs ← is_observed self s;
  '(d, s) ← _get_sample fuel self number_samples false obs input_values s;
  match d !! self with
  | None => Raise (KeyError (KObj self))
  | Some v =>
      s ← reset fuel self s;
      Ok ({[ self := v ]}, s)
  end.

(** [ProbabilisticModel._get_sample]. *)
Definition pm__get_sample (fuel : nat) (variables : list nat) (number_samples : nat)
    (observed : bool) (input_values : gmap nat value) (s : state)
  : outcome (gmap nat value * state) :=
  '(ds, s) ← mapM_st (fun var => _get_sample fuel var number_samples false observed
                                             input_values)
                     variables s;
  let joint_sample := input_values ∪ join_dicts_list ds in
  s ← pm_reset fuel variables s;
  Ok (joint_sample, s).

(** [ProbabilisticModel.get_sample], on input values already reformatted and
    before the sample is reformatted for pandas. *)
Definition pm_get_sample (fuel : nat) (variables : list nat) (number_samples : nat)
    (input_values : gmap nat value) (s : state) : outcome (gmap nat value * state) :=
  pm__get_sample fuel variables number_samples false input_values s.

End Engine.

(** ** Lookup by name and the posterior coupling *)

Section Coupling.

Context `{Backend}.
Variable G : graph.

(** [{var.name: var for var in flat_list}], built from [acc]: a later variable
    of the same name replaces an earlier one. *)
Fixpoint name_dict (flat_list : list nat) (acc : gmap string nat)
  : outcome (gmap string nat) :=
  match flat_list with
  | [] => Ok acc
  | var :: rest =>
      nm ← name_of G var;
      name_dict rest (<[nm := var]> acc)
  end.

Definition not_present (var_name : string) : string :=
  String.append "The variable "
    (String.append var_name " is not present in the model").

(** [BrancherClass.get_variable]; [flat] is [self._flatten()].  The [try]
    block is the subscript of the dictionary by the name, and the handler
    catches [ValueError]. *)
Definition get_variable (flat : outcome (list nat)) (var_name : string) : outcome nat :=
  flat_list ← flat;
  let try_block :=
    d ← name_dict flat_list ∅;
    match d !! var_name with
    | Some var => Ok var
    | None => Raise (KeyError (KStr var_name))
    end in
  match try_block with
  | Raise (ValueError _) => Raise (ValueError (not_present var_name))
  | r => r
  end.

(** [PosteriorModel]: a probabilistic model with its [model_mapping]. *)
Record PosteriorModel : Type := {
  post_variables : list nat;
  model_mapping : gmap nat nat
}.

(** [ProbabilisticModel]: [observed_submodel] holds the variables of the
    model the field refers to. *)
Record ProbabilisticModel : Type := {
  variables : list nat;
  observed_submodel : list nat;
  posterior_model : option PosteriorModel
}.

(** The loop of [PosteriorModel.set_model_mapping] over
    [joint_model._flatten()]; [self_flat] is [self._flatten()], and the
    handler catches [KeyError]. *)
Fixpoint set_model_mapping_loop (self_flat : outcome (list nat)) (joint_flat : list nat)
    (model_mapping : gmap nat nat) : outcome (gmap nat nat) :=
  match joint_flat with
  | [] => Ok model_mapping
  | p_var :: rest =>
      match (nm ← name_of G p_var; get_variable self_flat nm) with
      | Ok q => set_model_mapping_loop self_flat rest (<[q := p_var]> model_mapping)
      | Raise (KeyError _) => set_model_mapping_loop self_flat rest model_mapping
      | Raise e => Raise e
      | OutOfFuel => OutOfFuel
      end
  end.

(** [PosteriorModel.set_model_mapping]. *)
Definition set_model_mapping (fuel : nat) (self_variables joint_variables : list nat)
  : outcome (gmap nat nat) :=
  joint_flat ← pm_flatten G fuel joint_variables;
  set_model_mapping_loop (pm_flatten G fuel self_variables) joint_flat ∅.

(** [PosteriorModel.__init__], the part that builds the coupling. *)
Definition PosteriorModel_init (fuel : nat) (posterior_variables joint_variables : list nat)
  : outcome PosteriorModel :=
  mm ← set_model_mapping fuel posterior_variables joint_variables;
  Ok {| post_variables := posterior_variables; model_mapping := mm |}.

(** [PosteriorModel.posterior_sample2joint_sample]. *)
Definition posterior_sample2joint_sample (model_mapping : gmap nat nat)
    (posterior_sample : gmap nat value) : gmap nat value :=
  map_fold (fun key val joint_sample =>
              match model_mapping !! key with
              | Some j => <[j := val]> joint_sample
              | None => joint_sample
              end) ∅ posterior_sample.

(** [PosteriorModel._get_posterior_sample]. *)
Definition post__get_posterior_sample (fuel : nat) (pm : PosteriorModel)
    (number_samples : nat) (observed : bool) (input_values : gmap nat value) (s : state)
  : outcome (gmap nat value * state) :=
  '(d, s) ← pm__get_sample G fuel (post_variables pm) number_samples observed
                           input_values s;
  Ok (input_values ∪ posterior_sample2joint_sample (model_mapping pm) d, s).

(** [ProbabilisticModel.check_posterior_model]. *)
Definition check_posterior_model (m : ProbabilisticModel) : outcome PosteriorModel :=
  match posterior_model m with
  | None => Raise (AttributeError "The posterior model has not been initialized.")
  | Some pm => Ok pm
  end.

(** [ProbabilisticModel._get_posterior_sample]. *)
Definition pm__get_posterior_sample (fuel : nat) (m : ProbabilisticModel)
    (number_samples : nat) (input_values : gmap nat value) (s : state)
  : outcome (gmap nat value * state) :=
  pm ← check_posterior_model m;
  '(posterior_sample, s) ← post__get_posterior_sample fuel pm number_samples false
                                                      input_values s;
  pm__get_sample G fuel (variables m) number_samples false posterior_sample s.

(** [ProbabilisticModel.estimate_log_model_evidence]; the test
    [method is "ELBO"] is on the identity of the string. *)
Definition estimate_log_model_evidence (fuel : nat) (m : ProbabilisticModel)
    (number_samples : nat) (method : py_string) (input_values : gmap nat value)
    (s : state) : outcome (L * state) :=
  pm ← check_posterior_model m;
  if py_is_literal method "ELBO" then
    '(samples, s) ← pm__get_sample G fuel (observed_submodel m) 1 true ∅ s;
    '(posterior_samples, s) ← pm__get_sample G fuel (post_variables pm) number_samples
                                             false input_values s;
    '(posterior_log_prob, s) ← pm_calculate_log_probability G fuel (post_variables pm)
                                                            posterior_samples s;
    let samples :=
      posterior_sample2joint_sample (model_mapping pm) posterior_samples ∪ samples in
    '(joint_log_prob, s) ← pm_calculate_log_probability G fuel (variables m) samples s;
    Ok (F_mean (lsub joint_log_prob posterior_log_prob), s)
  else
    Raise (NotImplementedError
             "The requested estimation method is currently not implemented.").

End Coupling.

(** ** The symbolic algebra: [PartialLink] *)

(** The objects that the fields [vars] and [links] refer to live in a heap of
    their own; a field holds the address of its object, so that two links may
    share one.  An object is a [set] of variables, or the empty dictionary
    [{}] that [var2link] gives the [vars] of a number. *)
Inductive set_object : Type :=
| PySet (s : gset nat)
| PyDict.

Abbreviation set_heap := (list set_object).

(** What the iteration over an object yields: the elements of a set, the keys
    of the empty dictionary. *)
Definition iter_of (o : set_object) : gset nat :=
  match o with
  | PySet s => s
  | PyDict => ∅
  end.

Section Algebra.

Context `{Backend}.

Record PartialLink : Type := {
  vars : nat;
  fn : gmap nat value -> outcome value;
  links : nat
}.

(** A new object. *)
Definition alloc (x : set_object) (h : set_heap) : nat * set_heap :=
  (length h, h ++ [x]).

(** [a.add(x)] on the object at [a]: a dictionary has no [add]. *)
Definition set_add (a : nat) (x : nat) (h : set_heap) : outcome set_heap :=
  match h !! a with
  | Some (PySet s) => Ok (<[a := PySet (s ∪ {[x]})]> h)
  | Some PyDict => Raise (AttributeError "'dict' object has no attribute 'add'")
  | None => Raise (Dangling a)
  end.

(** [a.union(b)], the objects being at [a] and [b]: the receiver is looked up
    first, and a dictionary has no [union]; the argument is only iterated. *)
Definition set_union (a b : nat) (h : set_heap) : outcome (gset nat) :=
  match h !! a with
  | Some (PySet s) =>
      match h !! b with
      | Some o => Ok (s ∪ iter_of o)
      | None => Raise (Dangling b)
      end
  | Some PyDict => Raise (AttributeError "'dict' object has no attribute 'union'")
  | None => Raise (Dangling a)
  end.

(** [values[var]]. *)
Definition subscript (values : gmap nat value) (var : nat) : outcome value :=
  match values !! var with
  | Some v => Ok v
  | None => Raise (KeyError (KObj var))
  end.

(** The operands of an operator: a link, a variable, a number or an array, or
    anything else (tuples of variables and links apart). *)
Inductive operand : Type :=
| OpLink (l : PartialLink)
| OpVariable (v : nat)
| OpNumber (c : value)
| OpOther.

(** [Variable._apply_operator]. *)
Definition Variable_apply_operator (self : nat) (other : operand)
    (op : value -> value -> value) (h : set_heap) : outcome (PartialLink * set_heap) :=
  match other with
  | OpLink o =>
      let vars_ := vars o in
      h ← set_add vars_ self h;
      let fn_ := fun values => a ← subscript values self; b ← fn o values; Ok (op a b) in
      let links_ := links o in
      Ok ({| vars := vars_; fn := fn_; links := links_ |}, h)
  | OpVariable o =>
      let '(vars_, h) := alloc (PySet {[self; o]}) h in
      let fn_ := fun values =>
                   a ← subscript values self; b ← subscript values o; Ok (op a b) in
      let '(links_, h) := alloc (PySet ∅) h in
      Ok ({| vars := vars_; fn := fn_; links := links_ |}, h)
  | OpNumber c =>
      let '(vars_, h) := alloc (PySet {[self]}) h in
      let fn_ := fun values => a ← subscript values self; Ok (op a c) in
      let '(links_, h) := alloc (PySet ∅) h in
      Ok ({| vars := vars_; fn := fn_; links := links_ |}, h)
  | OpOther => Raise (TypeError "")
  end.

(** [var2link]: a variable and a number become new links, the [vars] of a
    number being the dictionary [{}]; anything else is returned as it is. *)
Definition var2link (var : operand) (h : set_heap) : operand * set_heap :=
  match var with
  | OpVariable v =>
      let '(vars_, h) := alloc (PySet {[v]}) h in
      let '(links_, h) := alloc (PySet ∅) h in
      (OpLink {| vars := vars_; fn := fun values => subscript values v; links := links_ |},
       h)
  | OpNumber c =>
      let '(vars_, h) := alloc PyDict h in
      let '(links_, h) := alloc (PySet ∅) h in
      (OpLink {| vars := vars_; fn := fun _ => Ok c; links := links_ |}, h)
  | OpLink l => (OpLink l, h)
  | OpOther => (OpOther, h)
  end.

(** [PartialLink._apply_operator]: the arguments of the constructor are
    evaluated from left to right, and in [self.vars.union(other.vars)] the
    method is looked up before [other.vars] is read. *)
Definition PartialLink_apply_operator (self : PartialLink) (other : operand)
    (op : value -> value -> value) (h : set_heap) : outcome (PartialLink * set_heap) :=
  let '(other, h) := var2link other h in
  match other with
  | OpLink other =>
      vs ← set_union (vars self) (vars other) h;
      let '(vars_, h) := alloc (PySet vs) h in
      let fn_ := fun values => a ← fn self values; b ← fn other values; Ok (op a b) in
      ls ← set_union (links self) (links other) h;
      let '(links_, h) := alloc (PySet ls) h in
      Ok ({| vars := vars_; fn := fn_; links := links_ |}, h)
  | _ =>
      match h !! vars self with
      | Some (PySet _) => Raise (AttributeError "vars")
      | Some PyDict => Raise (AttributeError "'dict' object has no attribute 'union'")
      | None => Raise (Dangling (vars self))
      end
  end.

(** The set at an address of the heap [h], when the object there is a set. *)
Definition set_at (h : set_heap) (a : nat) : option (gset nat) :=
  match h !! a with
  | Some (PySet s) => Some s
  | _ => None
  end.

(** The set a link's [vars] field shows in the heap [h]. *)
Definition vars_of (l : PartialLink) (h : set_heap) : option (gset nat) :=
  set_at h (vars l).

(** The set a link's [links] field shows in the heap [h]. *)
Definition links_of (l : PartialLink) (h : set_heap) : option (gset nat) :=
  set_at h (links l).

End Algebra.

(** ** Vocabulary of the properties *)

Section Vocabulary.

Context `{Backend}.

(** [reach G n m]: [m] is [n] or an ancestor of [n], following [parents]. *)
Inductive reach (G : graph) : nat -> nat -> Prop :=
| reach_self n : reach G n n
| reach_parent n r p m :
    G !! n = Some (Rand r) -> p ∈ rv_parents r -> reach G p m -> reach G n m.

(** [m] is reachable from one of the declared roots. *)
Definition reach_from (G : graph) (roots : list nat) (m : nat) : Prop :=
  ∃ v, v ∈ roots ∧ reach G v m.

Definition is_random (G : graph) (n : nat) : Prop := ∃ r, G !! n = Some (Rand r).

(** Objects are numbered in the order of their construction, and the parents
    of a variable exist when it is constructed: the graph is acyclic. *)
Definition wf_graph (G : graph) : Prop :=
  ∀ n r, G !! n = Some (Rand r) ->
         ∀ p, p ∈ rv_parents r -> p < n ∧ is_Some (G !! p).

(** The declared roots of a model are objects of the graph, all older than
    [bound]. *)
Definition roots_in (G : graph) (roots : list nat) (bound : nat) : Prop :=
  ∀ v, v ∈ roots -> v < bound ∧ is_Some (G !! v).

(** The cache of a random variable is clean. *)
Definition clean (st : rv_state) : Prop :=
  samples st = [] ∧ _evaluated st = false ∧ _current_value st = pyNone.

(** The observation state [__init__] and [unobserve] leave. *)
Definition unobserved_state (st : rv_state) : Prop :=
  _observed st = false ∧ _observed_value st = pyNone ∧ dataset st = None
  ∧ has_random_dataset st = false ∧ has_observed_value st = false.

(** The random variables [reset] reaches from [n]. *)
Definition reset_set (G : graph) (n k : nat) : Prop := reach G n k ∧ is_random G k.

(** What a reset does to the heap: the variables of [A] are cleared, the
    others are as they were, and the logs are not touched. *)
Definition cleared_on (A : nat -> Prop) (s s' : state) : Prop :=
  draws s' = draws s ∧ evals s' = evals s
  ∧ ∀ k, (A k -> get s' k = clear (get s k))
         ∧ (get s' k = get s k ∨ (A k ∧ get s' k = clear (get s k))).

(** A pass over the variables of [A] writes cache fields only, and only of
    the variables of [A]. *)
Definition touched_on (A : nat -> Prop) (s s' : state) : Prop :=
  ∀ k, clear (get s' k) = clear (get s k) ∧ (get s' k = get s k ∨ A k).

(** The random variables a model's [reset] reaches from its declared roots. *)
Definition model_set (G : graph) (roots : list nat) (k : nat) : Prop :=
  reach_from G roots k ∧ is_random G k.

(** [wf_graph], as a test. *)
Definition wf_nodeb (G : graph) (n : nat) (nd : vnode) : bool :=
  match nd with
  | Det _ => true
  | Rand r => forallb (fun p => (p <? n) && bool_decide (is_Some (G !! p))) (rv_parents r)
  end.

Definition wf_graphb (G : gmap nat vnode) : bool :=
  forallb (fun '(n, nd) => wf_nodeb G n nd) (map_to_list G).

(** [roots_in], as a test. *)
Definition roots_inb (G : graph) (roots : list nat) (bound : nat) : bool :=
  bool_decide (Forall (fun v => v < bound ∧ is_Some (G !! v)) roots).

(** No random variable is observed with a random dataset: sampling in
    observed mode then follows [parents] only. *)
Definition no_dataset (s : state) : Prop :=
  ∀ k, has_random_dataset (get s k) = false.

(** In the heap [s] the variable [m] is sampled, in observed mode, through
    its dataset [n]: it holds no observed value, and was observed with the
    random variable [n]. *)
Definition sampled_through (s : state) (m n : nat) : Prop :=
  has_observed_value (get s m) = false
  ∧ has_random_dataset (get s m) = true
  ∧ dataset (get s m) = Some n.

(** The heaps [s0] and [s] hold the same observations. *)
Definition same_observations (s0 s : state) : Prop :=
  ∀ k, has_observed_value (get s k) = has_observed_value (get s0 k)
       ∧ has_random_dataset (get s k) = has_random_dataset (get s0 k)
       ∧ dataset (get s k) = dataset (get s0 k).

(** The invariant of a pass in observed mode, for a variable [n] that holds
    the observed value [v] and has an empty cache: [n] stays so, the
    observations stay, no draw is made by [n] after the heap [s0], and the
    distribution of [n] is asked only by a variable that is sampled through
    its dataset [n]. *)
Definition keeps_observed (n : nat) (v : value) (s0 s : state) : Prop :=
  has_observed_value (get s n) = true ∧ samples (get s n) = []
  ∧ _observed_value (get s n) = v
  ∧ same_observations s0 s
  ∧ ∀ e, e ∈ draws s ->
         e ∈ draws s0 ∨ (e.1 ≠ n ∧ (e.2 = n -> sampled_through s0 e.1 n)).

(** The sample [d] binds the variables on whose samples the draw [e] was
    made: the parents of the variable whose distribution was asked. *)
Definition binds_parents_of (G : graph) (d : gmap nat value) (e : nat * nat) : Prop :=
  ∀ r p, G !! e.2 = Some (Rand r) -> p ∈ rv_parents r -> is_Some (d !! p).

(** Within the list [l] no two variables have the same name. *)
Definition unique_names (G : graph) (l : list nat) : Prop :=
  ∀ a b nm, a ∈ l -> b ∈ l -> name_of G a = Ok nm -> name_of G b = Ok nm -> a = b.

(** The variables [p] and [j] have the same name. *)
Definition same_name (G : graph) (p j : nat) : Prop :=
  ∃ nm, name_of G p = Ok nm ∧ name_of G j = Ok nm.

(** The joint variable [j] finds the posterior variable [p] under its name in
    the flattened posterior model. *)
Definition finds (G : graph) (post_flat : list nat) (j p : nat) : Prop :=
  ∃ nm, name_of G j = Ok nm ∧ get_variable G (Ok post_flat) nm = Ok p.

(** The arithmetic that the sums of log-densities rely on: [0] is neutral for
    the addition, the addition is associative, and broadcasting two operands
    does not change their sum. *)
Class BackendLaws : Prop := {
  ladd_assoc : ∀ a b c : L, ladd a (ladd b c) = ladd (ladd a b) c;
  ladd_lzero_l : ∀ a : L, ladd lzero a = a;
  ladd_lzero_r : ∀ a : L, ladd a lzero = a;
  partial_broadcast_sum :
    ∀ a b : L, ladd (partial_broadcast a b).1 (partial_broadcast a b).2 = ladd a b
}.

(** The log-density of the random variable [n] itself, in the heap [s] and
    under the assignment [vals]: the density of its value given its parameters,
    summed over the data points when [n] is observed. *)
Definition own_log_probability (G : graph) (vals : gmap nat value) (s : state) (n : nat)
  : L :=
  match G !! n with
  | Some (Rand r) =>
      let value := match vals !! n with
                   | Some v => v
                   | None => rv_value (get s n)
                   end in
      let parents_values :=
        deterministic_parents_values G (rv_parents r)
          ∪ parents_input_values (rv_parents r) vals in
      let log_probability :=
        dist_calculate_log_probability (rv_distribution r) value
                                       (apply_link (rv_link r) parents_values) in
      if rv_is_observed (get s n) then F_sum_axis1 log_probability else log_probability
  | _ => lzero
  end.

(** The sum of the own log-densities of the variables of [l], in the order of
    [l]. *)
Definition sum_of (G : graph) (vals : gmap nat value) (s : state) (l : list nat) : L :=
  foldr (fun x acc => ladd (own_log_probability G vals s x) acc) lzero l.

(** Within [U], the memo flags of the random variables older than [k] are
    closed under ancestors: when one is evaluated, so are the random variables
    it reaches. *)
Definition memo_closed (G : graph) (U : nat -> Prop) (k : nat) (s : state) : Prop :=
  ∀ m m', U m -> m < k -> is_random G m -> _evaluated (get s m) = true ->
          reset_set G m m' -> _evaluated (get s m') = true.

(** What a pass of log-probabilities from [A] does to the heap [s]: it asks
    the density of the variables of [new], once each; these are the random
    variables of [A] that were not evaluated; their flag is set and nothing
    else is written. *)
Definition evaluates (A : nat -> Prop) (s s' : state) (new : list nat) : Prop :=
  evals s' = evals s ++ new ∧ draws s' = draws s ∧ NoDup new
  ∧ (∀ x, x ∈ new ↔ A x ∧ _evaluated (get s x) = false)
  ∧ (∀ x, get s' x = if decide (x ∈ new) then set_evaluated true (get s x)
                     else get s x).

(** Two heaps that a pass of log-probabilities under the assignment [vals]
    does not tell apart: every variable has the same memo flag and the same
    observation flag in both, and the same [value] unless [vals] binds it. *)
Definition lp_equiv (vals : gmap nat value) (s1 s2 : state) : Prop :=
  ∀ k, _evaluated (get s1 k) = _evaluated (get s2 k)
       ∧ _observed (get s1 k) = _observed (get s2 k)
       ∧ (vals !! k = None -> rv_value (get s1 k) = rv_value (get s2 k)).

End Vocabulary.

(** ** A backend of integers, for the examples

    Values are integers or [None]; a link hands its arguments on; the
    distribution [mu] draws [mu + k] at the [k]-th draw of the run and has
    density [- (x - mu)^2 - 1] at the integer [x]. *)

Module IntBackend.

Definition density (mu : Z) (v : option Z) : Z :=
  match v with
  | Some x => (- ((x - mu) * (x - mu)) - 1)%Z
  | None => 0%Z
  end.

Definition backend : Backend := {|
  value := option Z;
  params := gmap nat (option Z);
  dist := Z;
  lnk := unit;
  L := Z;
  pyNone := None;
  coerce_to_dtype := fun v _ => v;
  is_chainer_Variable := fun _ => true;
  tile_parameter := fun v _ => v;
  apply_link := fun _ d => d;
  dist_get_sample := fun mu _ _ k => Some (mu + Z.of_nat k)%Z;
  dist_calculate_log_probability := fun mu v _ => density mu v;
  lzero := 0%Z;
  ladd := Z.add;
  lsub := Z.sub;
  F_sum_axis1 := fun x => x;
  F_mean := fun x => x;
  is_tensor := fun _ => true;
  partial_broadcast := fun a b => (a, b)
|}.

#[local] Existing Instance backend.

(** A diamond: [P] (object 0) is a parent of [C1] (1) and of [C2] (2), which
    are the parents of [R] (3); object 4 is a deterministic variable. *)
Definition rv (name : string) (mu : Z) (parents : list nat) : @vnode backend :=
  Rand {| rv_name := name; rv_distribution := mu; rv_link := tt;
          rv_parents := parents |}.

Definition diamond : @graph backend :=
  {[ 0 := rv "P" 0 [];
     1 := rv "C1" 1 [0];
     2 := rv "C2" 2 [0];
     3 := rv "R" 3 [1; 2];
     4 := Det {| det_name := "k"; det_value := Some 5%Z; det_observed := false |} ]}.

(** The heap the constructors leave. *)
Definition fresh_heap : @state backend := {| store := ∅; draws := []; evals := [] |}.

(** One random variable [x] (object 0), observed with the data 7. *)
Definition single : @graph backend := {[ 0 := rv "x" 10 [] ]}.

Definition observed_heap : @state backend :=
  {| store := {[ 0 := observe (ObsValue (Some 7%Z)) rv_init ]};
     draws := []; evals := [] |}.

(** The diamond after a draw of [P] that no reset has cleared. *)
Definition cached_heap : @state backend :=
  {| store := {[ 0 := set_samples [Some 8%Z; Some 9%Z] rv_init ]};
     draws := [(0, 0); (0, 0)]; evals := [] |}.

(** A joint model with the variables [mu_post] (object 0) and [sigma]
    (object 1), and a posterior model with a variable [mu_post] of its own
    (object 2). *)
Definition coupling : @graph backend :=
  {[ 0 := rv "mu_post" 0 []; 1 := rv "sigma" 1 []; 2 := rv "mu_post" 5 [] ]}.

(** [operator.add] and [operator.mul] on the values. *)
Definition op_add (a b : option Z) : option Z :=
  match a, b with
  | Some x, Some y => Some (x + y)%Z
  | _, _ => None
  end.

Definition op_mul (a b : option Z) : option Z :=
  match a, b with
  | Some x, Some y => Some (x * y)%Z
  | _, _ => None
  end.

(** [x] after [x.value = 2]. *)
Definition valued_heap : @state backend :=
  {| store := {[ 0 := rv_set_value (Some 2%Z) rv_init ]}; draws := []; evals := [] |}.

(** [x] (object 2) observed with the random dataset [d] (object 1), whose
    parent is [p] (object 0). *)
Definition with_dataset : @graph backend :=
  {[ 0 := rv "p" 0 []; 1 := rv "d" 1 [0]; 2 := rv "x" 2 [] ]}.

Definition dataset_heap : @state backend :=
  {| store := {[ 2 := observe (ObsVariable 1) rv_init ]}; draws := []; evals := [] |}.

(** The posterior model [mu_post] (object 2) coupled with the joint model
    [mu_post], [sigma] (objects 0 and 1), none of them observed. *)
Definition posterior : PosteriorModel :=
  {| post_variables := [2]; model_mapping := {[ 2 := 0 ]} |}.

Definition joint : PosteriorModel -> ProbabilisticModel := fun pm =>
  {| variables := [0; 1]; observed_submodel := []; posterior_model := Some pm |}.

End IntBackend.

(** ** The rest of the traversals and the vocabulary of a sampling pass *)

Section Traversal.

Context `{Backend}.
Variable G : graph.

(** [BrancherClass.flatten] on a variable: [set(self._flatten())]. *)
Definition flatten (fuel : nat) (n : nat) : outcome (gset nat) :=
  l ← _flatten G fuel n;
  Ok (list_to_set l).

(** [BrancherClass.flatten] on a model. *)
Definition ProbabilisticModel_flatten (fuel : nat) (variables : list nat)
  : outcome (gset nat) :=
  l ← pm_flatten G fuel variables;
  Ok (list_to_set l).

(** Python's [all] of a list of booleans. *)
Definition py_all (bs : list bool) : bool := forallb id bs.

(** [ProbabilisticModel.is_observed]:
    [all([var.is_observed for var in self._flatten()])]. *)
Definition pm_is_observed (fuel : nat) (variables : list nat) (s : state) : outcome bool :=
  flat ← pm_flatten G fuel variables;
  obs ← mapM (fun var => is_observed G var s) flat;
  Ok (py_all obs).

(** In the list [l] every random variable comes after its parents. *)
Definition parents_first (l : list nat) : Prop :=
  ∀ l1 x l2 r p, l = l1 ++ x :: l2 -> G !! x = Some (Rand r) -> p ∈ rv_parents r ->
                 p ∈ l1.

End Traversal.

Section SamplingVocabulary.

Context `{Backend}.

(** [live G iv n m]: [m] is [n], or is reached from [n] through the parents of
    random variables that the input values [iv] do not bind.  These are the
    variables that a sampling pass from [n] comes to when no cache cuts it
    short: a bound variable is returned without a call to its parents. *)
Inductive live (G : graph) (iv : gmap nat value) : nat -> nat -> Prop :=
| live_self n : live G iv n n
| live_parent n r p m :
    G !! n = Some (Rand r) -> iv !! n = None -> p ∈ rv_parents r ->
    live G iv p m -> live G iv n m.

Definition live_from (G : graph) (iv : gmap nat value) (roots : list nat) (m : nat)
  : Prop :=
  ∃ v, v ∈ roots ∧ live G iv v m.

(** What a sampling pass with [resample=False], not in observed mode, hands
    out for the variable [x] in the heap [s]: a deterministic variable its
    (tiled) value, a random variable its most recent cached draw and, when it
    has none, the input value that binds it. *)
Definition binding (G : graph) (number_samples : nat) (iv : gmap nat value)
    (s : state) (x : nat) : option value :=
  match G !! x with
  | Some (Det d) => DeterministicVariable_get_sample x d number_samples iv !! x
  | Some (Rand _) =>
      match last (samples (get s x)) with
      | Some v => Some v
      | None => iv !! x
      end
  | None => None
  end.

(** The value [v] is a draw of the distribution of the random variable [x] on
    the parameters its link gives for the values that the pass hands out for its
    parents; the draw is the entry [j] of the log of the draws. *)
Definition drawn_as (G : graph) (number_samples : nat) (iv : gmap nat value)
    (s : state) (x : nat) (v : value) : Prop :=
  ∃ r M i j,
    G !! x = Some (Rand r)
    ∧ (∀ p, p ∈ rv_parents r ->
            is_Some (M !! p) ∧ M !! p = binding G number_samples iv s p)
    ∧ input_dict_of M (rv_parents r) = Ok i
    ∧ v = dist_get_sample (rv_distribution r) (apply_link (rv_link r) i) number_samples j
    ∧ draws s !! j = Some (x, x).

(** What a sampling pass does to the heap: the variables of [new] are drawn,
    in this order and once each, by themselves; they had an empty cache and no
    input value, and now hold their draw; nothing else is written. *)
Definition sampled (G : graph) (number_samples : nat) (iv : gmap nat value)
    (s s' : state) (new : list nat) : Prop :=
  draws s' = draws s ++ ((fun x => (x, x)) <$> new)
  ∧ evals s' = evals s
  ∧ NoDup new
  ∧ (∀ x, x ∈ new ->
          samples (get s x) = [] ∧ iv !! x = None
          ∧ ∃ v, get s' x = set_samples [v] (get s x)
                 ∧ drawn_as G number_samples iv s' x v)
  ∧ (∀ x, x ∉ new -> get s' x = get s x).

(** The variable [y] lies behind a random variable of [A] that holds a cached
    draw in the heap [s]. *)
Definition behind (G : graph) (iv : gmap nat value) (A : nat -> Prop) (s : state)
    (y : nat) : Prop :=
  ∃ c, A c ∧ is_random G c ∧ samples (get s c) ≠ [] ∧ live G iv c y.

(** No draw by the variable [x] was logged after the heap [s0]. *)
Definition no_draw_by (x : nat) (s0 s : state) : Prop :=
  ∀ e, e ∈ draws s -> e ∈ draws s0 ∨ e.1 ≠ x.

End SamplingVocabulary.

(** ** The construction of a model *)

Section Construction.

Context `{Backend}.
Variable G : graph.

(** [ProbabilisticModel._validate_variables].  The members of the list are
    objects of the graph, which holds deterministic and random variables only:
    the [ValueError] for a member of another type has no run here. *)
Definition _validate_variables (variables : list nat) : outcome (list nat) :=
  _ ← mapM (fun var => match G !! var with
                       | Some _ => Ok tt
                       | None => Raise (Dangling var)
                       end) variables;
  Ok variables.

(** [ProbabilisticModel._set_summary], as far as the graph is concerned: it
    flattens the model into a set and reads the name and [is_observed] of every
    variable; the table it hands on is not modelled. *)
Definition _set_summary (fuel : nat) (variables : list nat) (s : state) : outcome unit :=
  var_list ← ProbabilisticModel_flatten G fuel variables;
  _ ← mapM (name_of G) (elements var_list);
  _ ← mapM (fun var => is_observed G var s) (elements var_list);
  Ok tt.

(** [[var for var in flattened_model if var.is_observed]]. *)
Fixpoint observed_variables_of (flattened_model : list nat) (s : state)
  : outcome (list nat) :=
  match flattened_model with
  | [] => Ok []
  | var :: rest =>
      obs ← is_observed G var s;
      rest' ← observed_variables_of rest s;
      Ok (if (obs : bool) then var :: rest' else rest')
  end.

(** The declared variables of a model. *)
Definition model_variables (m : ProbabilisticModel) : list nat := variables m.

(** [ProbabilisticModel.__init__] with [update_observed_submodel], which
    constructs a [ProbabilisticModel] in its turn: [depth] bounds the nesting of
    the constructions. *)
Fixpoint ProbabilisticModel_init (depth fuel : nat) (variables : list nat) (s : state)
  : outcome ProbabilisticModel :=
  match depth with
  | 0 => OutOfFuel
  | S depth' =>
      variables ← _validate_variables variables;
      _ ← _set_summary fuel variables s;
      obs ← mapM (fun var => is_observed G var s) variables;
      if negb (py_all (obs : list bool)) then
        flattened_model ← pm_flatten G fuel variables;
        observed_variables ← observed_variables_of flattened_model s;
        sub ← ProbabilisticModel_init depth' fuel observed_variables s;
        Ok {| variables := variables; observed_submodel := model_variables sub;
              posterior_model := None |}
      else
        Ok {| variables := variables; observed_submodel := variables;
              posterior_model := None |}
  end.

(** [PosteriorModel.__init__]: the construction of the model on the variables
    of [posterior_model], then the coupling with [joint_model]. *)
Definition PosteriorModel_construct (depth fuel : nat)
    (posterior_model joint_model : ProbabilisticModel) (s : state)
  : outcome PosteriorModel :=
  _ ← ProbabilisticModel_init depth fuel (model_variables posterior_model) s;
  PosteriorModel_init G fuel (model_variables posterior_model)
                      (model_variables joint_model).

(** [ProbabilisticModel.set_posterior_model]. *)
Definition set_posterior_model (depth fuel : nat) (self model : ProbabilisticModel)
    (s : state) : outcome ProbabilisticModel :=
  pm ← PosteriorModel_construct depth fuel model self s;
  Ok {| variables := model_variables self; observed_submodel := observed_submodel self;
        posterior_model := Some pm |}.

End Construction.

(** ** The rest of the symbolic algebra *)

Section Operators.

Context `{Backend}.

(** The functions of the module [operator] on the values, and the number
    [-1]. *)
Variables operator_add operator_sub operator_mul : value -> value -> value.
Variable minus_one : value.

(** The indices of a subscript, the slice [slice(None, None, None)], the
    subscript of a value by a tuple of indices, and the shape of a value. *)
Variable index : Type.
Variable full_slice : index.
Variable value_getitem : value -> list index -> value.
Variable value_shape : value -> value.

(** [Variable.__add__], [__sub__] and [__mul__]; [__truediv__] and [__pow__]
    are [_apply_operator] likewise. *)
Definition Variable_add (self : nat) (other : operand) (h : set_heap)
  : outcome (PartialLink * set_heap) :=
  Variable_apply_operator self other operator_add h.

Definition Variable_sub (self : nat) (other : operand) (h : set_heap)
  : outcome (PartialLink * set_heap) :=
  Variable_apply_operator self other operator_sub h.

Definition Variable_mul (self : nat) (other : operand) (h : set_heap)
  : outcome (PartialLink * set_heap) :=
  Variable_apply_operator self other operator_mul h.

(** [PartialLink.__mul__], and [__rmul__], which is [__mul__]. *)
Definition PartialLink_mul (self : PartialLink) (other : operand) (h : set_heap)
  : outcome (PartialLink * set_heap) :=
  PartialLink_apply_operator self other operator_mul h.

Definition PartialLink_rmul (self : PartialLink) (other : operand) (h : set_heap)
  : outcome (PartialLink * set_heap) :=
  PartialLink_mul self other h.

(** [Variable.__radd__] and [__rmul__], for [other + self] and
    [other * self]: they are [__add__] and [__mul__] of [self]. *)
Definition Variable_radd (self : nat) (other : operand) (h : set_heap)
  : outcome (PartialLink * set_heap) :=
  Variable_add self other h.

Definition Variable_rmul (self : nat) (other : operand) (h : set_heap)
  : outcome (PartialLink * set_heap) :=
  Variable_mul self other h.

(** [Variable.__rsub__], for [other - self]: [-1*self.__sub__(other)].  The
    product of the number [-1] and a link is the [__rmul__] of the link. *)
Definition Variable_rsub (self : nat) (other : operand) (h : set_heap)
  : outcome (PartialLink * set_heap) :=
  '(l, h) ← Variable_sub self other h;
  PartialLink_rmul l (OpNumber minus_one) h.

(** [Variable.__rtruediv__] and [__rpow__]. *)
Definition Variable_rtruediv (self : nat) (other : operand) (h : set_heap)
  : outcome (PartialLink * set_heap) :=
  Raise (NotImplementedError "").

Definition Variable_rpow (self : nat) (other : operand) (h : set_heap)
  : outcome (PartialLink * set_heap) :=
  Raise (NotImplementedError "").

(** The key of a subscript: an iterable of indices, or one index (the test is
    [isinstance(key, collections.Iterable)], of the Python versions that have
    this name). *)
Inductive item_key : Type :=
| KeyIterable (key : list index)
| KeySingle (key : index).

(** [variable_slice]: the whole of the first axis, then the key. *)
Definition variable_slice (key : item_key) : list index :=
  match key with
  | KeyIterable key => full_slice :: key
  | KeySingle key => [full_slice; key]
  end.

(** [Variable.__getitem__]. *)
Definition Variable_getitem (self : nat) (key : item_key) (h : set_heap)
  : PartialLink * set_heap :=
  let variable_slice := variable_slice key in
  let '(vars_, h) := alloc (PySet {[self]}) h in
  let fn_ := fun values => a ← subscript values self; Ok (value_getitem a variable_slice) in
  let '(links_, h) := alloc (PySet ∅) h in
  ({| vars := vars_; fn := fn_; links := links_ |}, h).

(** [Variable.shape]. *)
Definition Variable_shape (self : nat) (h : set_heap) : PartialLink * set_heap :=
  let '(vars_, h) := alloc (PySet {[self]}) h in
  let fn_ := fun values => a ← subscript values self; Ok (value_shape a) in
  let '(links_, h) := alloc (PySet ∅) h in
  ({| vars := vars_; fn := fn_; links := links_ |}, h).

(** [PartialLink.__getitem__]: [vars = self.vars] is the set of [self]
    itself. *)
Definition PartialLink_getitem (self : PartialLink) (key : item_key) (h : set_heap)
  : PartialLink * set_heap :=
  let variable_slice := variable_slice key in
  let vars_ := vars self in
  let fn_ := fun values => a ← fn self values; Ok (value_getitem a variable_slice) in
  let '(links_, h) := alloc (PySet ∅) h in
  ({| vars := vars_; fn := fn_; links := links_ |}, h).

(** [PartialLink.shape]. *)
Definition PartialLink_shape (self : PartialLink) (h : set_heap)
  : PartialLink * set_heap :=
  let vars_ := vars self in
  let fn_ := fun values => a ← fn self values; Ok (value_shape a) in
  let '(links_, h) := alloc (PySet ∅) h in
  ({| vars := vars_; fn := fn_; links := links_ |}, h).

End Operators.

Section LinkObjects.

Context `{Backend}.
Variable G : graph.

(** The objects of the flattened list of a link: variables of the graph, and
    the link itself. *)
Inductive flat_object : Type :=
| FVariable (n : nat)
| FLink (l : PartialLink).

(** [PartialLink._flatten]; the variables that the iteration over [vars]
    yields are taken in the order of [elements]. *)
Definition PartialLink__flatten (fuel : nat) (self : PartialLink) (h : set_heap)
  : outcome (list flat_object) :=
  match h !! vars self with
  | None => Raise (Dangling (vars self))
  | Some o =>
      ls ← mapM (_flatten G fuel) (elements (iter_of o));
      Ok ((FVariable <$> flatten_list ls) ++ [FLink self])
  end.

(** [var.name] on an object of the flattened list: a link has no attribute
    [name]. *)
Definition object_name (o : flat_object) : outcome string :=
  match o with
  | FVariable n => name_of G n
  | FLink _ => Raise (AttributeError "'PartialLink' object has no attribute 'name'")
  end.

(** [{var.name: var for var in flat_list}] on the objects. *)
Fixpoint object_name_dict (flat_list : list flat_object) (acc : gmap string flat_object)
  : outcome (gmap string flat_object) :=
  match flat_list with
  | [] => Ok acc
  | var :: rest =>
      nm ← object_name var;
      object_name_dict rest (<[nm := var]> acc)
  end.

(** [BrancherClass.get_variable] on a link. *)
Definition PartialLink_get_variable (fuel : nat) (self : PartialLink) (h : set_heap)
    (var_name : string) : outcome flat_object :=
  flat_list ← PartialLink__flatten fuel self h;
  let try_block :=
    d ← object_name_dict flat_list ∅;
    match d !! var_name with
    | Some var => Ok var
    | None => Raise (KeyError (KStr var_name))
    end in
  match try_block with
  | Raise (ValueError _) => Raise (ValueError (not_present var_name))
  | r => r
  end.

End LinkObjects.

Section LinkVocabulary.

Context `{Backend}.

(** The link [l] reads the variables of its [vars] only: its [fn] returns on
    every assignment that binds the variables of the set that [vars] shows in
    the heap [h], and returns the same on two assignments that agree on
    them. *)
Definition reads_within (l : PartialLink) (h : set_heap) : Prop :=
  ∃ vs, vars_of l h = Some vs
        ∧ (∀ values, (∀ v, v ∈ vs -> is_Some (values !! v)) -> ∃ r, fn l values = Ok r)
        ∧ (∀ values values', (∀ v, v ∈ vs -> values !! v = values' !! v) ->
                             fn l values = fn l values').

(** A link whose fields refer to sets of the heap [h], and that reads within
    its [vars]. *)
Definition link_ok (l : PartialLink) (h : set_heap) : Prop :=
  reads_within l h ∧ is_Some (links_of l h).

(** An operand that is a link is such a link. *)
Definition operand_ok (other : operand) (h : set_heap) : Prop :=
  match other with
  | OpLink o => link_ok o h
  | _ => True
  end.

End LinkVocabulary.

(** ** More examples on the backend of integers *)

Module MoreExamples.

Import IntBackend.
#[local] Existing Instance backend.

(** A variable [x] (object 1) whose parent (object 0) is named [x] too. *)
Definition namesakes : @graph backend :=
  {[ 0 := rv "x" 0 []; 1 := rv "x" 1 [0] ]}.

(** The diamond with [P] observed with the data 7. *)
Definition observed_parent_heap : @state backend :=
  {| store := {[ 0 := observe (ObsValue (Some 7%Z)) rv_init ]};
     draws := []; evals := [] |}.

(** [operator.sub] on the values. *)
Definition op_sub (a b : option Z) : option Z :=
  match a, b with
  | Some x, Some y => Some (x - y)%Z
  | _, _ => None
  end.

(** A link that reads the root [R] of the diamond, and the heap of its
    sets. *)
Definition link_of_R : @PartialLink backend :=
  {| vars := 0; fn := fun values => subscript values 3; links := 1 |}.

Definition link_heap : set_heap := [ PySet {[ 3 ]}; PySet ∅ ].

(** A joint model of [x] (object 1), observed with the data 7, whose parent
    is [mu] (object 0), and a posterior model of [mu] (object 2), coupled with
    the [mu] of the joint model. *)
Definition evidence_graph : @graph backend :=
  {[ 0 := rv "mu" 0 []; 1 := rv "x" 1 [0]; 2 := rv "mu" 5 [] ]}.

Definition evidence_heap : @state backend :=
  {| store := {[ 1 := observe (ObsValue (Some 7%Z)) rv_init ]};
     draws := []; evals := [] |}.

Definition evidence_posterior : PosteriorModel :=
  {| post_variables := [2]; model_mapping := {[ 2 := 0 ]} |}.

Definition evidence_joint : ProbabilisticModel :=
  {| variables := [1]; observed_submodel := [1];
     posterior_model := Some evidence_posterior |}.

End MoreExamples.

(** * Properties *)

(** ** Observation state *)

Section Observation.

Context `{Backend}.

(** C10: [unobserve] leaves a random variable unobserved whatever its
    observation state was: [is_observed] is false, [value] is the node's
    [_current_value], the fixed observed value and the random dataset are
    cleared with their flags, the cache fields are not touched, and [observe]
    followed by [unobserve] gives the state [unobserve] alone gives (the state
    itself when it was the unobserved one [__init__] leaves). *)
Theorem unobserve_leaves_unobserved (st : rv_state) :
  rv_is_observed (unobserve st) = false
  ∧ rv_value (unobserve st) = _current_value st
  ∧ _observed_value (unobserve st) = pyNone
  ∧ has_observed_value (unobserve st) = false
  ∧ dataset (unobserve st) = None
  ∧ has_random_dataset (unobserve st) = false
  ∧ unobserved_state (unobserve st)
  ∧ samples (unobserve st) = samples st
  ∧ _evaluated (unobserve st) = _evaluated st
  ∧ _current_value (unobserve st) = _current_value st
  ∧ (∀ data, unobserve (observe data st) = unobserve st)
  ∧ (∀ data, unobserve (observe data rv_init) = rv_init).
Proof.
  repeat split; try reflexivity.
  - intros []; reflexivity.
  - intros []; reflexivity.
Qed.

End Observation.

(** ** The heap *)

Section Heap.

Context `{Backend}.

Lemma bind_Ok {A B : Type} (a : A) (f : A -> outcome B) : (x ← Ok a; f x) = f a.
Proof. reflexivity. Qed.

Lemma get_put_eq n st s : get (put n st s) n = st.
Proof. unfold get, put; simpl. apply lookup_total_insert_eq. Qed.

Lemma get_put_ne n m st s : n ≠ m -> get (put n st s) m = get s m.
Proof. intros Hne. unfold get, put; simpl. by apply lookup_total_insert_ne. Qed.

Lemma get_put n m st s :
  get (put n st s) m = if decide (n = m) then st else get s m.
Proof.
  destruct (decide (n = m)) as [->|Hne]; [apply get_put_eq | by apply get_put_ne].
Qed.

Lemma get_log_eval n s m : get (log_eval n s) m = get s m.
Proof. reflexivity. Qed.

Lemma get_log_draw n v s m : get (log_draw n v s) m = get s m.
Proof. reflexivity. Qed.

Lemma clear_clear st : clear (clear st) = clear st.
Proof. reflexivity. Qed.

Lemma clear_clean st : clean (clear st).
Proof. by repeat split. Qed.

End Heap.

(** ** Reset *)

Section Reset.

Context `{Backend}.
Variable G : graph.

Lemma cleared_on_none s : cleared_on (fun _ => False) s s.
Proof. repeat split; [tauto | by left]. Qed.

Lemma cleared_on_iff A B s s' :
  (∀ k, A k ↔ B k) -> cleared_on A s s' -> cleared_on B s s'.
Proof.
  intros HAB (Hd & He & Hk). repeat split; try done.
  - intros Hb. apply Hk, HAB, Hb.
  - destruct (Hk k) as [_ [Hs | [Ha Hc]]]; [by left | right; split; [by apply HAB | done]].
Qed.

Lemma cleared_on_trans A B s s1 s2 :
  cleared_on A s s1 -> cleared_on B s1 s2 -> cleared_on (fun k => A k ∨ B k) s s2.
Proof.
  intros (Hd1 & He1 & H1) (Hd2 & He2 & H2).
  split; [congruence | split; [congruence |]].
  intros k. destruct (H1 k) as [H1a H1b], (H2 k) as [H2a H2b]. split.
  - intros [Ha | Hb].
    + destruct H2b as [-> | [_ ->]]; rewrite (H1a Ha); [done | apply clear_clear].
    + rewrite (H2a Hb). destruct H1b as [-> | [_ ->]]; [done | apply clear_clear].
  - destruct H2b as [E2 | [Hb E2]]; rewrite E2.
    + destruct H1b as [E1 | [Ha E1]]; [by left | right; auto].
    + right. split; [by right |].
      destruct H1b as [-> | [_ ->]]; [done | apply clear_clear].
Qed.

Lemma cleared_on_put n s :
  cleared_on (fun k => k = n) s (put n (clear (get s n)) s).
Proof.
  repeat split.
  - intros ->. apply get_put_eq.
  - rewrite get_put. destruct (decide (n = k)) as [->|]; [right; auto | by left].
Qed.

Lemma reach_det n d k : G !! n = Some (Det d) -> reach G n k -> k = n.
Proof. intros Hn Hr. destruct Hr as [|n r p m Hr _ _]; [done | congruence]. Qed.

Lemma reach_rand_inv n r k :
  G !! n = Some (Rand r) ->
  reach G n k ↔ k = n ∨ ∃ p, p ∈ rv_parents r ∧ reach G p k.
Proof.
  intros Hn. split.
  - intros Hr. destruct Hr as [|n r' p m Hr Hp Hpm]; [by left |].
    right. exists p. split; [congruence | done].
  - intros [-> | (p & Hp & Hr)]; [constructor | by econstructor].
Qed.

Lemma reach_trans n m k : reach G n m -> reach G m k -> reach G n k.
Proof. induction 1; [done | intros; econstructor; eauto]. Qed.

Lemma reach_le n k : wf_graph G -> reach G n k -> k ≤ n.
Proof.
  intros Hwf. induction 1 as [|n r p m Hn Hp _ IH]; [done |].
  destruct (Hwf n r Hn p Hp). lia.
Qed.

Lemma reach_in_graph n k : wf_graph G -> is_Some (G !! n) -> reach G n k -> is_Some (G !! k).
Proof.
  intros Hwf Hn. induction 1 as [|n r p m Hnr Hp _ IH]; [done |].
  apply IH. by destruct (Hwf n r Hnr p Hp).
Qed.

Lemma iter_reset_spec fuel ps s :
  (∀ p s, p ∈ ps -> ∃ s', reset G fuel p s = Ok s' ∧ cleared_on (reset_set G p) s s') ->
  ∃ s', iterM_st (reset G fuel) ps s = Ok s'
        ∧ cleared_on (fun k => ∃ p, p ∈ ps ∧ reset_set G p k) s s'.
Proof.
  revert s. induction ps as [|p ps IH]; intros s Hps; simpl.
  - exists s. split; [done |]. eapply cleared_on_iff; [| apply cleared_on_none].
    intros k; split; [done | intros (p & Hp & _); by apply elem_of_nil in Hp].
  - destruct (Hps p s) as (s1 & -> & H1); [left |]. simpl.
    destruct (IH s1) as (s2 & -> & H2).
    { intros q s' Hq. apply Hps. by right. }
    exists s2. split; [done |].
    eapply cleared_on_iff; [| exact (cleared_on_trans _ _ _ _ _ H1 H2)].
    intros k; split.
    + intros [Hp | (q & Hq & Hk)]; [exists p; split; [left | done] |].
      exists q; split; [by right | done].
    + intros (q & Hq & Hk). apply elem_of_cons in Hq as [-> | Hq]; [by left |].
      right. by exists q.
Qed.

(** On an acyclic graph [reset] returns, and clears the random variables it
    reaches and nothing else. *)
Lemma reset_spec fuel n s :
  wf_graph G -> is_Some (G !! n) -> n < fuel ->
  ∃ s', reset G fuel n s = Ok s' ∧ cleared_on (reset_set G n) s s'.
Proof.
  intros Hwf. revert n s.
  induction fuel as [|fuel IH]; intros n s [nd Hn] Hlt; [lia |].
  simpl. rewrite Hn. destruct nd as [d | r].
  - exists s. split; [done |]. eapply cleared_on_iff; [| apply cleared_on_none].
    intros k; split; [done |]. intros [Hr [r Hk]].
    apply (reach_det _ _ _ Hn) in Hr. congruence.
  - destruct (iter_reset_spec fuel (rv_parents r) (put n (clear (get s n)) s))
      as (s' & Hs' & Hc).
    { intros p s0 Hp. destruct (Hwf n r Hn p Hp) as [Hlt' Hin].
      apply IH; [done | lia]. }
    exists s'. split; [done |].
    eapply cleared_on_iff; [| exact (cleared_on_trans _ _ _ _ _ (cleared_on_put n s) Hc)].
    intros k. unfold reset_set. rewrite (reach_rand_inv n r k Hn). split.
    + intros [-> | (p & Hp & Hr & Hk)]; [split; [by left | by exists r] |].
      split; [right; by exists p | done].
    + intros [[-> | (p & Hp & Hr)] Hk]; [by left | right; by exists p].
Qed.

Lemma iterM_st_inv {A : Type} (f : A -> state -> outcome state)
    (R : state -> state -> Prop) (l : list A) (s s' : state) :
  (∀ s, R s s) -> (∀ s1 s2 s3, R s1 s2 -> R s2 s3 -> R s1 s3) ->
  (∀ a s s', a ∈ l -> f a s = Ok s' -> R s s') ->
  iterM_st f l s = Ok s' -> R s s'.
Proof.
  intros Hrefl Htrans. revert s. induction l as [|a l IH]; intros s Hf; simpl.
  - intros [= <-]. auto.
  - destruct (f a s) as [s1 | |] eqn:Hfa; simpl; try done.
    intros Hl. apply Htrans with s1; [apply (Hf a); [left | done] |].
    apply IH; [| done]. intros a' s0 s0' Ha'. apply Hf. by right.
Qed.

(** A reset calls no distribution. *)
Lemma reset_logs fuel n s s' :
  reset G fuel n s = Ok s' -> draws s' = draws s ∧ evals s' = evals s.
Proof.
  revert n s s'. induction fuel as [|fuel IH]; intros n s s'; [done |]. simpl.
  destruct (G !! n) as [[dn | rn] |]; [by intros [= <-] | | done].
  intros Hi.
  apply (iterM_st_inv _ (fun s s' => draws s' = draws s ∧ evals s' = evals s)) in Hi;
    [done | done | |].
  - intros s1 s2 s3 [? ?] [? ?]. split; congruence.
  - intros p s1 s2 _. apply IH.
Qed.

Lemma pm_reset_logs fuel roots s s' :
  pm_reset G fuel roots s = Ok s' -> draws s' = draws s ∧ evals s' = evals s.
Proof.
  unfold pm_reset. intros Hi.
  apply (iterM_st_inv _ (fun s s' => draws s' = draws s ∧ evals s' = evals s)) in Hi;
    [done | done | |].
  - intros s1 s2 s3 [? ?] [? ?]. split; congruence.
  - intros p s1 s2 _. apply reset_logs.
Qed.

(** [ProbabilisticModel.reset] on an acyclic graph. *)
Lemma pm_reset_spec fuel roots s :
  wf_graph G -> roots_in G roots fuel ->
  ∃ s', pm_reset G fuel roots s = Ok s'
        ∧ cleared_on (fun k => reach_from G roots k ∧ is_random G k) s s'.
Proof.
  intros Hwf Hroots. unfold pm_reset.
  destruct (iter_reset_spec fuel roots s) as (s' & Hs' & Hc).
  { intros p s0 Hp. destruct (Hroots p Hp). by apply reset_spec. }
  exists s'. split; [done |]. eapply cleared_on_iff; [| exact Hc].
  intros k. unfold reach_from, reset_set. split.
  - intros (p & Hp & Hr & Hk). split; [by exists p | done].
  - intros [(p & Hp & Hr) Hk]. by exists p.
Qed.

End Reset.

(** ** What a pass may touch *)

Section Touched.

Context `{Backend}.
Variable G : graph.

Lemma touched_on_refl A s : touched_on A s s.
Proof. intros k. split; [done | by left]. Qed.

Lemma touched_on_mono (A B : nat -> Prop) s s' :
  (∀ k, A k -> B k) -> touched_on A s s' -> touched_on B s s'.
Proof.
  intros HAB Ht k. destruct (Ht k) as [Hc [He | Ha]]; split; auto.
Qed.

Lemma touched_on_trans (A B : nat -> Prop) s s1 s2 :
  touched_on A s s1 -> touched_on B s1 s2 -> touched_on (fun k => A k ∨ B k) s s2.
Proof.
  intros H1 H2 k. destruct (H1 k) as [Hc1 Hs1], (H2 k) as [Hc2 Hs2].
  split; [congruence |].
  destruct Hs2 as [E2 | Hb]; [| by right; right].
  destruct Hs1 as [E1 | Ha]; [left; congruence | by right; left].
Qed.

Lemma touched_on_trans' (A : nat -> Prop) s s1 s2 :
  touched_on A s s1 -> touched_on A s1 s2 -> touched_on A s s2.
Proof.
  intros H1 H2. eapply touched_on_mono; [| exact (touched_on_trans _ _ _ _ _ H1 H2)].
  simpl. tauto.
Qed.

Lemma touched_on_put_samples n l s :
  touched_on (fun k => k = n) s (put n (set_samples l (get s n)) s).
Proof.
  intros k. rewrite get_put. destruct (decide (n = k)) as [->|]; split; auto.
Qed.

Lemma touched_on_put_evaluated n b s :
  touched_on (fun k => k = n) s (put n (set_evaluated b (get s n)) s).
Proof.
  intros k. rewrite get_put. destruct (decide (n = k)) as [->|]; split; auto.
Qed.

(** A pass that touched the variables a reset clears is forgotten by the
    reset. *)
Lemma touched_then_cleared (A : nat -> Prop) s s1 s2 :
  touched_on A s s1 -> cleared_on A s1 s2 ->
  ∀ k, (A k -> get s2 k = clear (get s k)) ∧ (get s2 k = get s k ∨ A k).
Proof.
  intros Ht (_ & _ & Hc) k. destruct (Ht k) as [Hcl Hs], (Hc k) as [Hc1 Hc2]. split.
  - intros Ha. rewrite (Hc1 Ha). done.
  - destruct Hc2 as [E | [Ha _]]; [| by right].
    destruct Hs as [E' | Ha]; [left; congruence | by right].
Qed.

(** Lists of calls that thread the heap. *)
Lemma mapM_st_spec {A B : Type} (f : A -> state -> outcome (B * state))
    (R : state -> state -> Prop) (Q : A -> B -> Prop) (l : list A) (s : state) :
  (∀ s, R s s) -> (∀ s1 s2 s3, R s1 s2 -> R s2 s3 -> R s1 s3) ->
  (∀ a s, a ∈ l -> ∃ b s', f a s = Ok (b, s') ∧ Q a b ∧ R s s') ->
  ∃ bs s', mapM_st f l s = Ok (bs, s') ∧ Forall2 Q l bs ∧ R s s'.
Proof.
  intros Hrefl Htrans. revert s. induction l as [|a l IH]; intros s Hf; simpl.
  - exists [], s. auto.
  - destruct (Hf a s) as (b & s1 & -> & Hq & Hr); [left |]. simpl.
    destruct (IH s1) as (bs & s2 & -> & Hqs & Hrs).
    { intros a' s' Ha'. apply Hf. by right. }
    simpl. exists (b :: bs), s2. eauto.
Qed.

Lemma mapM_st_inv {A B : Type} (f : A -> state -> outcome (B * state))
    (R : state -> state -> Prop) (Q : A -> B -> Prop) (l : list A) (s : state) bs s' :
  (∀ s, R s s) -> (∀ s1 s2 s3, R s1 s2 -> R s2 s3 -> R s1 s3) ->
  (∀ a s b s', a ∈ l -> f a s = Ok (b, s') -> Q a b ∧ R s s') ->
  mapM_st f l s = Ok (bs, s') -> Forall2 Q l bs ∧ R s s'.
Proof.
  intros Hrefl Htrans. revert s bs. induction l as [|a l IH]; intros s bs Hf; simpl.
  - intros [= <- <-]. auto.
  - destruct (f a s) as [[b s1] | |] eqn:Hfa; simpl; try done.
    destruct (mapM_st f l s1) as [[bs' s2] | |] eqn:Hl; simpl; try done.
    intros [= <- <-].
    destruct (Hf a s b s1) as [Hq Hr]; [left | done |].
    destruct (IH s1 bs') as [Hqs Hrs]; [| done |].
    { intros a' s0 b' s0' Ha'. apply Hf. by right. }
    split; [by constructor | eauto].
Qed.

Lemma Forall2_elem_of_r {A B : Type} (Q : A -> B -> Prop) l k y :
  Forall2 Q l k -> y ∈ k -> ∃ x, x ∈ l ∧ Q x y.
Proof.
  induction 1 as [|a b l k Hq _ IH]; intros Hy; [by apply elem_of_nil in Hy |].
  apply elem_of_cons in Hy as [-> | Hy].
  - exists a. split; [left | done].
  - destruct (IH Hy) as (x & Hx & Hxy). exists x. split; [by right | done].
Qed.

Lemma Forall2_elem_of_l {A B : Type} (Q : A -> B -> Prop) l k x :
  Forall2 Q l k -> x ∈ l -> ∃ y, y ∈ k ∧ Q x y.
Proof.
  induction 1 as [|a b l k Hq _ IH]; intros Hx; [by apply elem_of_nil in Hx |].
  apply elem_of_cons in Hx as [-> | Hx].
  - exists b. split; [left | done].
  - destruct (IH Hx) as (y & Hy & Hxy). exists y. split; [by right | done].
Qed.

Lemma join_dicts_list_acc {V : Type} (ds : list (gmap nat V)) (acc : gmap nat V) k :
  is_Some (foldl (fun acc d => d ∪ acc) acc ds !! k)
  ↔ is_Some (acc !! k) ∨ ∃ d, d ∈ ds ∧ is_Some (d !! k).
Proof.
  revert acc. induction ds as [|d ds IH]; intros acc; simpl.
  - split; [by left | intros [? | (d & Hd & _)]; [done | by apply elem_of_nil in Hd]].
  - rewrite IH. rewrite lookup_union_is_Some. split.
    + intros [[Hd | Ha] | (d' & Hd' & Hk)].
      * right. exists d. split; [left | done].
      * by left.
      * right. exists d'. split; [by right | done].
    + intros [Ha | (d' & Hd' & Hk)]; [left; by right |].
      apply elem_of_cons in Hd' as [-> | Hd']; [left; by left | right; by exists d'].
Qed.

Lemma join_dicts_list_is_Some {V : Type} (ds : list (gmap nat V)) k :
  is_Some (join_dicts_list ds !! k) ↔ ∃ d, d ∈ ds ∧ is_Some (d !! k).
Proof.
  unfold join_dicts_list. rewrite join_dicts_list_acc. rewrite lookup_empty.
  split; [intros [[? ?] | ?]; [done | done] | by right].
Qed.

Lemma input_dict_of_ok (d : gmap nat value) ps :
  (∀ p, p ∈ ps -> is_Some (d !! p)) -> ∃ i, input_dict_of d ps = Ok i.
Proof.
  induction ps as [|p ps IH]; intros Hps; simpl; [by eexists |].
  destruct (Hps p) as [v ->]; [left |].
  destruct IH as [i ->]; [intros q Hq; apply Hps; by right |].
  simpl. by eexists.
Qed.

End Touched.

(** ** The passes return on an acyclic graph, and touch what a reset clears *)

Section Passes.

Context `{Backend}.
Variable G : graph.

Lemma reset_set_parent n r p k :
  G !! n = Some (Rand r) -> p ∈ rv_parents r -> reset_set G p k -> reset_set G n k.
Proof. intros Hn Hp [Hr Hk]. split; [by econstructor | done]. Qed.

Lemma reset_set_self n r : G !! n = Some (Rand r) -> reset_set G n n.
Proof. intros Hn. split; [constructor | by exists r]. Qed.

(** The end of [RandomVariable.calculate_log_probability], once the parents
    have answered. *)
Lemma RandomVariable_calculate_log_probability_unfold dispatch self r vals re s :
  _evaluated (get s self) && negb re = false ->
  RandomVariable_calculate_log_probability G dispatch self r vals re s
  = '(lps, s1) ← mapM_st (fun parent => dispatch parent vals re) (rv_parents r)
                         (log_eval self (put self (set_evaluated true (get s self)) s));
    Ok (RandomVariable_calculate_log_probability_total G self r vals s lps s1, s1).
Proof.
  intros He. unfold RandomVariable_calculate_log_probability. rewrite He.
  destruct (mapM_st _ _ _) as [[lps s1] | |]; simpl; try done.
  unfold RandomVariable_calculate_log_probability_total.
  by destruct (if is_tensor _ && is_tensor _ then _ else _).
Qed.

Lemma calculate_log_probability_spec fuel n vals re s :
  wf_graph G -> is_Some (G !! n) -> n < fuel ->
  ∃ r s', calculate_log_probability G fuel n vals re s = Ok (r, s')
          ∧ draws s' = draws s ∧ touched_on (reset_set G n) s s'.
Proof.
  intros Hwf. revert n s.
  induction fuel as [|fuel IH]; intros n s [nd Hn] Hlt; [lia |].
  simpl. rewrite Hn. destruct nd as [d | r].
  { exists lzero, s. split; [done |]. split; [done | apply touched_on_refl]. }
  destruct (_evaluated (get s n) && negb re) eqn:He.
  { unfold RandomVariable_calculate_log_probability. rewrite He.
    exists lzero, s. split; [done |]. split; [done | apply touched_on_refl]. }
  rewrite RandomVariable_calculate_log_probability_unfold by done.
  set (s0 := log_eval n (put n (set_evaluated true (get s n)) s)).
  destruct (mapM_st_spec
              (fun parent => calculate_log_probability G fuel parent vals re)
              (fun s s' => draws s' = draws s ∧ touched_on (reset_set G n) s s')
              (fun _ _ => True) (rv_parents r) s0) as (lps & s1 & -> & _ & Hd & Ht).
  { intros s'. split; [done | apply touched_on_refl]. }
  { intros s1 s2 s3 [Hd1 Ht1] [Hd2 Ht2]. split; [congruence |].
    by eapply touched_on_trans'. }
  { intros p s' Hp. destruct (Hwf n r Hn p Hp) as [Hlt' Hin].
    destruct (IH p s' Hin ltac:(lia)) as (lp & s'' & Hr & Hd & Ht).
    exists lp, s''. split; [done |]. split; [done |]. split; [done |].
    eapply touched_on_mono; [| exact Ht]. intros k. by apply reset_set_parent with r. }
  simpl. eexists _, s1. split; [done |]. split; [done |].
  eapply touched_on_trans'; [| exact Ht].
  eapply touched_on_mono; [| apply (touched_on_put_evaluated n true s)].
  intros k ->. by apply reset_set_self with r.
Qed.

Lemma Forall2_keys (ps : list nat) (ds : list (gmap nat value)) p :
  Forall2 (fun p d => is_Some (d !! p)) ps ds -> p ∈ ps ->
  is_Some (join_dicts_list ds !! p).
Proof.
  intros Hf Hp. apply join_dicts_list_is_Some.
  induction Hf as [|q d ps ds Hq _ IH]; [by apply elem_of_nil in Hp |].
  apply elem_of_cons in Hp as [-> | Hp].
  - exists d. split; [left | done].
  - destruct (IH Hp) as (d' & Hd' & Hk). exists d'. split; [by right | done].
Qed.

Lemma DeterministicVariable_get_sample_key n d number_samples input_values :
  is_Some (DeterministicVariable_get_sample n d number_samples input_values !! n).
Proof.
  unfold DeterministicVariable_get_sample.
  destruct (is_chainer_Variable _); rewrite lookup_singleton_eq; by eexists.
Qed.

Lemma mapM_st_spec_I {A B : Type} (f : A -> state -> outcome (B * state))
    (I : state -> Prop) (R : state -> state -> Prop) (Q : A -> B -> Prop)
    (l : list A) (s : state) :
  (∀ s, R s s) -> (∀ s1 s2 s3, R s1 s2 -> R s2 s3 -> R s1 s3) ->
  (∀ a s, a ∈ l -> I s -> ∃ b s', f a s = Ok (b, s') ∧ Q a b ∧ R s s' ∧ I s') ->
  I s ->
  ∃ bs s', mapM_st f l s = Ok (bs, s') ∧ Forall2 Q l bs ∧ R s s' ∧ I s'.
Proof.
  intros Hrefl Htrans. revert s. induction l as [|a l IH]; intros s Hf Hi; simpl.
  - exists [], s. auto.
  - destruct (Hf a s) as (b & s1 & -> & Hq & Hr & Hi1); [left | done |]. simpl.
    destruct (IH s1) as (bs & s2 & -> & Hqs & Hrs & Hi2); [| done |].
    { intros a' s' Ha'. apply Hf. by right. }
    simpl. exists (b :: bs), s2. eauto 6.
Qed.

Lemma touched_on_no_dataset (A : nat -> Prop) s s' :
  touched_on A s s' -> no_dataset s -> no_dataset s'.
Proof.
  intros Ht Hn k. destruct (Ht k) as [Hc _].
  apply (f_equal has_random_dataset) in Hc. simpl in Hc. by rewrite Hc.
Qed.

(** Sampling follows [parents] only, and returns on an acyclic graph, when
    it is not in observed mode or no variable has a random dataset. *)
Lemma get_sample_spec fuel n number_samples resample observed input_values s :
  wf_graph G -> is_Some (G !! n) -> n < fuel ->
  (observed = true -> no_dataset s) ->
  ∃ d s', _get_sample G fuel n number_samples resample observed input_values s
          = Ok (d, s')
          ∧ is_Some (d !! n) ∧ evals s' = evals s ∧ touched_on (reset_set G n) s s'.
Proof.
  intros Hwf. revert n s.
  induction fuel as [|fuel IH]; intros n s [nd Hn] Hlt Hmode; [lia |].
  simpl. rewrite Hn. destruct nd as [d | r].
  { eexists _, s. split; [done |]. split; [apply DeterministicVariable_get_sample_key |].
    split; [done | apply touched_on_refl]. }
  unfold RandomVariable_get_sample.
  destruct (if resample then None else last (samples (get s n))) as [cached |].
  { eexists _, s. split; [done |]. rewrite lookup_singleton_eq.
    split; [by eexists |]. split; [done | apply touched_on_refl]. }
  assert (∀ v : value, ∃ (d : gmap nat value) s',
             Ok ({[ n := v ]}, s) = Ok (d, s')
             ∧ is_Some (d !! n) ∧ evals s' = evals s
             ∧ touched_on (reset_set G n) s s') as Hret.
  { intros v. eexists _, s. split; [done |]. rewrite lookup_singleton_eq.
    split; [by eexists |]. split; [done | apply touched_on_refl]. }
  assert (choose_target n (get s n) observed input_values = Ok (Var_to_sample n)
          ∨ ∃ v, choose_target n (get s n) observed input_values = Ok (Return_value v))
    as [-> | [v ->]].
  { unfold choose_target. destruct observed; simpl.
    - destruct (has_observed_value (get s n)); [right; by eexists |].
      rewrite (Hmode eq_refl n). by left.
    - destruct (input_values !! n); [right; by eexists | by left]. }
  2: { simpl. apply Hret. }
  simpl. rewrite Hn.
  destruct (mapM_st_spec_I
              (fun parent => _get_sample G fuel parent number_samples resample observed
                                         input_values)
              (fun s => observed = true -> no_dataset s)
              (fun s s' => evals s' = evals s ∧ touched_on (reset_set G n) s s')
              (fun p d => is_Some (d !! p)) (rv_parents r) s)
    as (ds & s1 & -> & Hq & [He Ht] & _); [| | | done |].
  { intros s'. split; [done | apply touched_on_refl]. }
  { intros s1 s2 s3 [Hd1 Ht1] [Hd2 Ht2]. split; [congruence |].
    by eapply touched_on_trans'. }
  { intros p s' Hp Hmode'. destruct (Hwf n r Hn p Hp) as [Hlt' Hin].
    destruct (IH p s' Hin ltac:(lia) Hmode') as (d & s'' & Hr & Hk & He & Ht).
    exists d, s''. split; [done |]. split; [done |]. split; [split; [done |] |].
    - eapply touched_on_mono; [| exact Ht]. intros k. by apply reset_set_parent with r.
    - intros Ho. by apply (touched_on_no_dataset _ s' s'' Ht), Hmode'. }
  simpl.
  destruct (input_dict_of_ok (join_dicts_list ds) (rv_parents r)) as [i ->].
  { intros p Hp. by apply Forall2_keys with (rv_parents r). }
  simpl. eexists _, _. split; [done |]. rewrite lookup_insert_eq.
  split; [by eexists |]. split; [done |].
  eapply touched_on_trans'; [exact Ht |].
  eapply touched_on_mono;
    [| apply (touched_on_put_samples n _ (log_draw n n s1))].
  intros k ->. by apply reset_set_self with r.
Qed.

(** Sampling that is not in observed mode follows [parents] only. *)
Lemma get_sample_unobserved_spec fuel n number_samples resample input_values s :
  wf_graph G -> is_Some (G !! n) -> n < fuel ->
  ∃ d s', _get_sample G fuel n number_samples resample false input_values s = Ok (d, s')
          ∧ is_Some (d !! n) ∧ evals s' = evals s ∧ touched_on (reset_set G n) s s'.
Proof. intros Hwf Hin Hlt. by apply get_sample_spec. Qed.

End Passes.

(** ** Reset on exit *)

Section ResetOnExit.

Context `{Backend}.
Variable G : graph.

Lemma wf_graphb_sound : wf_graphb G = true -> wf_graph G.
Proof.
  unfold wf_graphb. intros Hb n r Hn p Hp.
  rewrite forallb_forall in Hb.
  apply (elem_of_map_to_list (G : gmap nat vnode)), list_elem_of_In, Hb in Hn.
  simpl in Hn. rewrite forallb_forall in Hn.
  apply list_elem_of_In, Hn in Hp. apply andb_true_iff in Hp as [Hlt Hin].
  split; [by apply Nat.ltb_lt | by apply bool_decide_eq_true in Hin].
Qed.

Lemma roots_inb_sound roots bound : roots_inb G roots bound = true -> roots_in G roots bound.
Proof.
  unfold roots_inb. intros Hb%bool_decide_eq_true v Hv.
  rewrite Forall_forall in Hb. by apply Hb.
Qed.

Lemma model_set_root roots v k : v ∈ roots -> reset_set G v k -> model_set G roots k.
Proof. intros Hv [Hr Hk]. split; [by exists v | done]. Qed.

(** The calls of [ProbabilisticModel.calculate_log_probability] on the roots. *)
Lemma roots_calculate_log_probability_spec fuel roots vals s :
  wf_graph G -> roots_in G roots fuel ->
  ∃ lps s1, mapM_st (fun var => calculate_log_probability G fuel var vals false) roots s
            = Ok (lps, s1)
            ∧ draws s1 = draws s ∧ touched_on (model_set G roots) s s1.
Proof.
  intros Hwf Hroots.
  destruct (mapM_st_spec
              (fun var => calculate_log_probability G fuel var vals false)
              (fun s s' => draws s' = draws s ∧ touched_on (model_set G roots) s s')
              (fun _ _ => True) roots s) as (lps & s1 & Hm & _ & Hd & Ht).
  { intros s'. split; [done | apply touched_on_refl]. }
  { intros s1 s2 s3 [Hd1 Ht1] [Hd2 Ht2]. split; [congruence |].
    by eapply touched_on_trans'. }
  { intros v s' Hv. destruct (Hroots v Hv) as [Hlt Hin].
    destruct (calculate_log_probability_spec G fuel v vals false s' Hwf Hin Hlt)
      as (lp & s'' & Hr & Hd & Ht).
    exists lp, s''. split; [done |]. split; [done |]. split; [done |].
    eapply touched_on_mono; [| exact Ht]. intros k. by apply model_set_root. }
  by exists lps, s1.
Qed.

(** The calls of [ProbabilisticModel._get_sample] on the roots, when not in
    observed mode. *)
Lemma roots_get_sample_spec fuel roots number_samples input_values s :
  wf_graph G -> roots_in G roots fuel ->
  ∃ ds s1, mapM_st (fun var => _get_sample G fuel var number_samples false false
                                           input_values) roots s
           = Ok (ds, s1)
           ∧ evals s1 = evals s ∧ touched_on (model_set G roots) s s1.
Proof.
  intros Hwf Hroots.
  destruct (mapM_st_spec
              (fun var => _get_sample G fuel var number_samples false false input_values)
              (fun s s' => evals s' = evals s ∧ touched_on (model_set G roots) s s')
              (fun _ _ => True) roots s) as (ds & s1 & Hm & _ & Hd & Ht).
  { intros s'. split; [done | apply touched_on_refl]. }
  { intros s1 s2 s3 [Hd1 Ht1] [Hd2 Ht2]. split; [congruence |].
    by eapply touched_on_trans'. }
  { intros v s' Hv. destruct (Hroots v Hv) as [Hlt Hin].
    destruct (get_sample_unobserved_spec G fuel v number_samples false input_values
                                         s' Hwf Hin Hlt)
      as (d & s'' & Hr & _ & Hd & Ht).
    exists d, s''. split; [done |]. split; [done |]. split; [done |].
    eapply touched_on_mono; [| exact Ht]. intros k. by apply model_set_root. }
  by exists ds, s1.
Qed.

(** After a pass that touched what the reset clears, the heap is the one a
    reset of the heap before the pass gives. *)
Lemma pass_then_reset fuel roots s s1 :
  wf_graph G -> roots_in G roots fuel ->
  touched_on (model_set G roots) s s1 ->
  ∃ s', pm_reset G fuel roots s1 = Ok s'
        ∧ draws s' = draws s1 ∧ evals s' = evals s1
        ∧ (∀ k, model_set G roots k -> clean (get s' k))
        ∧ (∀ k, get s' k = get s k ∨ model_set G roots k)
        ∧ (∀ s_r, pm_reset G fuel roots s = Ok s_r -> ∀ k, get s' k = get s_r k).
Proof.
  intros Hwf Hroots Ht.
  destruct (pm_reset_spec G fuel roots s1 Hwf Hroots) as (s' & Hs' & Hc).
  exists s'. split; [done |]. destruct Hc as (Hd & He & Hc).
  split; [done |]. split; [done |]. split; [| split].
  - intros k Hk. destruct (Hc k) as [Hck _]. rewrite (Hck Hk). apply clear_clean.
  - intros k.
    by destruct (touched_then_cleared _ s s1 s' Ht (conj Hd (conj He Hc)) k).
  - intros s_r Hr k.
    destruct (pm_reset_spec G fuel roots s Hwf Hroots) as (s_r' & Hs_r & _ & _ & Hcr).
    assert (s_r' = s_r) as -> by congruence.
    destruct (touched_then_cleared _ s s1 s' Ht (conj Hd (conj He Hc)) k) as [Ha Hb].
    destruct (Hcr k) as [Hra Hrb].
    destruct Hb as [E | Hk]; [| by rewrite Ha, Hra].
    destruct Hrb as [E' | [Hk _]]; [congruence | by rewrite Ha, Hra].
Qed.

(** [ProbabilisticModel.calculate_log_probability] returns, having reset. *)
Lemma pm_calculate_log_probability_spec fuel roots vals s :
  wf_graph G -> roots_in G roots fuel ->
  ∃ lp s', pm_calculate_log_probability G fuel roots vals s = Ok (lp, s')
           ∧ draws s' = draws s
           ∧ (∀ k, model_set G roots k -> clean (get s' k))
           ∧ (∀ k, get s' k = get s k ∨ model_set G roots k)
           ∧ (∀ s_r, pm_reset G fuel roots s = Ok s_r -> ∀ k, get s' k = get s_r k).
Proof.
  intros Hwf Hroots. unfold pm_calculate_log_probability.
  destruct (roots_calculate_log_probability_spec fuel roots vals s Hwf Hroots)
    as (lps & s1 & -> & Hd & Ht). simpl.
  destruct (pass_then_reset fuel roots s s1 Hwf Hroots Ht)
    as (s' & -> & Hd' & _ & Hclean & Hout & Hreset). simpl.
  eexists _, s'. split; [done |]. split; [congruence |]. auto.
Qed.

(** [ProbabilisticModel._get_sample], when not in observed mode, returns,
    having reset. *)
Lemma pm__get_sample_unobserved_spec fuel roots number_samples input_values s :
  wf_graph G -> roots_in G roots fuel ->
  ∃ d s', pm__get_sample G fuel roots number_samples false input_values s = Ok (d, s')
          ∧ evals s' = evals s
          ∧ (∀ k, model_set G roots k -> clean (get s' k))
          ∧ (∀ k, get s' k = get s k ∨ model_set G roots k)
          ∧ (∀ s_r, pm_reset G fuel roots s = Ok s_r -> ∀ k, get s' k = get s_r k).
Proof.
  intros Hwf Hroots. unfold pm__get_sample.
  destruct (roots_get_sample_spec fuel roots number_samples input_values s Hwf Hroots)
    as (ds & s1 & -> & He & Ht). simpl.
  destruct (pass_then_reset fuel roots s s1 Hwf Hroots Ht)
    as (s' & -> & _ & He' & Hclean & Hout & Hreset). simpl.
  eexists _, s'. split; [done |]. split; [congruence |]. auto.
Qed.

(** [ProbabilisticModel._get_sample] in any mode: when it returns, it has
    reset. *)
Lemma pm__get_sample_clean fuel roots number_samples observed input_values s d s' :
  wf_graph G -> roots_in G roots fuel ->
  pm__get_sample G fuel roots number_samples observed input_values s = Ok (d, s') ->
  ∀ k, model_set G roots k -> clean (get s' k).
Proof.
  intros Hwf Hroots. unfold pm__get_sample.
  destruct (mapM_st _ roots s) as [[ds s1] | |]; simpl; try done.
  destruct (pm_reset_spec G fuel roots s1 Hwf Hroots) as (s2 & -> & _ & _ & Hc). simpl.
  intros [= <- <-] k Hk. destruct (Hc k) as [Hck _]. rewrite (Hck Hk).
  apply clear_clean.
Qed.

(** [Variable.get_sample]: when it returns, it has reset. *)
Lemma get_sample_clean fuel n number_samples input_values s d s' :
  wf_graph G -> is_Some (G !! n) -> n < fuel ->
  get_sample G fuel n number_samples input_values s = Ok (d, s') ->
  ∀ k, reset_set G n k -> clean (get s' k).
Proof.
  intros Hwf Hin Hlt. unfold get_sample.
  destruct (is_observed G n s) as [obs | |]; simpl; try done.
  destruct (_get_sample _ _ _ _ _ _ _ _) as [[d1 s1] | |]; simpl; try done.
  destruct (d1 !! n); [| done].
  destruct (reset_spec G fuel n s1 Hwf Hin Hlt) as (s2 & -> & _ & _ & Hc). simpl.
  intros [= <- <-] k Hk. destruct (Hc k) as [Hck _]. rewrite (Hck Hk).
  apply clear_clean.
Qed.

(** [ProbabilisticModel._get_posterior_sample] returns, having reset the
    posterior model and the joint model. *)
Lemma pm__get_posterior_sample_spec fuel m pm number_samples input_values s :
  wf_graph G -> roots_in G (variables m) fuel -> roots_in G (post_variables pm) fuel ->
  posterior_model m = Some pm ->
  ∃ d s', pm__get_posterior_sample G fuel m number_samples input_values s = Ok (d, s')
          ∧ (∀ k, model_set G (variables m) k -> clean (get s' k))
          ∧ (∀ k, model_set G (post_variables pm) k -> clean (get s' k)).
Proof.
  intros Hwf Hroots Hpost Hpm.
  unfold pm__get_posterior_sample, check_posterior_model. rewrite Hpm. simpl.
  unfold post__get_posterior_sample.
  destruct (pm__get_sample_unobserved_spec fuel (post_variables pm) number_samples
                                           input_values s Hwf Hpost)
    as (d1 & s1 & -> & _ & Hclean1 & _ & _). simpl.
  destruct (pm__get_sample_unobserved_spec
              fuel (variables m) number_samples
              (input_values ∪ posterior_sample2joint_sample (model_mapping pm) d1)
              s1 Hwf Hroots)
    as (d2 & s2 & -> & _ & Hclean2 & Hout2 & _).
  exists d2, s2. split; [done |]. split; [done |].
  intros k Hk. destruct (Hout2 k) as [-> | Hk']; auto.
Qed.

End ResetOnExit.

Section ResetOnExitClaim.

Context `{Backend}.

(** The reset on exit, as far as it goes: on an acyclic graph,
    [ProbabilisticModel.calculate_log_probability],
    [ProbabilisticModel.get_sample] and [get_posterior_sample] return, and
    after them every random variable reachable through [parents] from the
    declared roots has [samples == []], [_evaluated == False] and
    [_current_value == None]; the heap is the very one a plain [reset] of the
    model would have given.  The variables reachable through [parents] are
    cleared likewise whenever [ProbabilisticModel._get_sample] (in any mode)
    or [Variable.get_sample] returns; the variables that a pass in observed
    mode reaches through a dataset are not among them. *)
Lemma reset_on_exit (G : graph) (fuel : nat) (m : ProbabilisticModel) (s : state) :
  wf_graph G -> roots_in G (variables m) fuel ->
  (∀ rv_values, ∃ lp s',
      pm_calculate_log_probability G fuel (variables m) rv_values s = Ok (lp, s')
      ∧ (∀ k, reach_from G (variables m) k -> is_random G k -> clean (get s' k))
      ∧ (∀ s_r, pm_reset G fuel (variables m) s = Ok s_r -> ∀ k, get s' k = get s_r k))
  ∧ (∀ number_samples input_values, ∃ d s',
      pm_get_sample G fuel (variables m) number_samples input_values s = Ok (d, s')
      ∧ (∀ k, reach_from G (variables m) k -> is_random G k -> clean (get s' k))
      ∧ (∀ s_r, pm_reset G fuel (variables m) s = Ok s_r -> ∀ k, get s' k = get s_r k))
  ∧ (∀ pm number_samples input_values,
      posterior_model m = Some pm -> roots_in G (post_variables pm) fuel ->
      ∃ d s',
        pm__get_posterior_sample G fuel m number_samples input_values s = Ok (d, s')
        ∧ (∀ k, reach_from G (variables m) k -> is_random G k -> clean (get s' k))
        ∧ (∀ k, reach_from G (post_variables pm) k -> is_random G k -> clean (get s' k)))
  ∧ (∀ number_samples observed input_values d s',
      pm__get_sample G fuel (variables m) number_samples observed input_values s
      = Ok (d, s') ->
      ∀ k, reach_from G (variables m) k -> is_random G k -> clean (get s' k))
  ∧ (∀ n number_samples input_values d s',
      is_Some (G !! n) -> n < fuel ->
      get_sample G fuel n number_samples input_values s = Ok (d, s') ->
      ∀ k, reach G n k -> is_random G k -> clean (get s' k)).
Proof.
  intros Hwf Hroots. split; [| split; [| split; [| split]]].
  - intros vals.
    destruct (pm_calculate_log_probability_spec G fuel (variables m) vals s Hwf Hroots)
      as (lp & s' & Hr & _ & Hclean & _ & Hreset).
    exists lp, s'. split; [done |]. split; [| done].
    intros k Hk Hrk. by apply Hclean.
  - intros number_samples input_values.
    destruct (pm__get_sample_unobserved_spec G fuel (variables m) number_samples
                                             input_values s Hwf Hroots)
      as (d & s' & Hr & _ & Hclean & _ & Hreset).
    exists d, s'. split; [done |]. split; [| done].
    intros k Hk Hrk. by apply Hclean.
  - intros pm number_samples input_values Hpm Hpost.
    destruct (pm__get_posterior_sample_spec G fuel m pm number_samples input_values s
                                            Hwf Hroots Hpost Hpm)
      as (d & s' & Hr & Hc1 & Hc2).
    exists d, s'. split; [done |].
    split; intros k Hk Hrk; [by apply Hc1 | by apply Hc2].
  - intros number_samples observed input_values d s' Hr k Hk Hrk.
    by apply (pm__get_sample_clean G fuel (variables m) number_samples observed
                                   input_values s d s' Hwf Hroots Hr).
  - intros n number_samples input_values d s' Hin Hlt Hr k Hk Hrk.
    by apply (get_sample_clean G fuel n number_samples input_values s d s' Hwf Hin Hlt Hr).
Qed.

End ResetOnExitClaim.

(** ** Sampling: the cache and the observed value *)

Section Sampling.

Context `{Backend}.
Variable G : graph.

(** C4: when the [samples] stack of a random variable is not empty,
    [_get_sample] with [resample=False] returns the most recent cached draw and
    nothing else, on the heap as it was: no parent is asked (the call to the
    parents, [dispatch], is never used, and one unit of fuel is enough) and no
    distribution draws.  This holds in any mode, with any bound input values and
    any observation state: the test of the cache comes first. *)
Theorem cached_draw_is_reused (fuel n number_samples : nat) (r : rv_info)
    (observed : bool) (input_values : gmap nat value) (s : state) :
  G !! n = Some (Rand r) -> samples (get s n) ≠ [] ->
  ∃ cached, last (samples (get s n)) = Some cached
    ∧ (∀ dispatch,
         RandomVariable_get_sample G dispatch n number_samples false observed
                                   input_values s
         = Ok ({[ n := cached ]}, s))
    ∧ _get_sample G (S fuel) n number_samples false observed input_values s
      = Ok ({[ n := cached ]}, s).
Proof.
  intros Hn Hs.
  destruct (last (samples (get s n))) as [cached |] eqn:Hl.
  - exists cached. split; [done |].
    assert (∀ dispatch,
              RandomVariable_get_sample G dispatch n number_samples false observed
                                        input_values s
              = Ok ({[ n := cached ]}, s)) as Hd.
    { intros dispatch. unfold RandomVariable_get_sample. by rewrite Hl. }
    split; [done |]. simpl. rewrite Hn. apply Hd.
  - by apply last_None in Hl.
Qed.

Lemma mapM_st_inv_I {A B : Type} (f : A -> state -> outcome (B * state))
    (I : state -> Prop) (Q : A -> B -> Prop) (l : list A) (s : state) bs s' :
  (∀ a s b s', a ∈ l -> I s -> f a s = Ok (b, s') -> Q a b ∧ I s') ->
  I s -> mapM_st f l s = Ok (bs, s') -> Forall2 Q l bs ∧ I s'.
Proof.
  revert s bs. induction l as [|a l IH]; intros s bs Hf Hi; simpl.
  - intros [= <- <-]. auto.
  - destruct (f a s) as [[b s1] | |] eqn:Hfa; simpl; try done.
    destruct (mapM_st f l s1) as [[bs' s2] | |] eqn:Hl; simpl; try done.
    intros [= <- <-].
    destruct (Hf a s b s1) as [Hq Hi1]; [left | done | done |].
    destruct (IH s1 bs') as [Hqs His]; [| done | done |].
    { intros a' s0 b' s0' Ha'. apply Hf. by right. }
    split; [by constructor | done].
Qed.

Lemma join_dicts_list_acc_lookup {V : Type} (ds : list (gmap nat V)) (acc : gmap nat V)
    k x :
  foldl (fun acc d => d ∪ acc) acc ds !! k = Some x ->
  acc !! k = Some x ∨ ∃ d, d ∈ ds ∧ d !! k = Some x.
Proof.
  revert acc. induction ds as [|d ds IH]; intros acc; simpl; [by left |].
  intros Hf. destruct (IH _ Hf) as [Hu | (d' & Hd' & Hk)].
  - apply lookup_union_Some_raw in Hu as [Hd | [_ Ha]]; [| by left].
    right. exists d. split; [left | done].
  - right. exists d'. split; [by right | done].
Qed.

Lemma join_dicts_list_lookup {V : Type} (ds : list (gmap nat V)) k x :
  join_dicts_list ds !! k = Some x -> ∃ d, d ∈ ds ∧ d !! k = Some x.
Proof.
  intros Hj. apply join_dicts_list_acc_lookup in Hj as [He | Hd]; [| done].
  by rewrite lookup_empty in He.
Qed.

Lemma Forall2_all_values {A : Type} (P : gmap nat value -> Prop) (l : list A)
    (ds : list (gmap nat value)) d :
  Forall2 (fun _ d => P d) l ds -> d ∈ ds -> P d.
Proof.
  induction 1 as [|a d' l ds Hd _ IH]; intros Hin; [by apply elem_of_nil in Hin |].
  apply elem_of_cons in Hin as [-> | Hin]; auto.
Qed.

(** What a call of [_get_sample] that returns has done: it has returned one
    binding on the heap as it was (a deterministic variable, the cached draw,
    the input value, or the observed value), or it has sampled the parents of
    the variable to sample, which is the variable itself or, in observed mode,
    its dataset, and drawn. *)
Lemma _get_sample_inv fuel m number_samples resample observed input_values s d s' :
  _get_sample G (S fuel) m number_samples resample observed input_values s = Ok (d, s') ->
  (s' = s
   ∧ ∃ v, d = {[ m := v ]}
          ∧ ((∃ dm, G !! m = Some (Det dm))
             ∨ (resample = false ∧ last (samples (get s m)) = Some v)
             ∨ (observed = false ∧ input_values !! m = Some v)
             ∨ (observed = true ∧ has_observed_value (get s m) = true
                ∧ v = _observed_value (get s m))))
  ∨ (∃ rm x rx ds s1 input_dict,
       G !! m = Some (Rand rm) ∧ G !! x = Some (Rand rx)
       ∧ (observed = true -> has_observed_value (get s m) = false)
       ∧ (x = m ∨ (observed = true ∧ sampled_through s m x))
       ∧ mapM_st (fun parent => _get_sample G fuel parent number_samples resample
                                            observed input_values)
                 (rv_parents rx) s = Ok (ds, s1)
       ∧ input_dict_of (join_dicts_list ds) (rv_parents rx) = Ok input_dict
       ∧ d = <[ m := dist_get_sample (rv_distribution rx)
                        (apply_link (rv_link rx) input_dict) number_samples
                        (length (draws s1)) ]> (join_dicts_list ds)
       ∧ s' = put m (set_samples
                       (samples (get (log_draw m x s1) m)
                        ++ [dist_get_sample (rv_distribution rx)
                              (apply_link (rv_link rx) input_dict) number_samples
                              (length (draws s1))])
                       (get (log_draw m x s1) m)) (log_draw m x s1)).
Proof.
  simpl. destruct (G !! m) as [[dm | rm] |] eqn:Hm; [| | done].
  { intros [= <- <-]. left. split; [done |]. unfold DeterministicVariable_get_sample.
    destruct (is_chainer_Variable _); eexists; (split; [done |]); left; by eexists. }
  unfold RandomVariable_get_sample.
  destruct (if resample then None else last (samples (get s m))) as [cached |] eqn:Hc.
  { intros [= <- <-]. left. split; [done |]. exists cached. split; [done |].
    right. left. by destruct resample. }
  assert (∀ x, (x = m ∨ (observed = true ∧ sampled_through s m x)) ->
               (observed = true -> has_observed_value (get s m) = false) ->
               (match G !! x with
                | Some (Det _) => Raise (AttributeError "distribution")
                | Some (Rand r0) =>
                    '(ds, s1) ← mapM_st (fun parent =>
                                           _get_sample G fuel parent number_samples
                                                       resample observed input_values)
                                        (rv_parents r0) s;
                    input_dict ← input_dict_of (join_dicts_list ds) (rv_parents r0);
                    Ok (<[ m := dist_get_sample (rv_distribution r0)
                                  (apply_link (rv_link r0) input_dict) number_samples
                                  (length (draws s1)) ]> (join_dicts_list ds),
                        put m (set_samples
                                 (samples (get (log_draw m x s1) m)
                                  ++ [dist_get_sample (rv_distribution r0)
                                        (apply_link (rv_link r0) input_dict)
                                        number_samples (length (draws s1))])
                                 (get (log_draw m x s1) m)) (log_draw m x s1))
                | None => Raise (Dangling x)
                end) = Ok (d, s') ->
               ∃ rm0 x rx ds s1 input_dict,
                 Some (Rand rm) = Some (Rand rm0) ∧ G !! x = Some (Rand rx)
                 ∧ (observed = true -> has_observed_value (get s m) = false)
                 ∧ (x = m ∨ (observed = true ∧ sampled_through s m x))
                 ∧ mapM_st (fun parent => _get_sample G fuel parent number_samples
                                                      resample observed input_values)
                           (rv_parents rx) s = Ok (ds, s1)
                 ∧ input_dict_of (join_dicts_list ds) (rv_parents rx) = Ok input_dict
                 ∧ d = <[ m := dist_get_sample (rv_distribution rx)
                                  (apply_link (rv_link rx) input_dict) number_samples
                                  (length (draws s1)) ]> (join_dicts_list ds)
                 ∧ s' = put m (set_samples
                                 (samples (get (log_draw m x s1) m)
                                  ++ [dist_get_sample (rv_distribution rx)
                                        (apply_link (rv_link rx) input_dict)
                                        number_samples (length (draws s1))])
                                 (get (log_draw m x s1) m)) (log_draw m x s1)) as Hgo.
  { intros x Hx Hov. destruct (G !! x) as [[dx | rx] |] eqn:Hgx; [done | | done].
    destruct (mapM_st _ (rv_parents rx) s) as [[ds s1] | |] eqn:Hmap; simpl; try done.
    destruct (input_dict_of _ _) as [i | |] eqn:Hi; simpl; try done.
    intros [= <- <-]. exists rm, x, rx, ds, s1, i. repeat (split; [done |]). done. }
  unfold choose_target. destruct observed; simpl.
  - destruct (has_observed_value (get s m)) eqn:Hov; simpl.
    { intros [= <- <-]. left. split; [done |]. eexists. split; [done |].
      right. right. right. done. }
    destruct (has_random_dataset (get s m)) eqn:Hrd.
    + destruct (dataset (get s m)) as [x |] eqn:Hds; simpl; [| done].
      intros Hr. right. apply (Hgo x); [| done | done]. right. by split.
    + intros Hr. right. apply (Hgo m); [by left | done | done].
  - destruct (input_values !! m) as [v |] eqn:Hiv; simpl.
    { intros [= <- <-]. left. split; [done |]. exists v. split; [done |].
      right. right. left. done. }
    intros Hr. right. apply (Hgo m); [by left | done | done].
Qed.

Lemma keeps_observed_draw n v s0 s m x st :
  m ≠ n -> (x = n -> sampled_through s0 m n) ->
  has_observed_value st = has_observed_value (get s m) ->
  has_random_dataset st = has_random_dataset (get s m) ->
  dataset st = dataset (get s m) ->
  keeps_observed n v s0 s -> keeps_observed n v s0 (put m st (log_draw m x s)).
Proof.
  intros Hne Hx Hov Hrd Hds (Ho & Hs & Hv & Hsame & Hd). unfold keeps_observed.
  rewrite get_put_ne, get_log_draw by done.
  split; [done |]. split; [done |]. split; [done |]. split.
  - intros k. destruct (decide (k = m)) as [-> | Hk].
    + rewrite get_put_eq, Hov, Hrd, Hds. apply Hsame.
    + rewrite get_put_ne, get_log_draw by done. apply Hsame.
  - intros e. simpl. rewrite elem_of_app, list_elem_of_singleton.
    intros [He | ->]; [auto |]. right. simpl. by split.
Qed.

Lemma sampled_through_same s0 s m x :
  same_observations s0 s -> sampled_through s m x -> sampled_through s0 m x.
Proof.
  intros Hsame (Ho & Hr & Hd). destruct (Hsame m) as (Ho' & Hr' & Hd').
  unfold sampled_through. by rewrite <- Ho', <- Hr', <- Hd'.
Qed.

(** In observed mode a variable that holds an observed value is never bound
    to anything else, and obtains no draw; its distribution is asked only for
    a variable that is sampled through it. *)
Lemma observed_mode_keeps n r v s0 fuel :
  G !! n = Some (Rand r) ->
  ∀ m number_samples resample input_values s d s',
    keeps_observed n v s0 s ->
    _get_sample G fuel m number_samples resample true input_values s = Ok (d, s') ->
    keeps_observed n v s0 s'
    ∧ (∀ x, d !! n = Some x -> x = v) ∧ (m = n -> d !! n = Some v).
Proof.
  intros Hn. induction fuel as [|fuel IH];
    intros m number_samples resample input_values s d s' Hk; [done |].
  intros Hr. apply _get_sample_inv in Hr
    as [( -> & x & -> & Hcase)
       | (rm & x & rx & ds & s1 & i & Hm & Hx & Hov & Hwhich & Hmap & Hi & -> & ->)].
  - split; [done |]. destruct (decide (m = n)) as [-> | Hne].
    + rewrite lookup_singleton_eq.
      assert (x = v) as ->; [| split; congruence].
      destruct Hk as (Ho & Hs & Hv & _).
      destruct Hcase as [[dm Hd] | [[_ Hl] | [[? _] | (_ & _ & ->)]]];
        [congruence | by rewrite Hs in Hl | done | done].
    + rewrite lookup_singleton_ne by done. by split.
  - assert (m ≠ n) as Hne.
    { intros ->. destruct Hk as (Ho & _). specialize (Hov eq_refl). congruence. }
    destruct (mapM_st_inv_I
                (fun parent => _get_sample G fuel parent number_samples resample true
                                           input_values)
                (keeps_observed n v s0)
                (fun _ d => ∀ y, d !! n = Some y -> y = v)
                (rv_parents rx) s ds s1) as [Hq Hk1]; [| done | done |].
    { intros p sp dp sp' _ Hkp Hp.
      destruct (IH p number_samples resample input_values sp dp sp' Hkp Hp)
        as (Hk' & Hv' & _). by split. }
    split; [| split; [| done]].
    + apply keeps_observed_draw; try done.
      intros ->. destruct Hwhich as [-> | [_ Hthrough]]; [done |].
      destruct Hk as (_ & _ & _ & Hsame & _). by apply sampled_through_same with s.
    + intros y. rewrite lookup_insert_ne by done.
      intros (d0 & Hd0 & Hy)%join_dicts_list_lookup.
      by apply (Forall2_all_values (fun d => ∀ y, d !! n = Some y -> y = v)
                                   (rv_parents rx) ds d0 Hq Hd0).
Qed.

Lemma keeps_observed_start n s :
  has_observed_value (get s n) = true -> samples (get s n) = [] ->
  keeps_observed n (_observed_value (get s n)) s s.
Proof. intros Ho Hs. repeat split; auto. Qed.

(** The draws of a run of calls are bound: each draw that the run adds to
    the log was made on samples that one of the returned dictionaries
    holds. *)
Lemma mapM_st_draws (f : nat -> state -> outcome (gmap nat value * state))
    (l : list nat) :
  (∀ a s d s', a ∈ l -> f a s = Ok (d, s') ->
               ∀ e, e ∈ draws s' -> e ∈ draws s ∨ binds_parents_of G d e) ->
  ∀ s ds s', mapM_st f l s = Ok (ds, s') ->
             ∀ e, e ∈ draws s' ->
                  e ∈ draws s ∨ ∃ d, d ∈ ds ∧ binds_parents_of G d e.
Proof.
  induction l as [|a l IH]; intros Hf s ds s'; simpl.
  - intros [= <- <-] e He. by left.
  - destruct (f a s) as [[b s1] | |] eqn:Hfa; simpl; try done.
    destruct (mapM_st f l s1) as [[bs s2] | |] eqn:Hl; simpl; try done.
    intros [= <- <-] e He.
    destruct (IH ltac:(intros; eapply Hf; [by right | done | done]) s1 bs s2 Hl e He)
      as [He1 | (d & Hd & Hb)].
    + destruct (Hf a s b s1 ltac:(left) Hfa e He1) as [He0 | Hb]; [by left |].
      right. exists b. split; [left | done].
    + right. exists d. split; [by right | done].
Qed.

Lemma binds_parents_of_join (ds : list (gmap nat value)) d e :
  d ∈ ds -> binds_parents_of G d e -> binds_parents_of G (join_dicts_list ds) e.
Proof.
  intros Hd Hb r p Hr Hp. apply join_dicts_list_is_Some. exists d.
  split; [done |]. by apply Hb with r.
Qed.

(** Every draw of a call of [_get_sample], in any mode, is made on samples
    that the returned dictionary holds. *)
Lemma draws_bind_parents fuel :
  ∀ m number_samples resample observed input_values s d s',
    _get_sample G fuel m number_samples resample observed input_values s = Ok (d, s') ->
    ∀ e, e ∈ draws s' -> e ∈ draws s ∨ binds_parents_of G d e.
Proof.
  induction fuel as [|fuel IH];
    intros m number_samples resample observed input_values s d s'; [done |].
  intros Hr e He. apply _get_sample_inv in Hr
    as [( -> & x & -> & Hcase)
       | (rm & x & rx & ds & s1 & i & Hm & Hx & Hov & Hwhich & Hmap & Hi & -> & ->)];
    [by left |].
  simpl in He. apply elem_of_app in He as [He | ->%list_elem_of_singleton].
  - destruct (mapM_st_draws
                (fun parent => _get_sample G fuel parent number_samples resample
                                           observed input_values)
                (rv_parents rx)
                ltac:(intros a sa da sa' _ Ha; exact (IH _ _ _ _ _ _ _ _ Ha))
                s ds s1 Hmap e He) as [He0 | (d0 & Hd0 & Hb)]; [by left |].
    right. intros r p Hr Hp.
    destruct (binds_parents_of_join ds d0 e Hd0 Hb r p Hr Hp) as [y Hy].
    destruct (decide (p = m)) as [-> | Hne].
    + rewrite lookup_insert_eq. by eexists.
    + rewrite lookup_insert_ne by done. by eexists.
  - right. intros r p Hr Hp. simpl in Hr. rewrite Hx in Hr. injection Hr as <-.
    destruct (decide (p = m)) as [-> | Hne].
    + rewrite lookup_insert_eq. by eexists.
    + rewrite lookup_insert_ne by done.
      clear -Hi Hp. revert i Hi. induction (rv_parents rx) as [|q ps IHp]; intros i Hi.
      * by apply elem_of_nil in Hp.
      * simpl in Hi. destruct (join_dicts_list ds !! q) as [y |] eqn:Hq; [| done].
        destruct (input_dict_of _ ps) as [i' | |] eqn:Hi'; simpl in Hi; try done.
        apply elem_of_cons in Hp as [-> | Hp]; [by eexists | by eapply IHp].
Qed.

(** A sample of a model in observed mode, and a variable [n] that holds an
    observed value and has an empty cache: the sample binds [n] to nothing
    but the observed value or its input value, binds it when it is a declared
    variable of the model, and binds the parents of each variable that the
    pass has drawn; no draw is made by [n], and the distribution of [n] is
    asked only for a variable that is sampled through it. *)
Lemma pm__get_sample_keeps_observed n r s fuel roots number_samples input_values d s' :
  G !! n = Some (Rand r) ->
  samples (get s n) = [] -> has_observed_value (get s n) = true ->
  pm__get_sample G fuel roots number_samples true input_values s = Ok (d, s') ->
  (∀ x, d !! n = Some x -> input_values !! n = Some x ∨ x = _observed_value (get s n))
  ∧ (n ∈ roots -> is_Some (d !! n))
  ∧ (∀ e, e ∈ draws s' ->
          e ∈ draws s
          ∨ (e.1 ≠ n ∧ (e.2 = n -> sampled_through s e.1 n)
             ∧ binds_parents_of G d e)).
Proof.
  intros Hn Hs Ho Hr. unfold pm__get_sample in Hr.
  destruct (mapM_st _ roots s) as [[ds s1] | |] eqn:Hmap; simpl in Hr; try done.
  destruct (pm_reset G fuel roots s1) as [s2 | |] eqn:Hreset; simpl in Hr; try done.
  injection Hr as <- <-.
  destruct (mapM_st_inv_I
              (fun var => _get_sample G fuel var number_samples false true input_values)
              (keeps_observed n (_observed_value (get s n)) s)
              (fun m d => (∀ x, d !! n = Some x -> x = _observed_value (get s n))
                          ∧ (m = n -> d !! n = Some (_observed_value (get s n))))
              roots s ds s1) as [Hq Hk1]; [| by apply keeps_observed_start | done |].
  { intros p sp dp sp' _ Hkp Hp.
    destruct (observed_mode_keeps n r _ s fuel Hn p number_samples false
                                  input_values sp dp sp' Hkp Hp)
      as (Hk' & Hv' & Hn').
    by split. }
  split; [| split].
  - intros x Hx.
    apply lookup_union_Some_raw in Hx as [Hx | [_ Hx]]; [by left | right].
    apply join_dicts_list_lookup in Hx as (d0 & Hd0 & Hx).
    destruct (Forall2_elem_of_r _ _ _ _ Hq Hd0) as (a & _ & Hd & _). auto.
  - intros Hroot.
    assert (is_Some (join_dicts_list ds !! n)) as [x Hx].
    { apply join_dicts_list_is_Some.
      destruct (Forall2_elem_of_l _ _ _ _ Hq Hroot) as (d0 & Hd0 & _ & Hd).
      exists d0. split; [done | by rewrite Hd]. }
    destruct (input_values !! n) as [y |] eqn:Hy.
    + exists y. by apply lookup_union_Some_l.
    + exists x. by rewrite lookup_union_r.
  - destruct Hk1 as (_ & _ & _ & _ & Hdr).
    destruct (pm_reset_logs G fuel roots s1 s2 Hreset) as [-> _].
    intros e He.
    destruct (Hdr e He) as [He0 | [Hne Hthrough]]; [by left |].
    destruct (mapM_st_draws
                (fun var => _get_sample G fuel var number_samples false true
                                        input_values)
                roots
                ltac:(intros a sa da sa' _ Ha;
                      exact (draws_bind_parents fuel _ _ _ _ _ _ _ _ Ha))
                s ds s1 Hmap e He) as [He0 | (d0 & Hd0 & Hb)]; [by left |].
    right. split; [done |]. split; [done |].
    intros r0 p Hr0 Hp.
    destruct (binds_parents_of_join ds d0 e Hd0 Hb r0 p Hr0 Hp) as [y Hy].
    destruct (input_values !! p) as [z |] eqn:Hz.
    + exists z. by apply lookup_union_Some_l.
    + exists y. by rewrite lookup_union_r.
Qed.

(** C3, as the code has it: a random variable with an empty cache, as every
    reset leaves it, that was observed with fixed data (it holds an observed
    value) is bound to its observed value by every sampling in observed mode,
    and makes no draw.  [_get_sample] on the node returns the value alone on
    the heap as it was, so that no distribution is asked.
    [Variable.get_sample], which samples in the mode [is_observed] gives,
    returns it, asks no distribution, and leaves the node observed with an
    empty cache, so that the next call does the same.  A sample that
    [ProbabilisticModel._get_sample] returns in observed mode binds the node,
    unless the input values bind it, to nothing but its observed value; it
    binds it to this value when the node is a declared variable of the model
    and when the node is a parent of a variable whose distribution the pass
    has asked, so that what is drawn on the node is drawn on its observed
    value; the sample need not hold the node otherwise.  In such a pass the
    node makes no draw, and its distribution is asked only for a variable that
    was observed with the node as its random dataset and holds no observed
    value: never, when there is no such variable.  When the
    node was observed with a random dataset instead, what [_get_sample]
    returns in observed mode is a draw of the distribution of the dataset
    variable, on the link of the dataset variable applied to samples of the
    parents of the dataset variable. *)
Theorem observed_value_is_returned (n : nat) (r : rv_info) (s : state) :
  G !! n = Some (Rand r) ->
  samples (get s n) = [] ->
  (has_observed_value (get s n) = true ->
   (∀ fuel number_samples resample input_values,
       _get_sample G (S fuel) n number_samples resample true input_values s
       = Ok ({[ n := _observed_value (get s n) ]}, s))
   ∧ (∀ fuel number_samples input_values,
       wf_graph G -> n < fuel -> _observed (get s n) = true ->
       ∃ s', get_sample G fuel n number_samples input_values s
             = Ok ({[ n := _observed_value (get s n) ]}, s')
             ∧ draws s' = draws s
             ∧ _observed (get s' n) = true
             ∧ has_observed_value (get s' n) = true
             ∧ _observed_value (get s' n) = _observed_value (get s n)
             ∧ samples (get s' n) = [])
   ∧ (∀ fuel roots number_samples input_values d s',
       pm__get_sample G fuel roots number_samples true input_values s = Ok (d, s') ->
       (input_values !! n = None ->
        (∀ x, d !! n = Some x -> x = _observed_value (get s n))
        ∧ (n ∈ roots -> d !! n = Some (_observed_value (get s n)))
        ∧ (∀ e rv, e ∈ draws s' -> G !! e.2 = Some (Rand rv) -> n ∈ rv_parents rv ->
                   e ∈ draws s ∨ d !! n = Some (_observed_value (get s n))))
       ∧ (∀ e, e ∈ draws s' ->
               e ∈ draws s ∨ (e.1 ≠ n ∧ (e.2 = n -> sampled_through s e.1 n)))
       ∧ ((∀ m, ¬ sampled_through s m n) ->
          ∀ e, e ∈ draws s' -> e ∈ draws s ∨ (e.1 ≠ n ∧ e.2 ≠ n))))
  ∧ (∀ dv rd fuel number_samples resample input_values d s',
       has_observed_value (get s n) = false ->
       has_random_dataset (get s n) = true ->
       dataset (get s n) = Some dv ->
       G !! dv = Some (Rand rd) ->
       _get_sample G (S fuel) n number_samples resample true input_values s
       = Ok (d, s') ->
       ∃ ds s1 input_dict,
         mapM_st (fun parent => _get_sample G fuel parent number_samples resample true
                                            input_values)
                 (rv_parents rd) s = Ok (ds, s1)
         ∧ input_dict_of (join_dicts_list ds) (rv_parents rd) = Ok input_dict
         ∧ d = <[ n := dist_get_sample (rv_distribution rd)
                          (apply_link (rv_link rd) input_dict) number_samples
                          (length (draws s1)) ]> (join_dicts_list ds)
         ∧ draws s' = draws s1 ++ [(n, dv)]).
Proof.
  intros Hn Hs. split.
  - intros Ho.
    assert (∀ fuel number_samples resample input_values,
               _get_sample G (S fuel) n number_samples resample true input_values s
               = Ok ({[ n := _observed_value (get s n) ]}, s)) as Ha.
    { intros fuel number_samples resample input_values. simpl. rewrite Hn.
      unfold RandomVariable_get_sample. rewrite Hs. simpl.
      replace (if resample then None else None) with (@None value)
        by by destruct resample.
      unfold choose_target. simpl. by rewrite Ho. }
    split; [done |]. split.
    + intros fuel number_samples input_values Hwf Hlt Hobs.
      destruct fuel as [|fuel]; [lia |].
      unfold get_sample, is_observed. rewrite Hn. cbn -[_get_sample reset].
      unfold rv_is_observed. rewrite Hobs, Ha. cbn -[_get_sample reset].
      rewrite lookup_singleton_eq.
      destruct (reset_spec G (S fuel) n s Hwf ltac:(by eexists) Hlt)
        as (s' & -> & Hd & _ & Hc).
      cbn. exists s'. split; [done |]. split; [done |].
      destruct (Hc n) as [Hcn _]. rewrite Hcn by by apply reset_set_self with r.
      simpl. auto.
    + intros fuel roots number_samples input_values d s' Hr.
      destruct (pm__get_sample_keeps_observed n r s fuel roots number_samples
                  input_values d s' Hn Hs Ho Hr) as (Hval & Hroot & Hdr).
      assert (input_values !! n = None ->
              ∀ x, d !! n = Some x -> x = _observed_value (get s n)) as Hval'.
      { intros Hin x Hx. destruct (Hval x Hx) as [Hi | ->]; [congruence | done]. }
      split; [| split].
      * intros Hin. split; [by apply Hval' |]. split.
        -- intros [x Hx]%Hroot. rewrite Hx. f_equal. by apply Hval'.
        -- intros e rv He Hrv Hp.
           destruct (Hdr e He) as [He0 | (_ & _ & Hb)]; [by left | right].
           destruct (Hb rv n Hrv Hp) as [x Hx]. rewrite Hx. f_equal. by apply Hval'.
      * intros e He. destruct (Hdr e He) as [He0 | (Hne & Hthrough & _)]; auto.
      * intros Hnone e He.
        destruct (Hdr e He) as [He0 | (Hne & Hthrough & _)]; [by left | right].
        split; [done |]. intros He2. by apply (Hnone e.1), Hthrough.
  - intros dv rd fuel number_samples resample input_values d s' Ho Hrd Hdv Hgd.
    simpl. rewrite Hn. unfold RandomVariable_get_sample. rewrite Hs. simpl.
    replace (if resample then None else None) with (@None value)
      by by destruct resample.
    unfold choose_target. simpl. rewrite Ho, Hrd, Hdv. simpl. rewrite Hgd.
    destruct (mapM_st _ (rv_parents rd) s) as [[ds s1] | |] eqn:Hmap; simpl;
      try done.
    destruct (input_dict_of _ _) as [input_dict | |] eqn:Hi; simpl; try done.
    intros [= <- <-]. exists ds, s1, input_dict.
    split; [done |]. split; [exact Hi |]. by split.
Qed.

End Sampling.

(** ** Lookup by name *)

Section Names.

Context `{Backend}.
Variable G : graph.

Lemma mapM_Ok {A B : Type} (f : A -> outcome B) l k :
  mapM f l = Ok k -> Forall2 (fun x y => f x = Ok y) l k.
Proof.
  revert k. induction l as [|a l IH]; simpl; intros k.
  - intros [= <-]. constructor.
  - destruct (f a) as [b | |] eqn:Hfa; simpl; try done.
    destruct (mapM f l) as [k' | |] eqn:Hl; simpl; try done.
    intros [= <-]. constructor; auto.
Qed.

Lemma elem_of_flatten_list {A : Type} (x : A) (ls : list (list A)) :
  x ∈ flatten_list ls ↔ ∃ l, l ∈ ls ∧ x ∈ l.
Proof.
  unfold flatten_list. rewrite list_elem_of_In, in_concat.
  split; intros (l & Hl & Hx); exists l; by rewrite ?list_elem_of_In in *.
Qed.

Lemma flatten_in_graph fuel n l :
  _flatten G fuel n = Ok l -> ∀ x, x ∈ l -> is_Some (G !! x).
Proof.
  revert n l. induction fuel as [|fuel IH]; intros n l; [done |]. simpl.
  destruct (G !! n) as [[d | r] |] eqn:Hn; [| | done].
  - intros [= <-] x ->%list_elem_of_singleton. by rewrite Hn.
  - destruct (mapM _ _) as [ls | |] eqn:Hm; simpl; try done.
    intros [= <-] x [Hx | ->%list_elem_of_singleton]%elem_of_app; [| by rewrite Hn].
    apply elem_of_flatten_list in Hx as (l' & Hl' & Hx).
    apply mapM_Ok in Hm.
    destruct (Forall2_elem_of_r _ _ _ _ Hm Hl') as (p & _ & Hp). by apply (IH p l').
Qed.

Lemma pm_flatten_in_graph fuel roots l :
  pm_flatten G fuel roots = Ok l -> ∀ x, x ∈ l -> is_Some (G !! x).
Proof.
  unfold pm_flatten. destruct (mapM _ _) as [ls | |] eqn:Hm; simpl; try done.
  intros [= <-] x (l' & Hl' & Hx)%elem_of_flatten_list.
  apply mapM_Ok in Hm.
  destruct (Forall2_elem_of_r _ _ _ _ Hm Hl') as (p & _ & Hp).
  by apply (flatten_in_graph fuel p l').
Qed.

Lemma name_of_in_graph x : is_Some (G !! x) -> ∃ nm, name_of G x = Ok nm.
Proof. intros [[d | r] Hx]; unfold name_of; rewrite Hx; by eexists. Qed.

(** The dictionary of the names: it is built, its entries are variables of
    the list under their names (or entries of [acc]), and every name of the
    list has an entry. *)
Lemma name_dict_spec flat acc :
  (∀ x, x ∈ flat -> is_Some (G !! x)) ->
  ∃ d, name_dict G flat acc = Ok d
       ∧ (∀ nm v, d !! nm = Some v ->
                  (v ∈ flat ∧ name_of G v = Ok nm) ∨ acc !! nm = Some v)
       ∧ (∀ nm, (is_Some (acc !! nm) ∨ ∃ v, v ∈ flat ∧ name_of G v = Ok nm) ->
                is_Some (d !! nm)).
Proof.
  revert acc. induction flat as [|x flat IH]; intros acc Hin; simpl.
  - exists acc. split; [done |]. split; [by right |].
    intros nm [Ha | (v & Hv & _)]; [done | by apply elem_of_nil in Hv].
  - destruct (name_of_in_graph x) as [nx Hx]; [apply Hin; left |].
    rewrite Hx. simpl.
    destruct (IH (<[nx := x]> acc)) as (d & -> & Hsound & Hcompl).
    { intros y Hy. apply Hin. by right. }
    exists d. split; [done |]. split.
    + intros nm v Hd. destruct (Hsound nm v Hd) as [[Hv Hnv] | Ha].
      * left. split; [by right | done].
      * destruct (decide (nx = nm)) as [-> | Hne].
        -- rewrite lookup_insert_eq in Ha. injection Ha as <-. left. split; [left | done].
        -- rewrite lookup_insert_ne in Ha by done. by right.
    + intros nm Hnm. apply Hcompl.
      destruct (decide (nx = nm)) as [-> | Hne].
      * left. rewrite lookup_insert_eq. by eexists.
      * rewrite lookup_insert_ne by done.
        destruct Hnm as [Ha | (v & Hv & Hnv)]; [by left |].
        apply elem_of_cons in Hv as [-> | Hv]; [congruence |].
        right. by exists v.
Qed.

(** [get_variable] returns a variable of the flattened list that has the
    name. *)
Lemma get_variable_sound flat nm v :
  (∀ x, x ∈ flat -> is_Some (G !! x)) ->
  get_variable G (Ok flat) nm = Ok v -> v ∈ flat ∧ name_of G v = Ok nm.
Proof.
  intros Hin. unfold get_variable. simpl.
  destruct (name_dict_spec flat ∅ Hin) as (d & -> & Hsound & _). simpl.
  destruct (d !! nm) as [v' |] eqn:Hd; [| done].
  intros [= <-]. destruct (Hsound nm v' Hd) as [? | He]; [done |].
  by rewrite lookup_empty in He.
Qed.

(** When a variable of the flattened list has the name, [get_variable]
    returns one. *)
Lemma get_variable_present flat nm v :
  (∀ x, x ∈ flat -> is_Some (G !! x)) ->
  v ∈ flat -> name_of G v = Ok nm ->
  ∃ v', get_variable G (Ok flat) nm = Ok v'.
Proof.
  intros Hin Hv Hnm. unfold get_variable. simpl.
  destruct (name_dict_spec flat ∅ Hin) as (d & -> & _ & Hcompl). simpl.
  destruct (Hcompl nm) as [v' ->]; [right; by exists v |]. by exists v'.
Qed.

(** When no variable of the flattened list has the name, [get_variable]
    raises the [KeyError] of the subscript: the handler of [ValueError] does
    not catch it. *)
Lemma get_variable_absent flat nm :
  (∀ x, x ∈ flat -> is_Some (G !! x)) ->
  (∀ v, v ∈ flat -> name_of G v ≠ Ok nm) ->
  get_variable G (Ok flat) nm = Raise (KeyError (KStr nm)).
Proof.
  intros Hin Habs. unfold get_variable. simpl.
  destruct (name_dict_spec flat ∅ Hin) as (d & -> & Hsound & _). simpl.
  destruct (d !! nm) as [v' |] eqn:Hd; [| done].
  destruct (Hsound nm v' Hd) as [[Hv Hnv] | He]; [by destruct (Habs v' Hv) |].
  by rewrite lookup_empty in He.
Qed.

(** [get_variable] returns or raises [KeyError]. *)
Lemma get_variable_cases flat nm :
  (∀ x, x ∈ flat -> is_Some (G !! x)) ->
  (∃ v, get_variable G (Ok flat) nm = Ok v)
  ∨ get_variable G (Ok flat) nm = Raise (KeyError (KStr nm)).
Proof.
  intros Hin. unfold get_variable. simpl.
  destruct (name_dict_spec flat ∅ Hin) as (d & -> & _ & _). simpl.
  destruct (d !! nm) as [v' |]; [left; by eexists | by right].
Qed.

End Names.

(** ** The posterior coupling *)

Section CouplingProps.

Context `{Backend}.
Variable G : graph.

Lemma finds_same_name post_flat j p :
  (∀ x, x ∈ post_flat -> is_Some (G !! x)) ->
  finds G post_flat j p -> p ∈ post_flat ∧ same_name G p j.
Proof.
  intros Hin (nm & Hj & Hg).
  destruct (get_variable_sound G post_flat nm p Hin Hg) as [Hp Hnp].
  split; [done | by exists nm].
Qed.

Lemma finds_inj post_flat j j' p :
  (∀ x, x ∈ post_flat -> is_Some (G !! x)) ->
  finds G post_flat j p -> finds G post_flat j' p -> same_name G j j'.
Proof.
  intros Hin (nm & Hj & Hg) (nm' & Hj' & Hg').
  destruct (get_variable_sound G post_flat nm p Hin Hg) as [_ Hnp].
  destruct (get_variable_sound G post_flat nm' p Hin Hg') as [_ Hnp'].
  exists nm. split; [done | congruence].
Qed.

Lemma finds_fun post_flat j p p' :
  finds G post_flat j p -> finds G post_flat j p' -> p = p'.
Proof. intros (nm & Hj & Hg) (nm' & Hj' & Hg'). congruence. Qed.

(** The loop of [set_model_mapping]: it ends without raising; an entry of the
    result is an entry of [mm0] or a pair the loop found; a key of [mm0] is
    still a key; and a posterior variable that a joint variable finds is a
    key. *)
Lemma set_model_mapping_loop_spec post_flat joint_flat mm0 :
  (∀ x, x ∈ post_flat -> is_Some (G !! x)) ->
  (∀ x, x ∈ joint_flat -> is_Some (G !! x)) ->
  ∃ mm, set_model_mapping_loop G (Ok post_flat) joint_flat mm0 = Ok mm
        ∧ (∀ p j, mm !! p = Some j ->
                  mm0 !! p = Some j ∨ (j ∈ joint_flat ∧ finds G post_flat j p))
        ∧ (∀ p, is_Some (mm0 !! p) -> is_Some (mm !! p))
        ∧ (∀ p j, j ∈ joint_flat -> finds G post_flat j p -> is_Some (mm !! p)).
Proof.
  intros Hpost. revert mm0. induction joint_flat as [|j0 rest IH]; intros mm0 Hjoint.
  - exists mm0. split; [done |]. split; [by left |]. split; [done |].
    intros p j Hj. by apply elem_of_nil in Hj.
  - cbn [set_model_mapping_loop].
    destruct (name_of_in_graph G j0) as [n0 Hn0]; [apply Hjoint; left |].
    rewrite Hn0, bind_Ok.
    assert (∀ x, x ∈ rest -> is_Some (G !! x)) as Hrest.
    { intros x Hx. apply Hjoint. by right. }
    destruct (get_variable_cases G post_flat n0 Hpost) as [[q Hq] | Hq]; rewrite Hq.
    + destruct (IH (<[q := j0]> mm0) Hrest) as (mm & -> & Ha & Hb & Hc).
      exists mm. split; [done |]. split; [| split].
      * intros p j Hpj. destruct (Ha p j Hpj) as [Hi | [Hj Hf]].
        -- destruct (decide (q = p)) as [-> | Hne].
           ++ rewrite lookup_insert_eq in Hi. injection Hi as <-.
              right. split; [left | by exists n0].
           ++ rewrite lookup_insert_ne in Hi by done. by left.
        -- right. split; [by right | done].
      * intros p Hp. apply Hb. rewrite lookup_insert_is_Some'. by right.
      * intros p j Hj Hf. apply elem_of_cons in Hj as [-> | Hj]; [| by apply (Hc p j)].
        apply Hb. assert (p = q) as ->.
        { destruct Hf as (nm & Hnm & Hg). congruence. }
        rewrite lookup_insert_eq. by eexists.
    + destruct (IH mm0 Hrest) as (mm & -> & Ha & Hb & Hc).
      exists mm. split; [done |]. split; [| split; [done |]].
      * intros p j Hpj. destruct (Ha p j Hpj) as [Hi | [Hj Hf]]; [by left |].
        right. split; [by right | done].
      * intros p j Hj Hf. apply elem_of_cons in Hj as [-> | Hj]; [| by apply (Hc p j)].
        destruct Hf as (nm & Hnm & Hg). congruence.
Qed.

(** [posterior_sample2joint_sample]: a binding of the result is the
    translation of a binding of the sample; the translations of the bindings
    of the sample are all there when the mapping sends no two keys to one
    variable. *)
Lemma posterior_sample2joint_sample_spec (mm : gmap nat nat) (sample : gmap nat value) :
  (∀ j v, posterior_sample2joint_sample mm sample !! j = Some v ->
          ∃ p, mm !! p = Some j ∧ sample !! p = Some v)
  ∧ ((∀ p p' j, mm !! p = Some j -> mm !! p' = Some j -> p = p') ->
     ∀ p j v, mm !! p = Some j -> sample !! p = Some v ->
              posterior_sample2joint_sample mm sample !! j = Some v).
Proof.
  unfold posterior_sample2joint_sample.
  apply (map_fold_weak_ind
           (fun (r : gmap nat value) (m : gmap nat value) =>
              (∀ j v, r !! j = Some v -> ∃ p, mm !! p = Some j ∧ m !! p = Some v)
              ∧ ((∀ p p' j, mm !! p = Some j -> mm !! p' = Some j -> p = p') ->
                 ∀ p j v, mm !! p = Some j -> m !! p = Some v -> r !! j = Some v))).
  - split; [intros j v Hr; by rewrite lookup_empty in Hr |].
    intros _ p j v _ Hm. by rewrite lookup_empty in Hm.
  - intros i x m r Hi [IH1 IH2]. split.
    + intros j v Hr. destruct (mm !! i) as [ji |] eqn:Hmi.
      * destruct (decide (ji = j)) as [-> | Hne].
        -- rewrite lookup_insert_eq in Hr. injection Hr as <-.
           exists i. by rewrite lookup_insert_eq.
        -- rewrite lookup_insert_ne in Hr by done.
           destruct (IH1 j v Hr) as (p & Hp & Hm). exists p. split; [done |].
           rewrite lookup_insert_ne; [done | congruence].
      * destruct (IH1 j v Hr) as (p & Hp & Hm). exists p. split; [done |].
        rewrite lookup_insert_ne; [done | congruence].
    + intros Hinj p j v Hp Hm. destruct (decide (i = p)) as [-> | Hne].
      * rewrite lookup_insert_eq in Hm. injection Hm as <-.
        rewrite Hp. by rewrite lookup_insert_eq.
      * rewrite lookup_insert_ne in Hm by done.
        destruct (mm !! i) as [ji |] eqn:Hmi; [| by apply (IH2 Hinj p)].
        rewrite lookup_insert_ne; [by apply (IH2 Hinj p) |].
        intros ->. by destruct (Hne (Hinj i p j Hmi Hp)).
Qed.

(** C7: the construction of a [PosteriorModel] ends without raising, whatever
    names are missing; the pairs of [model_mapping] are pairs of a variable of
    the posterior model's flattened DAG and a variable of the joint model's
    with the same name, and, names being unique within each model, they are
    exactly these pairs; and [posterior_sample2joint_sample] returns exactly
    the translations of the bindings whose key is in [model_mapping], without
    raising: the keys that are not in it are dropped. *)
Theorem model_mapping_couples_by_name (fuel : nat) (post_vars joint_vars : list nat)
    (post_flat joint_flat : list nat) :
  pm_flatten G fuel post_vars = Ok post_flat ->
  pm_flatten G fuel joint_vars = Ok joint_flat ->
  ∃ pm, PosteriorModel_init G fuel post_vars joint_vars = Ok pm
        ∧ post_variables pm = post_vars
        ∧ set_model_mapping G fuel post_vars joint_vars = Ok (model_mapping pm)
        ∧ (∀ p j, model_mapping pm !! p = Some j ->
                  p ∈ post_flat ∧ j ∈ joint_flat ∧ same_name G p j)
        ∧ (unique_names G post_flat -> unique_names G joint_flat ->
           ∀ p j, p ∈ post_flat -> j ∈ joint_flat -> same_name G p j ->
                  model_mapping pm !! p = Some j)
        ∧ (∀ j, j ∈ joint_flat -> (∀ p, p ∈ post_flat -> ¬ same_name G p j) ->
                ∀ p, model_mapping pm !! p ≠ Some j)
        ∧ (∀ sample j v,
              posterior_sample2joint_sample (model_mapping pm) sample !! j = Some v
              ↔ ∃ p, model_mapping pm !! p = Some j ∧ sample !! p = Some v)
        ∧ (∀ sample p, model_mapping pm !! p = None ->
              ∀ j v, posterior_sample2joint_sample (model_mapping pm) sample !! j = Some v ->
                     ∃ p', p' ≠ p ∧ model_mapping pm !! p' = Some j
                           ∧ sample !! p' = Some v).
Proof.
  intros Hpf Hjf.
  pose proof (pm_flatten_in_graph G fuel post_vars post_flat Hpf) as Hpost.
  pose proof (pm_flatten_in_graph G fuel joint_vars joint_flat Hjf) as Hjoint.
  destruct (set_model_mapping_loop_spec post_flat joint_flat ∅ Hpost Hjoint)
    as (mm & Hmm & Ha & _ & Hc).
  assert (set_model_mapping G fuel post_vars joint_vars = Ok mm) as Hset.
  { unfold set_model_mapping. rewrite Hjf, Hpf. simpl. exact Hmm. }
  assert (∀ p j, mm !! p = Some j -> j ∈ joint_flat ∧ finds G post_flat j p) as Hfinds.
  { intros p j Hpj. destruct (Ha p j Hpj) as [He | ?]; [| done].
    by rewrite lookup_empty in He. }
  assert (∀ p p' j, mm !! p = Some j -> mm !! p' = Some j -> p = p') as Hinj.
  { intros p p' j Hp Hp'. destruct (Hfinds p j Hp) as [_ Hf].
    destruct (Hfinds p' j Hp') as [_ Hf']. by apply (finds_fun post_flat j). }
  exists {| post_variables := post_vars; model_mapping := mm |}.
  split; [unfold PosteriorModel_init; by rewrite Hset |].
  split; [done |]. split; [done |]. simpl. split; [| split; [| split; [| split]]].
  - intros p j Hpj. destruct (Hfinds p j Hpj) as [Hj Hf].
    destruct (finds_same_name post_flat j p Hpost Hf) as [Hp Hs]. done.
  - intros Hup Huj p j Hp Hj (nm & Hnp & Hnj).
    destruct (get_variable_present G post_flat nm p Hpost Hp Hnp) as [p' Hg].
    destruct (get_variable_sound G post_flat nm p' Hpost Hg) as [Hp' Hnp'].
    assert (p' = p) as -> by by apply (Hup p' p nm).
    destruct (Hc p j Hj) as [j' Hj']; [by exists nm |].
    destruct (Hfinds p j' Hj') as [Hjj' (nm' & Hnj' & Hg')].
    destruct (get_variable_sound G post_flat nm' p Hpost Hg') as [_ Hnp''].
    assert (j' = j) as ->; [| done].
    apply (Huj j' j nm); [done | done | congruence | done].
  - intros j Hj Hnone p Hpj. destruct (Hfinds p j Hpj) as [_ Hf].
    destruct (finds_same_name post_flat j p Hpost Hf) as [Hp Hs].
    by apply (Hnone p).
  - intros sample j v.
    destruct (posterior_sample2joint_sample_spec mm sample) as [H1 H2]. split.
    + apply H1.
    + intros (p & Hp & Hs). by apply (H2 Hinj p).
  - intros sample p Hp j v Hr.
    destruct (posterior_sample2joint_sample_spec mm sample) as [H1 _].
    destruct (H1 j v Hr) as (p' & Hp' & Hs). exists p'.
    split; [congruence | done].
Qed.

End CouplingProps.

(** ** The symbolic algebra *)

Section AlgebraProps.

Context `{Backend}.

(** The set at an address is the set object that the heap holds there. *)
Lemma set_at_Some (h : set_heap) (a : nat) (vs : gset nat) :
  set_at h a = Some vs <-> h !! a = Some (PySet vs).
Proof.
  unfold set_at. destruct (h !! a) as [[s |] |]; split; intros Heq;
    try discriminate; by simplify_eq.
Qed.

(** An operator between two links builds new sets: the objects the heap held
    are as they were, the new [vars] is the union of the operands' [vars], the
    new [links] the union of their [links], and the new [fn] applies the
    operator to what the operands' [fn] return. *)
Lemma PartialLink_apply_operator_new (self other : PartialLink)
    (op : value -> value -> value) (h : set_heap) vs vo ls lo :
  vars_of self h = Some vs -> vars_of other h = Some vo ->
  links_of self h = Some ls -> links_of other h = Some lo ->
  ∃ l h', PartialLink_apply_operator self (OpLink other) op h = Ok (l, h')
          ∧ vars_of l h' = Some (vs ∪ vo)
          ∧ links_of l h' = Some (ls ∪ lo)
          ∧ (∀ values, fn l values
                       = (a ← fn self values; b ← fn other values; Ok (op a b)))
          ∧ (∀ a s, h !! a = Some s -> h' !! a = Some s).
Proof.
  unfold vars_of, links_of. rewrite !set_at_Some. intros Hvs Hvo Hls Hlo.
  assert ((h ++ [PySet (vs ∪ vo)]) !! links self = Some (PySet ls)) as Hls'
    by by apply lookup_app_l_Some.
  assert ((h ++ [PySet (vs ∪ vo)]) !! links other = Some (PySet lo)) as Hlo'
    by by apply lookup_app_l_Some.
  unfold PartialLink_apply_operator, set_union. simpl. rewrite Hvs, Hvo. simpl.
  rewrite Hls', Hlo'. simpl.
  eexists _, _. split; [done |]. unfold vars_of, links_of. rewrite !set_at_Some. simpl.
  split; [| split; [| split; [done |]]].
  - rewrite <- app_assoc. by apply list_lookup_middle.
  - apply list_lookup_middle. by rewrite length_app, Nat.add_1_r.
  - intros a s Ha. rewrite <- app_assoc. by apply lookup_app_l_Some.
Qed.

(** An operator between a variable and a link adds the variable to the set
    of the link itself: the new link shares the set. *)
Lemma Variable_apply_operator_shares (self : nat) (other : PartialLink)
    (op : value -> value -> value) (h : set_heap) vo :
  vars_of other h = Some vo ->
  ∃ l h', Variable_apply_operator self (OpLink other) op h = Ok (l, h')
          ∧ vars l = vars other ∧ links l = links other
          ∧ vars_of other h' = Some (vo ∪ {[self]})
          ∧ vars_of l h' = Some (vo ∪ {[self]}).
Proof.
  unfold vars_of. rewrite set_at_Some. intros Hvo. simpl.
  unfold set_add. rewrite Hvo. simpl. eexists _, _. split; [done |]. simpl.
  split; [done |]. split; [done |].
  rewrite set_at_Some, list_lookup_insert_eq; [done |]. by eapply lookup_lt_Some.
Qed.

End AlgebraProps.

(** ** The evidence estimate *)

Section Evidence.

Context `{Backend}.
Variable G : graph.

(** [ProbabilisticModel._get_sample] returns on an acyclic graph, having
    reset, when it is not in observed mode or no variable has a random
    dataset. *)
Lemma pm__get_sample_spec fuel roots number_samples observed input_values s :
  wf_graph G -> roots_in G roots fuel ->
  (observed = true -> no_dataset s) ->
  ∃ d s', pm__get_sample G fuel roots number_samples observed input_values s
          = Ok (d, s')
          ∧ evals s' = evals s
          ∧ (∀ k, model_set G roots k -> clean (get s' k))
          ∧ (∀ k, get s' k = get s k ∨ model_set G roots k)
          ∧ (∀ s_r, pm_reset G fuel roots s = Ok s_r -> ∀ k, get s' k = get s_r k).
Proof.
  intros Hwf Hroots Hmode. unfold pm__get_sample.
  destruct (mapM_st_spec_I
              (fun var => _get_sample G fuel var number_samples false observed
                                      input_values)
              (fun s => observed = true -> no_dataset s)
              (fun s s' => evals s' = evals s ∧ touched_on (model_set G roots) s s')
              (fun _ _ => True) roots s)
    as (ds & s1 & -> & _ & [He Ht] & _); [| | | done |].
  { intros s'. split; [done | apply touched_on_refl]. }
  { intros s1 s2 s3 [Hd1 Ht1] [Hd2 Ht2]. split; [congruence |].
    by eapply touched_on_trans'. }
  { intros v s' Hv Hmode'. destruct (Hroots v Hv) as [Hlt Hin].
    destruct (get_sample_spec G fuel v number_samples false observed input_values s'
                              Hwf Hin Hlt Hmode') as (d & s'' & Hr & _ & He & Ht).
    exists d, s''. split; [done |]. split; [done |]. split; [split; [done |] |].
    - eapply touched_on_mono; [| exact Ht]. intros k. by apply model_set_root.
    - intros Ho. by apply (touched_on_no_dataset _ s' s'' Ht), Hmode'. }
  simpl.
  destruct (pass_then_reset G fuel roots s s1 Hwf Hroots Ht)
    as (s' & -> & _ & He' & Hclean & Hout & Hreset). simpl.
  eexists _, s'. split; [done |]. split; [congruence |]. auto.
Qed.

(** A clean variable is as a reset leaves it. *)
Lemma clean_clear st : clean st -> clear st = st.
Proof.
  destruct st as [sm ev ob ov cv ds rd hv]. intros (Hs & He & Hc). simpl in *.
  unfold clear. simpl. by subst.
Qed.

(** A pass that ends in the reset of its model, from a heap where the
    variables of the model are clean, leaves every variable as it was. *)
Lemma pass_restores fuel roots s s' :
  wf_graph G -> roots_in G roots fuel ->
  (∀ k, model_set G roots k -> clean (get s k)) ->
  (∀ s_r, pm_reset G fuel roots s = Ok s_r -> ∀ k, get s' k = get s_r k) ->
  ∀ k, get s' k = get s k.
Proof.
  intros Hwf Hroots Hclean Hreset k.
  destruct (pm_reset_spec G fuel roots s Hwf Hroots) as (s_r & Hs_r & _ & _ & Hc).
  rewrite (Hreset s_r Hs_r k).
  destruct (Hc k) as [_ [Heq | [Hk Heq]]]; [done |].
  rewrite Heq. by apply clean_clear, Hclean.
Qed.

End Evidence.

(** ** Each density once *)

Section Once.

Context `{Backend} `{!BackendLaws}.
Variable G : graph.
Variable vals : gmap nat value.
Variable U : nat -> Prop.
Hypothesis Hwf : wf_graph G.
Hypothesis U_closed :
  ∀ n r p, U n -> G !! n = Some (Rand r) -> p ∈ rv_parents r -> U p.

Lemma foldl_ladd a lps : foldl ladd a lps = ladd a (foldl ladd lzero lps).
Proof.
  revert a. induction lps as [|x lps IH]; intros a; simpl.
  - by rewrite ladd_lzero_r.
  - rewrite IH, (IH (ladd lzero x)), ladd_lzero_l. by rewrite ladd_assoc.
Qed.

Lemma py_sum_cons r lps : py_sum (r :: lps) = ladd r (py_sum lps).
Proof. unfold py_sum. simpl. by rewrite ladd_lzero_l, foldl_ladd. Qed.

Lemma sum_of_app s l1 l2 :
  sum_of G vals s (l1 ++ l2) = ladd (sum_of G vals s l1) (sum_of G vals s l2).
Proof.
  unfold sum_of. induction l1 as [|x l1 IH]; simpl.
  - by rewrite ladd_lzero_l.
  - by rewrite IH, ladd_assoc.
Qed.

Lemma own_log_probability_same s s' x :
  _observed (get s' x) = _observed (get s x) ->
  rv_value (get s' x) = rv_value (get s x) ->
  own_log_probability G vals s' x = own_log_probability G vals s x.
Proof.
  intros Ho Hv. unfold own_log_probability, rv_is_observed.
  destruct (G !! x) as [[d | r] |]; [done | | done]. by rewrite Ho, Hv.
Qed.

Lemma sum_of_same s s' l :
  (∀ x, _observed (get s' x) = _observed (get s x)
        ∧ rv_value (get s' x) = rv_value (get s x)) ->
  sum_of G vals s' l = sum_of G vals s l.
Proof.
  intros Hs. unfold sum_of. induction l as [|x l IH]; simpl; [done |].
  destruct (Hs x) as [Ho Hv]. by rewrite IH, (own_log_probability_same s s' x).
Qed.

Lemma evaluates_fields (A : nat -> Prop) s s' new x :
  evaluates A s s' new ->
  _observed (get s' x) = _observed (get s x)
  ∧ rv_value (get s' x) = rv_value (get s x)
  ∧ (_evaluated (get s x) = true -> _evaluated (get s' x) = true)
  ∧ (x ∈ new -> _evaluated (get s' x) = true)
  ∧ (x ∉ new -> get s' x = get s x).
Proof.
  intros (_ & _ & _ & _ & Hg). rewrite (Hg x).
  destruct (decide (x ∈ new)); simpl; repeat split; auto; done.
Qed.

Lemma evaluates_nil (A : nat -> Prop) s :
  (∀ x, A x -> _evaluated (get s x) = true) -> evaluates A s s [].
Proof.
  intros Ha. split; [by rewrite app_nil_r |]. split; [done |].
  split; [constructor |]. split.
  - intros x. split; [by intros ?%elem_of_nil |].
    intros [Hx He]. rewrite (Ha x Hx) in He. done.
  - intros x. by destruct (decide (x ∈ [])) as [?%elem_of_nil |].
Qed.

(** The calls on a list of variables, each older than [k]. *)
Lemma visit_list fuel k ps :
  (∀ p s, p ∈ ps -> memo_closed G U k s ->
          ∃ r s' new,
            calculate_log_probability G fuel p vals false s = Ok (r, s')
            ∧ evaluates (reset_set G p) s s' new
            ∧ memo_closed G U k s'
            ∧ r = sum_of G vals s new) ->
  ∀ s, memo_closed G U k s ->
       ∃ lps s' new,
         mapM_st (fun p => calculate_log_probability G fuel p vals false) ps s
         = Ok (lps, s')
         ∧ evaluates (fun x => ∃ p, p ∈ ps ∧ reset_set G p x) s s' new
         ∧ memo_closed G U k s'
         ∧ py_sum lps = sum_of G vals s new.
Proof.
  induction ps as [|p ps IH]; intros Hone s Hclosed; simpl.
  - exists [], s, []. split; [done |]. split; [| split; [done | done]].
    split; [by rewrite app_nil_r |]. split; [done |]. split; [constructor |]. split.
    + intros x. split; [by intros ?%elem_of_nil |].
      intros [(q & Hq & _) _]. by apply elem_of_nil in Hq.
    + intros x. by destruct (decide (x ∈ [])) as [?%elem_of_nil |].
  - destruct (Hone p s) as (r & s1 & new1 & -> & Hev1 & Hcl1 & ->); [left | done |].
    simpl.
    destruct (IH (fun q s Hq => Hone q s (proj2 (elem_of_cons ps q p) (or_intror Hq)))
                 s1 Hcl1)
      as (lps & s2 & new2 & -> & Hev2 & Hcl2 & Hsum).
    simpl. exists (sum_of G vals s new1 :: lps), s2, (new1 ++ new2).
    split; [done |].
    pose proof Hev1 as (He1 & Hd1 & Hnd1 & Hin1 & Hg1).
    pose proof Hev2 as (He2 & Hd2 & Hnd2 & Hin2 & Hg2).
    split; [| split; [done |]].
    + split; [by rewrite He2, He1, app_assoc |]. split; [congruence |].
      split; [| split].
      * apply NoDup_app. split; [done |]. split; [| done].
        intros x Hx1 Hx2. apply Hin2 in Hx2 as [_ Hx2].
        destruct (evaluates_fields _ s s1 new1 x Hev1) as (_ & _ & _ & Ht & _).
        rewrite (Ht Hx1) in Hx2. done.
      * intros x. rewrite elem_of_app, Hin1, Hin2. split.
        -- intros [[Hr He] | [(q & Hq & Hr) He]].
           ++ split; [exists p; split; [left | done] | done].
           ++ split; [exists q; split; [by right | done] |].
              destruct (evaluates_fields _ s s1 new1 x Hev1) as (_ & _ & Hm & _ & _).
              destruct (_evaluated (get s x)); [by rewrite Hm in He | done].
        -- intros [(q & Hq & Hr) He].
           apply elem_of_cons in Hq as [-> | Hq]; [by left |].
           destruct (decide (x ∈ new1)) as [Hx | Hx]; [left; by apply Hin1 |].
           right. split; [by exists q |].
           destruct (evaluates_fields _ s s1 new1 x Hev1) as (_ & _ & _ & _ & Hs).
           by rewrite (Hs Hx).
      * intros x. rewrite (Hg2 x), (Hg1 x).
        destruct (decide (x ∈ new2)) as [Hx2 | Hx2],
                 (decide (x ∈ new1)) as [Hx1 | Hx1],
                 (decide (x ∈ new1 ++ new2)) as [Hx | Hx];
          rewrite elem_of_app in Hx; try tauto; done.
    + rewrite py_sum_cons, Hsum, sum_of_app. f_equal.
      apply sum_of_same. intros x.
      destruct (evaluates_fields _ s s1 new1 x Hev1) as (Ho & Hv & _). done.
Qed.

Lemma total_is_own_plus_parents self r s lps s1 :
  G !! self = Some (Rand r) ->
  _observed (get s1 self) = _observed (get s self) ->
  RandomVariable_calculate_log_probability_total G self r vals s lps s1
  = ladd (own_log_probability G vals s self) (py_sum lps).
Proof.
  intros Hn Ho.
  unfold RandomVariable_calculate_log_probability_total, own_log_probability.
  rewrite Hn. unfold rv_is_observed. rewrite Ho. simpl.
  destruct (is_tensor _ && is_tensor _); [apply partial_broadcast_sum | done].
Qed.

Lemma reset_set_trans n m x : reset_set G n m -> reset_set G m x -> reset_set G n x.
Proof. intros [Hr _] [Hr' Hx]. split; [by apply reach_trans with m | done]. Qed.

Lemma reset_set_det n d x : G !! n = Some (Det d) -> ¬ reset_set G n x.
Proof.
  intros Hn [Hr [r Hx]]. apply (reach_det G n d x Hn) in Hr. congruence.
Qed.

(** A call on the variable [n], older than [k]. *)
Lemma visit_spec fuel :
  ∀ n k s, U n -> is_Some (G !! n) -> n < fuel -> n < k -> memo_closed G U k s ->
           ∃ r s' new,
             calculate_log_probability G fuel n vals false s = Ok (r, s')
             ∧ evaluates (reset_set G n) s s' new
             ∧ memo_closed G U k s'
             ∧ r = sum_of G vals s new.
Proof.
  induction fuel as [|fuel IH]; intros n k s Hu [nd Hn] Hlt Hk Hcl; [lia |].
  simpl. rewrite Hn. destruct nd as [d | r].
  { exists lzero, s, []. split; [done |]. split; [| by split].
    apply evaluates_nil. intros x Hx. by destruct (reset_set_det n d x Hn). }
  destruct (_evaluated (get s n)) eqn:He.
  { unfold RandomVariable_calculate_log_probability. rewrite He. simpl.
    exists lzero, s, []. split; [done |]. split; [| by split].
    apply evaluates_nil. intros x Hx. apply (Hcl n x); [done | done | by exists r | done | done]. }
  rewrite RandomVariable_calculate_log_probability_unfold by by rewrite He.
  set (s0 := log_eval n (put n (set_evaluated true (get s n)) s)).
  assert (∀ x, get s0 x = if decide (n = x) then set_evaluated true (get s n)
                          else get s x) as Hs0.
  { intros x. unfold s0. by rewrite get_log_eval, get_put. }
  assert (memo_closed G U n s0) as Hcl0.
  { intros m m' Hum Hm Hrm Hem Hr. rewrite Hs0 in Hem.
    destruct (decide (n = m)) as [-> | Hne]; [lia |].
    pose proof (Hcl m m' Hum ltac:(lia) Hrm Hem Hr) as Hm'.
    rewrite Hs0. by destruct (decide (n = m')). }
  destruct (visit_list fuel n (rv_parents r)) with (s := s0)
    as (lps & s1 & new1 & -> & Hev & Hcl1 & Hsum); [| done |].
  { intros p sp Hp Hclp. destruct (Hwf n r Hn p Hp) as [Hpn Hpin].
    apply IH; [by apply (U_closed n r p) | done | lia | done | done]. }
  simpl.
  pose proof Hev as (He1 & Hd1 & Hnd1 & Hin1 & Hg1).
  assert (n ∉ new1) as Hnn.
  { intros [_ Hx]%Hin1. rewrite Hs0 in Hx. by destruct (decide (n = n)). }
  assert (∀ x, get s1 x = if decide (x ∈ n :: new1) then set_evaluated true (get s x)
                          else get s x) as Hg.
  { intros x. rewrite (Hg1 x), (Hs0 x).
    destruct (decide (n = x)) as [<- | Hne].
    - destruct (decide (n ∈ new1)); [done |].
      destruct (decide (n ∈ n :: new1)) as [_ | Hx]; [done |].
      destruct Hx. left.
    - destruct (decide (x ∈ new1)) as [Hx | Hx],
               (decide (x ∈ n :: new1)) as [Hx' | Hx']; try done.
      + destruct Hx'. by right.
      + apply elem_of_cons in Hx' as [-> | Hx']; done. }
  assert (∀ x, x ∈ n :: new1 ↔ reset_set G n x ∧ _evaluated (get s x) = false) as Hin.
  { intros x. rewrite elem_of_cons, Hin1. split.
    - intros [-> | [(p & Hp & Hr) Hx]].
      + split; [by apply reset_set_self with r | done].
      + split; [by apply (reset_set_parent G n r p) |].
        rewrite Hs0 in Hx. by destruct (decide (n = x)).
    - intros [[Hr Hrx] Hx]. apply (reach_rand_inv G n r x Hn) in Hr as [-> | (p & Hp & Hr)].
      + by left.
      + destruct (decide (x = n)) as [-> | Hne]; [by left |]. right.
        split; [exists p; by split |].
        rewrite Hs0. by destruct (decide (n = x)) as [-> |]. }
  exists (RandomVariable_calculate_log_probability_total G n r vals s lps s1), s1,
         (n :: new1).
  split; [done |]. split; [| split].
  - split; [rewrite He1; unfold s0; simpl; by rewrite <- app_assoc |].
    split; [by rewrite Hd1 |]. split; [by constructor |]. split; done.
  - intros m m' Hum Hm Hrm Hem Hr.
    assert (∀ x, _evaluated (get s x) = true -> _evaluated (get s1 x) = true) as Hmono.
    { intros x Hx. rewrite Hg. by destruct (decide (x ∈ n :: new1)). }
    assert (∀ x, reset_set G n x -> _evaluated (get s1 x) = true) as Hall.
    { intros x Hx. destruct (_evaluated (get s x)) eqn:Hsx; [by apply Hmono |].
      rewrite Hg. destruct (decide (x ∈ n :: new1)) as [_ | Hx']; [done |].
      destruct Hx'. by apply Hin. }
    destruct (decide (m ∈ n :: new1)) as [Hm' | Hm'].
    + apply Hall. apply Hin in Hm' as [Hnm _]. by apply reset_set_trans with m.
    + apply Hmono. rewrite Hg in Hem.
      destruct (decide (m ∈ n :: new1)); [done |].
      by apply (Hcl m m').
  - assert (_observed (get s1 n) = _observed (get s n)) as Ho.
    { rewrite Hg. by destruct (decide (n ∈ n :: new1)). }
    rewrite (total_is_own_plus_parents n r s lps s1 Hn Ho), Hsum.
    unfold sum_of at 2. simpl. f_equal. apply sum_of_same.
    intros x. rewrite Hs0. by destruct (decide (n = x)) as [-> |].
Qed.

(** [ProbabilisticModel.calculate_log_probability] on a model whose memo
    flags are clear: the density of every random variable of the model is
    asked once, and the result is the sum of these densities. *)
Lemma pm_calculate_log_probability_once fuel roots s :
  (∀ x, U x ↔ reach_from G roots x) ->
  roots_in G roots fuel ->
  (∀ x, model_set G roots x -> _evaluated (get s x) = false) ->
  ∃ lp s' new,
    pm_calculate_log_probability G fuel roots vals s = Ok (lp, s')
    ∧ evals s' = evals s ++ new ∧ NoDup new
    ∧ (∀ x, x ∈ new ↔ model_set G roots x)
    ∧ lp = sum_of G vals s new.
Proof.
  intros HU Hroots Hclear. unfold pm_calculate_log_probability.
  assert (memo_closed G U fuel s) as Hcl.
  { intros m m' Hum Hm Hrm Hem Hr. rewrite Hclear in Hem; [done |].
    split; [by apply HU | done]. }
  destruct (visit_list fuel fuel roots) with (s := s)
    as (lps & s1 & new & -> & Hev & _ & Hsum); [| done |].
  { intros p sp Hp Hclp. destruct (Hroots p Hp) as [Hlt Hin].
    apply visit_spec; [| done | done | done | done].
    apply HU. exists p. split; [done | constructor]. }
  simpl. destruct Hev as (He & Hd & Hnd & Hin & Hg).
  destruct (pm_reset_spec G fuel roots s1 Hwf Hroots) as (s2 & -> & _ & He2 & _).
  simpl. exists (py_sum lps), s2, new. split; [done |]. split; [congruence |].
  split; [done |]. split; [| done].
  intros x. rewrite Hin. unfold model_set, reach_from, reset_set. split.
  - intros [(p & Hp & Hr & Hx) _]. split; [by exists p | done].
  - intros [(p & Hp & Hr) Hx]. split; [by exists p |].
    apply Hclear. split; [by exists p | done].
Qed.

End Once.

Section OnceClaim.

Context `{Backend}.

Lemma reach_from_closed (G : graph) roots n r p :
  reach_from G roots n -> G !! n = Some (Rand r) -> p ∈ rv_parents r ->
  reach_from G roots p.
Proof.
  intros (v & Hv & Hr) Hn Hp. exists v. split; [done |].
  apply reach_trans with n; [done |]. apply reach_parent with r p; [done | done |].
  constructor.
Qed.

(** C1: a random variable whose [_evaluated] flag is set returns 0 to a call
    of [calculate_log_probability] with [reevaluate=False], on the heap as it
    was and without asking its distribution.  Hence, in a diamond ([P] a
    parent of [C1] and of [C2], which are the parents of the root [R], in
    either order), on memo flags that are clear, the model-level
    [calculate_log_probability] asks the density of [P] once, and its total is
    a sum in which the own log-density of [P] is one term and no other term is
    of [P]. *)
Theorem shared_parent_is_counted_once (G : graph) :
  (∀ fuel n r input_values s,
      G !! n = Some (Rand r) -> _evaluated (get s n) = true ->
      calculate_log_probability G (S fuel) n input_values false s = Ok (lzero, s))
  ∧ (∀ fuel P C1 C2 R rP rC1 rC2 rR rv_values s,
      BackendLaws -> wf_graph G -> R < fuel ->
      G !! P = Some (Rand rP) -> G !! C1 = Some (Rand rC1) ->
      G !! C2 = Some (Rand rC2) -> G !! R = Some (Rand rR) ->
      P ∈ rv_parents rC1 -> P ∈ rv_parents rC2 ->
      rv_parents rR = [C1; C2] ∨ rv_parents rR = [C2; C1] ->
      (∀ x, reach G R x -> is_random G x -> _evaluated (get s x) = false) ->
      ∃ lp s' before after,
        pm_calculate_log_probability G fuel [R] rv_values s = Ok (lp, s')
        ∧ evals s' = evals s ++ before ++ P :: after
        ∧ (P ∉ before) ∧ (P ∉ after)
        ∧ lp = ladd (sum_of G rv_values s before)
                    (ladd (own_log_probability G rv_values s P)
                          (sum_of G rv_values s after))).
Proof.
  split.
  - intros fuel n r input_values s Hn He. simpl. rewrite Hn.
    unfold RandomVariable_calculate_log_probability. by rewrite He.
  - intros fuel P C1 C2 R rP rC1 rC2 rR rv_values s Hlaws Hwf Hlt HP HC1 HC2 HR
           HP1 HP2 Horder Hclear.
    destruct (pm_calculate_log_probability_once
                G rv_values (reach_from G [R]) Hwf (reach_from_closed G [R]) fuel [R] s)
      as (lp & s' & new & Hrun & Hev & Hnd & Hin & Hlp).
    + done.
    + intros v ->%list_elem_of_singleton. split; [done | by eexists].
    + intros x [(v & ->%list_elem_of_singleton & Hr) Hx]. by apply Hclear.
    + assert (P ∈ new) as HPnew.
      { apply Hin. split; [| by exists rP]. exists R. split; [left |].
        apply reach_parent with rR C1; [done | |].
        - destruct Horder as [-> | ->]; [left | right; left].
        - apply reach_parent with rC1 P; [done | done | constructor]. }
      apply list_elem_of_split in HPnew as (before & after & ->).
      exists lp, s', before, after. split; [done |]. split; [done |].
      apply NoDup_app in Hnd as (_ & Hdis & Hnd2).
      apply NoDup_cons in Hnd2 as [HPafter _].
      split; [| split; [done |]].
      * intros HPb. apply (Hdis P HPb). left.
      * rewrite Hlp, (sum_of_app G rv_values). done.
Qed.

End OnceClaim.

(** ** Two passes in sequence *)

Section Twice.

Context `{Backend}.
Variable G : graph.
Variable vals : gmap nat value.

Lemma lp_equiv_refl s : lp_equiv vals s s.
Proof. intros k. auto. Qed.

Lemma lp_equiv_mark n s1 s2 :
  lp_equiv vals s1 s2 ->
  lp_equiv vals (log_eval n (put n (set_evaluated true (get s1 n)) s1))
                (log_eval n (put n (set_evaluated true (get s2 n)) s2)).
Proof.
  intros He k. rewrite !get_log_eval, !get_put. destruct (He k) as (H1 & H2 & H3).
  destruct (decide (n = k)) as [<- |]; simpl; auto.
Qed.

Lemma mapM_st_rel {A B : Type} (f : A -> state -> outcome (B * state))
    (Rel : state -> state -> Prop) (l : list A) :
  (∀ a s1 s2 b s1', a ∈ l -> Rel s1 s2 -> f a s1 = Ok (b, s1') ->
                    ∃ s2', f a s2 = Ok (b, s2') ∧ Rel s1' s2') ->
  ∀ s1 s2 bs s1', Rel s1 s2 -> mapM_st f l s1 = Ok (bs, s1') ->
                  ∃ s2', mapM_st f l s2 = Ok (bs, s2') ∧ Rel s1' s2'.
Proof.
  induction l as [|a l IH]; intros Hf s1 s2 bs s1' Hrel; simpl.
  - intros [= <- <-]. by exists s2.
  - destruct (f a s1) as [[b sa] | |] eqn:Hfa; simpl; try done.
    destruct (mapM_st f l sa) as [[bs' sb] | |] eqn:Hl; simpl; try done.
    intros [= <- <-].
    destruct (Hf a s1 s2 b sa) as (sa' & -> & Hrel'); [left | done | done |]. simpl.
    destruct (IH (fun a' t1 t2 b' t1' Ha' =>
                    Hf a' t1 t2 b' t1' (proj2 (elem_of_cons l a' a) (or_intror Ha')))
                 sa sa' bs' sb Hrel' Hl) as (sb' & -> & Hrel'').
    simpl. by exists sb'.
Qed.

Lemma total_equiv n r s1 s2 lps t1 t2 :
  lp_equiv vals s1 s2 -> lp_equiv vals t1 t2 ->
  RandomVariable_calculate_log_probability_total G n r vals s1 lps t1
  = RandomVariable_calculate_log_probability_total G n r vals s2 lps t2.
Proof.
  intros Hs Ht. unfold RandomVariable_calculate_log_probability_total, rv_is_observed.
  destruct (Hs n) as (_ & _ & Hv), (Ht n) as (_ & Ho & _). rewrite Ho.
  destruct (vals !! n); [done | by rewrite Hv].
Qed.

(** The log-probability of a variable is the same on two heaps that the pass
    does not tell apart, and so are the heaps it leaves. *)
Lemma calculate_log_probability_equiv fuel :
  ∀ n re s1 s2 r s1',
    lp_equiv vals s1 s2 ->
    calculate_log_probability G fuel n vals re s1 = Ok (r, s1') ->
    ∃ s2', calculate_log_probability G fuel n vals re s2 = Ok (r, s2')
           ∧ lp_equiv vals s1' s2'.
Proof.
  induction fuel as [|fuel IH]; intros n re s1 s2 r s1' Heq; [done |]. simpl.
  destruct (G !! n) as [[d | rn] |]; [| | done].
  { intros [= <- <-]. by exists s2. }
  destruct (Heq n) as (Hflag & _).
  destruct (_evaluated (get s1 n) && negb re) eqn:He.
  { unfold RandomVariable_calculate_log_probability. rewrite <- Hflag, He.
    intros [= <- <-]. by exists s2. }
  rewrite !RandomVariable_calculate_log_probability_unfold by by rewrite <- ?Hflag.
  destruct (mapM_st _ (rv_parents rn) (log_eval n (put n _ s1)))
    as [[lps t1] | |] eqn:Hmap; simpl; try done.
  intros [= <- <-].
  destruct (mapM_st_rel (fun parent => calculate_log_probability G fuel parent vals re)
                        (lp_equiv vals) (rv_parents rn)
                        (fun a u1 u2 b u1' _ => IH a re u1 u2 b u1')
                        _ _ lps t1 (lp_equiv_mark n s1 s2 Heq) Hmap)
    as (t2 & -> & Ht).
  simpl. exists t2. split; [| done].
  by rewrite (total_equiv n rn s1 s2 lps t1 t2 Heq Ht).
Qed.

(** The same for [ProbabilisticModel.calculate_log_probability], which
    returns on an acyclic graph. *)
Lemma pm_calculate_log_probability_equiv fuel roots s1 s2 lp s1' :
  wf_graph G -> roots_in G roots fuel ->
  lp_equiv vals s1 s2 ->
  pm_calculate_log_probability G fuel roots vals s1 = Ok (lp, s1') ->
  ∃ s2', pm_calculate_log_probability G fuel roots vals s2 = Ok (lp, s2').
Proof.
  intros Hwf Hroots Heq. unfold pm_calculate_log_probability.
  destruct (mapM_st _ roots s1) as [[lps t1] | |] eqn:Hmap; simpl; try done.
  destruct (pm_reset G fuel roots t1) as [u1 | |]; simpl; try done.
  intros [= <- <-].
  destruct (mapM_st_rel (fun var => calculate_log_probability G fuel var vals false)
                        (lp_equiv vals) roots
                        (fun a u1 u2 b u1' _ =>
                           calculate_log_probability_equiv fuel a false u1 u2 b u1')
                        s1 s2 lps t1 Heq Hmap)
    as (t2 & -> & _).
  simpl. destruct (pm_reset_spec G fuel roots t2 Hwf Hroots) as (u2 & -> & _).
  simpl. by exists u2.
Qed.

(** A pass of log-probabilities leaves the observation fields as they were. *)
Lemma pm_calculate_log_probability_keeps fuel roots s lp s' :
  wf_graph G -> roots_in G roots fuel ->
  pm_calculate_log_probability G fuel roots vals s = Ok (lp, s') ->
  ∀ k, clear (get s' k) = clear (get s k).
Proof.
  intros Hwf Hroots. unfold pm_calculate_log_probability.
  destruct (roots_calculate_log_probability_spec G fuel roots vals s Hwf Hroots)
    as (lps & s1 & -> & _ & Ht). simpl.
  destruct (pm_reset_spec G fuel roots s1 Hwf Hroots) as (s2 & -> & _ & _ & Hc). simpl.
  intros [= <- <-] k. destruct (Ht k) as [Hk _]. rewrite <- Hk.
  destruct (Hc k) as [_ [-> | [_ ->]]]; [done | apply clear_clear].
Qed.

(** The heap a pass leaves is not told apart from the heap it was run on,
    when the memo flags were clear and the pass read no [_current_value]
    that the reset clears. *)
Lemma lp_equiv_after_pass fuel roots s lp s' :
  wf_graph G -> roots_in G roots fuel ->
  (∀ x, model_set G roots x -> _evaluated (get s x) = false) ->
  (∀ x, model_set G roots x -> vals !! x = None ->
        _observed (get s x) = true ∨ _current_value (get s x) = pyNone) ->
  pm_calculate_log_probability G fuel roots vals s = Ok (lp, s') ->
  lp_equiv vals s s'.
Proof.
  intros Hwf Hroots Hflags Hvalues Hrun k.
  pose proof (pm_calculate_log_probability_keeps fuel roots s lp s' Hwf Hroots Hrun k)
    as Hkeep.
  destruct (pm_calculate_log_probability_spec G fuel roots vals s Hwf Hroots)
    as (lp' & s'' & Hrun' & _ & Hclean & Hout & _).
  assert (s'' = s') as -> by congruence.
  destruct (Hout k) as [-> | Hk]; [auto |].
  destruct (Hclean k Hk) as (_ & He & Hc).
  assert (_observed (get s' k) = _observed (get s k)) as Ho
    by exact (f_equal _observed Hkeep).
  assert (_observed_value (get s' k) = _observed_value (get s k)) as Hov
    by exact (f_equal _observed_value Hkeep).
  split; [by rewrite He, Hflags |]. split; [done |].
  intros Hv. unfold rv_value. rewrite Ho, Hov.
  destruct (_observed (get s k)) eqn:Hobs; [done |].
  destruct (Hvalues k Hk Hv) as [Ht | Hn]; [congruence | by rewrite Hc, Hn].
Qed.

(** C5, as the code has it: on an acyclic graph, when the memo flags of the
    model are clear at the first call (every model entry point leaves them so)
    and every random variable of the model that [rv_values] does not bind is
    observed or has no [_current_value] (the reset on exit sets
    [_current_value] to [None]), two calls of [calculate_log_probability] in
    sequence with the same [rv_values] return, and return the same result: the
    flags the first call sets are cleared by its reset.  Whatever the heap of
    the first call, the second call and the third return the same result. *)
Theorem calculate_log_probability_twice (fuel : nat) (roots : list nat) (s : state) :
  wf_graph G -> roots_in G roots fuel ->
  ((∀ x, model_set G roots x -> _evaluated (get s x) = false) ->
   (∀ x, model_set G roots x -> vals !! x = None ->
         _observed (get s x) = true ∨ _current_value (get s x) = pyNone) ->
   ∃ lp s1 s2,
     pm_calculate_log_probability G fuel roots vals s = Ok (lp, s1)
     ∧ pm_calculate_log_probability G fuel roots vals s1 = Ok (lp, s2)
     ∧ (∀ x, model_set G roots x -> _evaluated (get s1 x) = false))
  ∧ (∃ lp1 s1 lp2 s2 s3,
       pm_calculate_log_probability G fuel roots vals s = Ok (lp1, s1)
       ∧ pm_calculate_log_probability G fuel roots vals s1 = Ok (lp2, s2)
       ∧ pm_calculate_log_probability G fuel roots vals s2 = Ok (lp2, s3)).
Proof.
  intros Hwf Hroots.
  assert (∀ s, (∀ x, model_set G roots x -> _evaluated (get s x) = false) ->
               (∀ x, model_set G roots x -> vals !! x = None ->
                     _observed (get s x) = true ∨ _current_value (get s x) = pyNone) ->
               ∃ lp s1 s2,
                 pm_calculate_log_probability G fuel roots vals s = Ok (lp, s1)
                 ∧ pm_calculate_log_probability G fuel roots vals s1 = Ok (lp, s2)
                 ∧ (∀ x, model_set G roots x -> clean (get s1 x))) as Hmain.
  { intros s0 Hflags Hvalues.
    destruct (pm_calculate_log_probability_spec G fuel roots vals s0 Hwf Hroots)
      as (lp & s1 & Hrun & _ & Hclean & _ & _).
    pose proof (lp_equiv_after_pass fuel roots s0 lp s1 Hwf Hroots Hflags Hvalues Hrun)
      as Heq.
    destruct (pm_calculate_log_probability_equiv fuel roots s0 s1 lp s1 Hwf Hroots
                                                 Heq Hrun) as (s2 & Hrun2).
    by exists lp, s1, s2. }
  split.
  - intros Hflags Hvalues.
    destruct (Hmain s Hflags Hvalues) as (lp & s1 & s2 & H1 & H2 & Hclean).
    exists lp, s1, s2. split; [done |]. split; [done |].
    intros x Hx. by destruct (Hclean x Hx) as (_ & He & _).
  - destruct (pm_calculate_log_probability_spec G fuel roots vals s Hwf Hroots)
      as (lp1 & s1 & Hrun & _ & Hclean & _ & _).
    destruct (Hmain s1) as (lp2 & s2 & s3 & H2 & H3 & _).
    + intros x Hx. by destruct (Hclean x Hx) as (_ & He & _).
    + intros x Hx _. right. by destruct (Hclean x Hx) as (_ & _ & Hc).
    + by exists lp1, s1, lp2, s2, s3.
Qed.

End Twice.

(** ** The properties on the examples *)

Section Examples.

Import IntBackend MoreExamples.
#[local] Existing Instance backend.

Lemma int_laws : @BackendLaws backend.
Proof. split; simpl; intros; lia. Qed.

Lemma coupling_wf : wf_graph coupling.
Proof. apply wf_graphb_sound. vm_compute. reflexivity. Qed.

Lemma diamond_wf : wf_graph diamond.
Proof. apply wf_graphb_sound. vm_compute. reflexivity. Qed.

Lemma single_wf : wf_graph single.
Proof. apply wf_graphb_sound. vm_compute. reflexivity. Qed.

(** The cached draw of [P] in the diamond is returned as it is. *)
Lemma cached_draw_is_reused_witness :
  ∃ cached, last (samples (get cached_heap 0)) = Some cached
    ∧ (∀ dispatch,
         RandomVariable_get_sample diamond dispatch 0 1 false true ∅ cached_heap
         = Ok ({[ 0 := cached ]}, cached_heap))
    ∧ _get_sample diamond 1 0 1 false true ∅ cached_heap
      = Ok ({[ 0 := cached ]}, cached_heap).
Proof.
  eapply (cached_draw_is_reused diamond 0 0 1 _ true ∅ cached_heap).
  - reflexivity.
  - vm_compute. discriminate.
Defined.

(** A model of the diamond, on a heap that holds a stale draw: the entry
    points return on a cleared heap. *)
Lemma reset_on_exit_witness :
  wf_graph diamond ∧ roots_in diamond [3] 4
  ∧ ∀ rv_values, ∃ lp s',
      pm_calculate_log_probability diamond 4 [3] rv_values cached_heap = Ok (lp, s')
      ∧ (∀ k, reach_from diamond [3] k -> is_random diamond k -> clean (get s' k))
      ∧ (∀ s_r, pm_reset diamond 4 [3] cached_heap = Ok s_r -> ∀ k, get s' k = get s_r k).
Proof.
  assert (wf_graph diamond) as Hwf by (apply wf_graphb_sound; vm_compute; reflexivity).
  assert (roots_in diamond [3] 4) as Hroots
    by (apply roots_inb_sound; vm_compute; reflexivity).
  split; [exact Hwf |]. split; [exact Hroots |].
  exact (proj1 (reset_on_exit diamond 4
                  {| variables := [3]; observed_submodel := []; posterior_model := None |}
                  cached_heap Hwf Hroots)).
Defined.

(** C3 fails as stated: [x] is observed with the data 7 and its cache is
    empty, yet sampling the model that declares it (its [get_sample] samples
    with [observed=False]) binds [x] to a draw of its own distribution, not
    to the data. *)
Lemma model_get_sample_redraws_observed :
  _observed (get observed_heap 0) = true
  ∧ has_observed_value (get observed_heap 0) = true
  ∧ _observed_value (get observed_heap 0) = Some 7%Z
  ∧ samples (get observed_heap 0) = []
  ∧ ∃ d s', pm_get_sample single 1 [0] 1 ∅ observed_heap = Ok (d, s')
            ∧ d !! 0 = Some (Some 10%Z)
            ∧ d !! 0 ≠ Some (_observed_value (get observed_heap 0))
            ∧ draws s' = [(0, 0)].
Proof.
  repeat split.
  eexists _, _. split; [vm_compute; reflexivity |].
  split; [reflexivity |]. split; [discriminate | reflexivity].
Qed.

(** The diamond with [P] observed with the data 7: on the node, by
    [get_sample], and in a sample of the model in observed mode, where [C1]
    and [C2] are drawn on the data and the distribution of [P] is not
    asked. *)
Lemma observed_value_is_returned_witness :
  has_observed_value (get observed_parent_heap 0) = true
  ∧ samples (get observed_parent_heap 0) = []
  ∧ (∀ fuel number_samples resample input_values,
        _get_sample diamond (S fuel) 0 number_samples resample true input_values
                    observed_parent_heap
        = Ok ({[ 0 := Some 7%Z ]}, observed_parent_heap))
  ∧ (∃ s', get_sample diamond 1 0 1 ∅ observed_parent_heap = Ok ({[ 0 := Some 7%Z ]}, s')
           ∧ draws s' = [])
  ∧ ∃ d s', pm__get_sample diamond 4 [3] 1 true ∅ observed_parent_heap = Ok (d, s')
            ∧ draws s' = [(1, 1); (2, 2); (3, 3)]
            ∧ d !! 0 = Some (Some 7%Z)
            ∧ ∀ e, e ∈ draws s' -> e.1 ≠ 0 ∧ e.2 ≠ 0.
Proof.
  split; [reflexivity |]. split; [reflexivity |].
  destruct (proj1 (observed_value_is_returned diamond 0 _ observed_parent_heap
                     eq_refl eq_refl) eq_refl) as (Ha & Hb & Hc).
  split; [exact Ha |]. split.
  { destruct (Hb 1 1 ∅ diamond_wf ltac:(lia) eq_refl) as (s' & Hs' & Hd & _).
    exists s'. split; [exact Hs' | exact Hd]. }
  assert (∃ d s', pm__get_sample diamond 4 [3] 1 true ∅ observed_parent_heap = Ok (d, s')
                  ∧ draws s' = [(1, 1); (2, 2); (3, 3)]) as (d & s' & Hrun & Hdraws).
  { eexists _, _. split; [vm_compute; reflexivity | reflexivity]. }
  exists d, s'. split; [exact Hrun |]. split; [exact Hdraws |].
  destruct (Hc 4 [3] 1 ∅ d s' Hrun) as (Hbind & _ & Hnone).
  split.
  - destruct (Hbind eq_refl) as (_ & _ & Hgiven).
    assert ((1, 1) ∈ draws s') as Hin by (rewrite Hdraws; left).
    destruct (Hgiven (1, 1) _ Hin eq_refl ltac:(left)) as [Hold | Hd]; [| exact Hd].
    by apply elem_of_nil in Hold.
  - intros e He. destruct (Hnone) with e as [Hold | Hnew]; [| exact He | | exact Hnew].
    + intros m (_ & Hr & _). unfold get in Hr. simpl in Hr.
      destruct (decide (m = 0)) as [-> | Hne]; [vm_compute in Hr; discriminate |].
      rewrite lookup_total_alt, lookup_singleton_ne in Hr by done. discriminate.
    + by apply elem_of_nil in Hold.
Defined.

(** C6, on the code: the lookup of a name that no variable has raises the
    [KeyError] of the dictionary subscript, not the [ValueError] with the
    message: the handler of [get_variable] catches [ValueError] only.  A name
    that a variable has is found. *)
Theorem get_variable_absent_raises_KeyError :
  get_variable single (_flatten single 1 0) "z" = Raise (KeyError (KStr "z"))
  ∧ get_variable single (_flatten single 1 0) "z" ≠ Raise (ValueError (not_present "z"))
  ∧ get_variable single (_flatten single 1 0) "x" = Ok 0
  ∧ get_variable diamond (pm_flatten diamond 4 [3]) "sigma"
    = Raise (KeyError (KStr "sigma"))
  ∧ get_variable diamond (pm_flatten diamond 4 [3]) "P" = Ok 0.
Proof.
  split; [vm_compute; reflexivity |]. split; [vm_compute; discriminate |].
  split; [vm_compute; reflexivity |]. split; vm_compute; reflexivity.
Qed.

Lemma coupling_unique_posterior : unique_names coupling [2].
Proof.
  intros a b nm Ha Hb _ _. apply list_elem_of_singleton in Ha, Hb. congruence.
Qed.

Lemma coupling_unique_joint : unique_names coupling [0; 1].
Proof.
  intros a b nm Ha Hb Hna Hnb.
  repeat (apply elem_of_cons in Ha as [-> | Ha]);
    repeat (apply elem_of_cons in Hb as [-> | Hb]);
    try done; try (by apply elem_of_nil in Ha); try (by apply elem_of_nil in Hb);
    vm_compute in Hna, Hnb; congruence.
Qed.

(** The coupling of the posterior model [mu_post] with the joint model
    [mu_post], [sigma]: the two variables [mu_post] are paired, and [sigma] is
    in no pair. *)
Lemma model_mapping_couples_by_name_witness :
  pm_flatten coupling 1 [2] = Ok [2]
  ∧ pm_flatten coupling 1 [0; 1] = Ok [0; 1]
  ∧ ∃ pm, PosteriorModel_init coupling 1 [2] [0; 1] = Ok pm
          ∧ (∀ p j, model_mapping pm !! p = Some j ->
                    p ∈ [2] ∧ j ∈ [0; 1] ∧ same_name coupling p j)
          ∧ model_mapping pm !! 2 = Some 0
          ∧ (∀ p, model_mapping pm !! p ≠ Some 1).
Proof.
  split; [reflexivity |]. split; [reflexivity |].
  destruct (model_mapping_couples_by_name coupling 1 [2] [0; 1] [2] [0; 1]
              eq_refl eq_refl) as (pm & Hinit & _ & _ & Hsound & Hcompl & Hskip & _).
  exists pm. split; [exact Hinit |]. split; [exact Hsound |]. split.
  - apply (Hcompl coupling_unique_posterior coupling_unique_joint 2 0).
    + left.
    + left.
    + exists "mu_post". split; reflexivity.
  - apply (Hskip 1).
    + right. left.
    + intros p Hp (nm & Hnp & Hnj). apply list_elem_of_singleton in Hp. subst p.
      vm_compute in Hnp, Hnj. congruence.
Defined.

(** C8, on the code: [e = y * 2] is a link over [{y}]; after [x + e] the
    field [vars] of [e] shows [{x, y}]: the operator added [x] to the set of
    its operand, which the new link shares.  The same operator with the link
    first, [e + x], builds a set of its own and leaves [e] as it was. *)
Theorem Variable_operator_changes_operand :
  ∃ e h1 f h2,
    Variable_apply_operator 1 (OpNumber (Some 2%Z)) op_mul [] = Ok (e, h1)
    ∧ vars_of e h1 = Some {[ 1 ]}
    ∧ Variable_apply_operator 0 (OpLink e) op_add h1 = Ok (f, h2)
    ∧ vars_of e h2 = Some {[ 0; 1 ]}
    ∧ vars_of e h2 ≠ vars_of e h1
    ∧ vars f = vars e ∧ links f = links e
    ∧ ∃ g h3,
        PartialLink_apply_operator e (OpVariable 0) op_add h1 = Ok (g, h3)
        ∧ vars_of g h3 = Some {[ 0; 1 ]}
        ∧ vars_of e h3 = vars_of e h1
        ∧ links_of e h3 = links_of e h1.
Proof.
  eexists _, _, _, _. split; [reflexivity |]. split; [reflexivity |].
  split; [reflexivity |]. split; [vm_compute; reflexivity |].
  split; [vm_compute; discriminate |]. split; [reflexivity |]. split; [reflexivity |].
  eexists _, _. split; [reflexivity |]. split; [vm_compute; reflexivity |].
  split; reflexivity.
Qed.

(** The diamond on the heap the constructors leave, with no value bound: the
    density of [P] is asked once. *)
Lemma shared_parent_is_counted_once_witness :
  BackendLaws ∧ wf_graph diamond
  ∧ ∃ lp s' before after,
      pm_calculate_log_probability diamond 4 [3] ∅ fresh_heap = Ok (lp, s')
      ∧ evals s' = evals fresh_heap ++ before ++ 0 :: after
      ∧ (0 ∉ before) ∧ (0 ∉ after)
      ∧ lp = ladd (sum_of diamond ∅ fresh_heap before)
                  (ladd (own_log_probability diamond ∅ fresh_heap 0)
                        (sum_of diamond ∅ fresh_heap after)).
Proof.
  split; [exact int_laws |]. split; [exact diamond_wf |].
  eapply (proj2 (shared_parent_is_counted_once diamond) 4 0 1 2 3 _ _ _ _ ∅ fresh_heap
                int_laws diamond_wf).
  - lia.
  - reflexivity.
  - reflexivity.
  - reflexivity.
  - reflexivity.
  - left.
  - left.
  - left. reflexivity.
  - intros x _ _. reflexivity.
Defined.

(** C5 fails as stated: after [x.value = 2] the first call, with no value
    bound, scores [x] at its value 2, and the reset on exit sets
    [_current_value] to [None]; the second call scores [x] at [None]. *)
Lemma calculate_log_probability_twice_differs :
  _evaluated (get valued_heap 0) = false
  ∧ ∃ lp1 s1 lp2 s2,
      pm_calculate_log_probability single 1 [0] ∅ valued_heap = Ok (lp1, s1)
      ∧ pm_calculate_log_probability single 1 [0] ∅ s1 = Ok (lp2, s2)
      ∧ lp1 = (-65)%Z ∧ lp2 = 0%Z ∧ lp1 ≠ lp2.
Proof.
  split; [reflexivity |].
  eexists _, _, _, _. split; [vm_compute; reflexivity |].
  split; [vm_compute; reflexivity |]. split; [reflexivity |].
  split; [reflexivity | discriminate].
Qed.

(** Two calls on the diamond, from the heap the constructors leave. *)
Lemma calculate_log_probability_twice_witness :
  wf_graph diamond ∧ roots_in diamond [3] 4
  ∧ ∃ lp s1 s2,
      pm_calculate_log_probability diamond 4 [3] {[ 0 := Some 1%Z ]} fresh_heap
      = Ok (lp, s1)
      ∧ pm_calculate_log_probability diamond 4 [3] {[ 0 := Some 1%Z ]} s1 = Ok (lp, s2)
      ∧ (∀ x, model_set diamond [3] x -> _evaluated (get s1 x) = false).
Proof.
  assert (roots_in diamond [3] 4) as Hroots
    by (apply roots_inb_sound; vm_compute; reflexivity).
  split; [exact diamond_wf |]. split; [exact Hroots |].
  eapply (proj1 (calculate_log_probability_twice diamond {[ 0 := Some 1%Z ]} 4 [3]
                   fresh_heap diamond_wf Hroots)).
  - intros x _. reflexivity.
  - intros x _ _. right. reflexivity.
Defined.

(** Sampling the model of the diamond draws [P] once: [C1] draws it, and
    [C2] is handed the cached draw. *)
Lemma diamond_is_sampled_once :
  ∃ d s', pm_get_sample diamond 4 [3] 1 ∅ fresh_heap = Ok (d, s')
          ∧ draws s' = [(0, 0); (1, 1); (2, 2); (3, 3)].
Proof. eexists _, _. split; [vm_compute; reflexivity | reflexivity]. Qed.

(** C2, on the code: sampling in observed mode follows the random dataset
    of a variable to the parents of the dataset, and the reset on exit follows
    [parents] only.  On a heap where every variable is clean, [x] is observed
    with the random variable [d], whose parent is [p]: [x.get_sample(1)]
    draws [p] for the dataset and returns with [x] clean, but [p] still holds
    the draw of the finished pass.  The caller sees it: the next
    [p.get_sample(1)] hands the stale draw out and asks no distribution,
    where it draws anew once [p] is reset.  A sample of the model that
    declares [x], in observed mode, leaves the same draw. *)
Theorem reset_misses_the_parents_of_a_dataset :
  (∀ k, clean (get dataset_heap k))
  ∧ (∃ d s',
       get_sample with_dataset 3 2 1 ∅ dataset_heap = Ok (d, s')
       ∧ draws s' = [(0, 0); (2, 1)]
       ∧ clean (get s' 2)
       ∧ samples (get s' 0) = [Some 0%Z]
       ∧ ¬ clean (get s' 0)
       ∧ (∃ d2 s2, get_sample with_dataset 3 0 1 ∅ s' = Ok (d2, s2)
                   ∧ d2 = {[ 0 := Some 0%Z ]}
                   ∧ draws s2 = draws s')
       ∧ (∃ s_r d3 s3, reset with_dataset 3 0 s' = Ok s_r
                       ∧ get_sample with_dataset 3 0 1 ∅ s_r = Ok (d3, s3)
                       ∧ d3 = {[ 0 := Some 2%Z ]}
                       ∧ draws s3 = draws s' ++ [(0, 0)]))
  ∧ ∃ d s', pm__get_sample with_dataset 3 [2] 1 true ∅ dataset_heap = Ok (d, s')
            ∧ clean (get s' 2)
            ∧ samples (get s' 0) = [Some 0%Z].
Proof.
  split; [| split].
  - intros k. unfold get. simpl. destruct (decide (k = 2)) as [-> | Hne].
    + vm_compute. auto.
    + rewrite lookup_total_alt, lookup_singleton_ne by done. by repeat split.
  - eexists _, _. split; [vm_compute; reflexivity |]. split; [reflexivity |].
    split; [vm_compute; auto |]. split; [reflexivity |].
    split; [intros (Hs & _); vm_compute in Hs; discriminate |]. split.
    + eexists _, _. split; [vm_compute; reflexivity |]. split; reflexivity.
    + eexists _, _, _. split; [vm_compute; reflexivity |].
      split; [vm_compute; reflexivity |]. split; reflexivity.
  - eexists _, _. split; [vm_compute; reflexivity |]. split; [vm_compute; auto |].
    reflexivity.
Qed.

(** The parent [p] of the dataset is not among the variables that the reset
    of [x] reaches. *)
Lemma dataset_parent_is_not_reached : ¬ reach with_dataset 2 0.
Proof.
  intros Hr. inversion Hr as [| n r p m Hn Hp Hpm]; subst.
  injection Hn as <-. by apply elem_of_nil in Hp.
Qed.

End Examples.

(** * Further properties of [variables.py] *)

(** ** A sampling pass *)

Section Live.

Context `{Backend}.
Variable G : graph.
Variable iv : gmap nat value.

Lemma live_reach n m : live G iv n m -> reach G n m.
Proof. induction 1; [constructor | by econstructor]. Qed.

Lemma live_trans n m k : live G iv n m -> live G iv m k -> live G iv n k.
Proof. induction 1; [done | intros; econstructor; eauto]. Qed.

Lemma live_inv n y :
  live G iv n y ->
  y = n ∨ ∃ r p, G !! n = Some (Rand r) ∧ iv !! n = None ∧ p ∈ rv_parents r
                 ∧ live G iv p y.
Proof.
  destruct 1 as [|n r p m Hn Hi Hp Hl]; [by left |].
  right. exists r, p. auto.
Qed.

Lemma live_le n m : wf_graph G -> live G iv n m -> m ≤ n.
Proof. intros Hwf Hl. by apply (reach_le G), live_reach. Qed.

Lemma live_step n r p y :
  G !! n = Some (Rand r) -> iv !! n = None -> p ∈ rv_parents r ->
  live G iv p y -> live G iv n y.
Proof. intros. by econstructor. Qed.

End Live.

Section SamplePass.

Context `{Backend}.
Variable G : graph.
Variable number_samples : nat.
Variable iv : gmap nat value.
Hypothesis Hwf : wf_graph G.

Lemma sampled_refl s : sampled G number_samples iv s s [].
Proof.
  split; [by rewrite app_nil_r |]. split; [done |]. split; [constructor |].
  split; [by intros x ?%elem_of_nil | done].
Qed.

Lemma binding_mono s s' new x v :
  sampled G number_samples iv s s' new ->
  binding G number_samples iv s x = Some v -> binding G number_samples iv s' x = Some v.
Proof.
  intros (_ & _ & _ & Hnew & Hold). unfold binding.
  destruct (G !! x) as [[d | r] |]; [done | | done].
  destruct (decide (x ∈ new)) as [Hx | Hx].
  - destruct (Hnew x Hx) as (Hs & Hi & _). rewrite Hs, Hi. done.
  - by rewrite (Hold x Hx).
Qed.

Lemma drawn_as_mono s s' new x v :
  sampled G number_samples iv s s' new ->
  drawn_as G number_samples iv s x v -> drawn_as G number_samples iv s' x v.
Proof.
  intros Hs (r & M & i & j & Hx & HM & Hi & Hv & Hj).
  exists r, M, i, j. split; [done |]. split; [| split; [done | split; [done |]]].
  - intros p Hp. destruct (HM p Hp) as [[w Hw] Hb]. split; [by eexists |].
    rewrite Hw in Hb |- *. symmetry. by apply (binding_mono s s' new).
  - destruct Hs as (Hd & _). rewrite Hd. by apply lookup_app_l_Some.
Qed.

Lemma sampled_trans s s1 s2 new1 new2 :
  sampled G number_samples iv s s1 new1 -> sampled G number_samples iv s1 s2 new2 ->
  sampled G number_samples iv s s2 (new1 ++ new2).
Proof.
  intros H1 H2.
  pose proof H1 as (Hd1 & He1 & Hnd1 & Hnew1 & Hold1).
  pose proof H2 as (Hd2 & He2 & Hnd2 & Hnew2 & Hold2).
  assert (∀ x, x ∈ new1 -> x ∈ new2 -> False) as Hdis.
  { intros x Hx1 Hx2. destruct (Hnew1 x Hx1) as (_ & _ & v & Hg & _).
    destruct (Hnew2 x Hx2) as (Hs & _). rewrite Hg in Hs. done. }
  split; [by rewrite Hd2, Hd1, fmap_app, app_assoc |]. split; [congruence |].
  split; [apply NoDup_app; split; [done | split; [| done]]; intros x ? ?; by eapply Hdis |].
  split.
  - intros x [Hx | Hx]%elem_of_app.
    + destruct (Hnew1 x Hx) as (Hs & Hi & v & Hg & Hdr).
      split; [done |]. split; [done |]. exists v. split.
      * rewrite Hold2; [done |]. intros Hx2. by eapply Hdis.
      * by apply (drawn_as_mono s1 s2 new2).
    + destruct (Hnew2 x Hx) as (Hs & Hi & v & Hg & Hdr).
      assert (x ∉ new1) as Hx1 by (intros Hx1; by eapply Hdis).
      rewrite (Hold1 x Hx1) in Hs, Hg. split; [done |]. split; [done |].
      by exists v.
  - intros x Hx. rewrite elem_of_app in Hx.
    rewrite Hold2, Hold1; [done | tauto | tauto].
Qed.

Lemma input_dict_of_ext (M M' : gmap nat value) ps :
  (∀ p, p ∈ ps -> M' !! p = M !! p) -> input_dict_of M' ps = input_dict_of M ps.
Proof.
  induction ps as [|q ps IH]; intros Hext; simpl; [done |].
  rewrite (Hext q) by left. rewrite IH; [done |]. intros p Hp. apply Hext. by right.
Qed.

(** The calls on a list of variables. *)
Lemma sample_list fuel ps :
  (∀ p s, p ∈ ps ->
     ∃ d s' new,
       _get_sample G fuel p number_samples false false iv s = Ok (d, s')
       ∧ sampled G number_samples iv s s' new
       ∧ (∀ x v, d !! x = Some v -> binding G number_samples iv s' x = Some v ∧ live G iv p x)
       ∧ is_Some (d !! p)
       ∧ (∀ x, x ∈ new -> live G iv p x)
       ∧ (∀ c, c = p ∨ c ∈ new -> ∀ y, live G iv c y ->
               is_Some (d !! y) ∨ behind G iv (live G iv p) s y)) ->
  ∀ s, ∃ ds s' new,
    mapM_st (fun p => _get_sample G fuel p number_samples false false iv) ps s
    = Ok (ds, s')
    ∧ sampled G number_samples iv s s' new
    ∧ (∀ d, d ∈ ds -> ∀ x v, d !! x = Some v ->
            binding G number_samples iv s' x = Some v ∧ ∃ p, p ∈ ps ∧ live G iv p x)
    ∧ Forall2 (fun p d => is_Some (d !! p)) ps ds
    ∧ (∀ x, x ∈ new -> ∃ p, p ∈ ps ∧ live G iv p x)
    ∧ (∀ c, c ∈ ps ∨ c ∈ new -> ∀ y, live G iv c y ->
            (∃ d, d ∈ ds ∧ is_Some (d !! y))
            ∨ behind G iv (fun x => ∃ p, p ∈ ps ∧ live G iv p x) s y).
Proof.
  induction ps as [|p ps IH]; intros Hone s; simpl.
  - exists [], s, []. split; [done |]. split; [apply sampled_refl |].
    split; [by intros d ?%elem_of_nil |]. split; [constructor |].
    split; [by intros x ?%elem_of_nil |].
    intros c [Hc | Hc]; by apply elem_of_nil in Hc.
  - destruct (Hone p s) as (d1 & s1 & new1 & -> & Hs1 & Hb1 & Hk1 & Hl1 & Hc1); [left |].
    simpl.
    destruct (IH (fun q s Hq => Hone q s (proj2 (elem_of_cons ps q p) (or_intror Hq))) s1)
      as (ds & s2 & new2 & -> & Hs2 & Hb2 & Hk2 & Hl2 & Hc2).
    simpl. exists (d1 :: ds), s2, (new1 ++ new2). split; [done |].
    split; [by apply sampled_trans with s1 |].
    assert (∀ c y, (c = p ∨ c ∈ new1) -> live G iv c y ->
              (∃ d, d ∈ d1 :: ds ∧ is_Some (d !! y))
              ∨ behind G iv (fun x => ∃ q, q ∈ p :: ps ∧ live G iv q x) s y) as Hfirst.
    { intros c y Hc Hy. destruct (Hc1 c Hc y Hy) as [Hd | (c0 & Hc0 & Hr0 & Hs0 & Hy0)].
      - left. exists d1. split; [left | done].
      - right. exists c0. split; [exists p; split; [left | done] | done]. }
    split; [| split; [| split]].
    + intros d Hd x v Hx. apply elem_of_cons in Hd as [-> | Hd].
      * destruct (Hb1 x v Hx) as [Hb Hl]. split; [by apply (binding_mono s1 s2 new2) |].
        exists p. split; [left | done].
      * destruct (Hb2 d Hd x v Hx) as [Hb (q & Hq & Hl)]. split; [done |].
        exists q. split; [by right | done].
    + by constructor.
    + intros x [Hx | Hx]%elem_of_app.
      * exists p. split; [left | by apply Hl1].
      * destruct (Hl2 x Hx) as (q & Hq & Hl). exists q. split; [by right | done].
    + intros c Hc y Hy.
      assert (c = p ∨ c ∈ new1 ∨ c ∈ ps ∨ c ∈ new2) as Hc'.
      { rewrite elem_of_cons, elem_of_app in Hc. tauto. }
      destruct Hc' as [Hc' | [Hc' | Hc']]; [apply (Hfirst c y); auto | apply (Hfirst c y); auto |].
      destruct (Hc2 c Hc' y Hy) as [(d & Hd & Hdy) | (c0 & (q & Hq & Hlq) & Hr0 & Hs0 & Hy0)].
      * left. exists d. split; [by right | done].
      * destruct (decide (c0 ∈ new1)) as [Hin | Hin]; [apply (Hfirst c0 y); auto |].
        right. exists c0. split; [exists q; split; [by right | done] |].
        split; [done |]. split; [| done].
        destruct Hs1 as (_ & _ & _ & _ & Hold). by rewrite <- (Hold c0 Hin).
Qed.

Lemma binding_put_ne n st s x :
  x ≠ n -> binding G number_samples iv (put n st s) x = binding G number_samples iv s x.
Proof. intros Hne. unfold binding. by rewrite get_put_ne. Qed.

(** A call on the variable [n]. *)
Lemma sample_call fuel :
  ∀ n s, is_Some (G !! n) -> n < fuel ->
    ∃ d s' new,
      _get_sample G fuel n number_samples false false iv s = Ok (d, s')
      ∧ sampled G number_samples iv s s' new
      ∧ (∀ x v, d !! x = Some v -> binding G number_samples iv s' x = Some v ∧ live G iv n x)
      ∧ is_Some (d !! n)
      ∧ (∀ x, x ∈ new -> live G iv n x)
      ∧ (∀ c, c = n ∨ c ∈ new -> ∀ y, live G iv c y ->
              is_Some (d !! y) ∨ behind G iv (live G iv n) s y).
Proof.
  induction fuel as [|fuel IH]; intros n s [nd Hn] Hlt; [lia |].
  simpl. rewrite Hn. destruct nd as [dn | r].
  { eexists _, s, []. split; [done |]. split; [apply sampled_refl |].
    assert (∀ x v, DeterministicVariable_get_sample n dn number_samples iv !! x = Some v
                   -> x = n) as Hkey.
    { intros x v. unfold DeterministicVariable_get_sample.
      destruct (is_chainer_Variable _); by intros [-> _]%lookup_singleton_Some. }
    split; [| split; [apply DeterministicVariable_get_sample_key |
                      split; [by intros x ?%elem_of_nil |]]].
    - intros x v Hx. pose proof (Hkey x v Hx) as ->. split; [| constructor].
      unfold binding. by rewrite Hn.
    - intros c [-> | Hc%elem_of_nil] y Hy; [| done].
      apply live_inv in Hy as [-> | (r & p & Hr & _)]; [| congruence].
      left. apply DeterministicVariable_get_sample_key. }
  unfold RandomVariable_get_sample.
  destruct (last (samples (get s n))) as [cached |] eqn:Hc.
  { eexists _, s, []. split; [done |]. split; [apply sampled_refl |].
    split; [| split; [rewrite lookup_singleton_eq; by eexists |
                      split; [by intros x ?%elem_of_nil |]]].
    - intros x v [-> <-]%lookup_singleton_Some. split; [| constructor].
      unfold binding. by rewrite Hn, Hc.
    - intros c [-> | Hc'%elem_of_nil] y Hy; [| done].
      right. exists n. split; [constructor |]. split; [by exists r |]. split; [| done].
      intros He. by rewrite He in Hc. }
  apply last_None in Hc.
  unfold choose_target. simpl.
  destruct (iv !! n) as [w |] eqn:Hin; simpl.
  { eexists _, s, []. split; [done |]. split; [apply sampled_refl |].
    split; [| split; [rewrite lookup_singleton_eq; by eexists |
                      split; [by intros x ?%elem_of_nil |]]].
    - intros x v [-> <-]%lookup_singleton_Some. split; [| constructor].
      unfold binding. by rewrite Hn, Hc, Hin.
    - intros c [-> | Hc'%elem_of_nil] y Hy; [| done].
      apply live_inv in Hy as [-> | (r' & p & _ & Hi & _)]; [| congruence].
      left. rewrite lookup_singleton_eq. by eexists. }
  rewrite Hn.
  destruct (sample_list fuel (rv_parents r)) with (s := s)
    as (ds & s1 & new1 & -> & Hs1 & Hb1 & Hk1 & Hl1 & Hc1).
  { intros p sp Hp. destruct (Hwf n r Hn p Hp) as [Hpn Hpin]. apply IH; [done | lia]. }
  simpl.
  destruct (input_dict_of_ok (join_dicts_list ds) (rv_parents r)) as [i Hi].
  { intros p Hp. by apply Forall2_keys with (rv_parents r). }
  rewrite Hi. simpl.
  set (v := dist_get_sample (rv_distribution r) (apply_link (rv_link r) i) number_samples
                            (length (draws s1))).
  set (s2 := put n _ _).
  assert (n ∉ new1) as Hnn.
  { intros Hx. destruct (Hl1 n Hx) as (p & Hp & Hl).
    destruct (Hwf n r Hn p Hp) as [Hpn _]. apply live_le in Hl; [lia | done]. }
  pose proof Hs1 as (Hd1 & He1 & Hnd1 & Hnew1 & Hold1).
  assert (get s1 n = get s n) as Hsame by by apply Hold1.
  assert (get s2 n = set_samples [v] (get s1 n)) as Hg2.
  { unfold s2. rewrite get_put_eq, get_log_draw, Hsame, Hc. done. }
  assert (∀ x, x ≠ n -> binding G number_samples iv s2 x = binding G number_samples iv s1 x)
    as Hbne.
  { intros x Hx. unfold s2. by rewrite binding_put_ne. }
  assert (binding G number_samples iv s2 n = Some v) as Hbn.
  { unfold binding. by rewrite Hn, Hg2. }
  assert (∀ x w, join_dicts_list ds !! x = Some w ->
                 binding G number_samples iv s1 x = Some w ∧ x ≠ n
                 ∧ ∃ p, p ∈ rv_parents r ∧ live G iv p x)
    as Hjoin.
  { intros x w (d & Hd & Hx)%join_dicts_list_lookup.
    destruct (Hb1 d Hd x w Hx) as [Hb (p & Hp & Hl)]. split; [done |].
    split; [| by exists p].
    intros ->. destruct (Hwf n r Hn p Hp) as [Hpn _]. apply live_le in Hl; [lia | done]. }
  assert (sampled G number_samples iv s1 s2 [n]) as Hs2.
  { split; [done |]. split; [done |]. split; [apply NoDup_singleton |]. split.
    - intros x ->%list_elem_of_singleton. split; [by rewrite Hsame |]. split; [done |].
      exists v. split; [done |].
      exists r, (join_dicts_list ds), i, (length (draws s1)). split; [done |].
      split; [| split; [done | split; [done |]]].
      + intros p Hp.
        assert (is_Some (join_dicts_list ds !! p)) as [w Hw]
          by by apply Forall2_keys with (rv_parents r).
        split; [by eexists |]. destruct (Hjoin p w Hw) as (Hb & Hne & _).
        by rewrite Hbne, Hb.
      + unfold s2. simpl. by rewrite lookup_app_r, Nat.sub_diag.
    - intros x Hx. unfold s2. rewrite get_put_ne, get_log_draw; [done |].
      intros ->. apply Hx. left. }
  eexists _, s2, (new1 ++ [n]). split; [done |].
  split; [by apply sampled_trans with s1 |].
  split; [| split; [rewrite lookup_insert_eq; by eexists | split]].
  - intros x w Hx. destruct (decide (n = x)) as [<- | Hne].
    + rewrite lookup_insert_eq in Hx. injection Hx as <-. split; [done | constructor].
    + rewrite lookup_insert_ne in Hx by done.
      destruct (Hjoin x w Hx) as (Hb & _ & p & Hp & Hl).
      split; [by rewrite Hbne | by apply live_step with r p].
  - intros x [Hx | ->%list_elem_of_singleton]%elem_of_app; [| constructor].
    destruct (Hl1 x Hx) as (p & Hp & Hl). by apply live_step with r p.
  - assert (∀ c y, c ∈ rv_parents r ∨ c ∈ new1 -> live G iv c y ->
              is_Some ((<[n := v]> (join_dicts_list ds)) !! y)
              ∨ behind G iv (live G iv n) s y) as Hrest.
    { intros c y Hcc Hy.
      destruct (Hc1 c Hcc y Hy) as [(d & Hd & Hdy) | (c0 & (p & Hp & Hl) & Hr0 & Hs0 & Hy0)].
      - left. rewrite lookup_insert_is_Some'. right.
        apply join_dicts_list_is_Some. by exists d.
      - right. exists c0. split; [by apply live_step with r p | done]. }
    intros c Hcc y Hy.
    assert (c = n ∨ c ∈ new1) as [-> | Hc'].
    { rewrite elem_of_app, list_elem_of_singleton in Hcc. tauto. }
    + apply live_inv in Hy as [-> | (r' & p & Hr' & _ & Hp & Hl)].
      * left. rewrite lookup_insert_eq. by eexists.
      * assert (r' = r) as -> by congruence. apply (Hrest p y); auto.
    + apply (Hrest c y); auto.
Qed.

(** The calls of [ProbabilisticModel._get_sample] on the roots, from caches
    that are empty. *)
Lemma sample_roots fuel roots s :
  roots_in G roots fuel ->
  (∀ x, reach_from G roots x -> samples (get s x) = []) ->
  ∃ ds s1 new,
    mapM_st (fun var => _get_sample G fuel var number_samples false false iv) roots s
    = Ok (ds, s1)
    ∧ sampled G number_samples iv s s1 new
    ∧ (∀ x, x ∈ new ↔ live_from G iv roots x ∧ is_random G x ∧ iv !! x = None)
    ∧ (∀ x, is_Some (join_dicts_list ds !! x) ↔ live_from G iv roots x)
    ∧ (∀ x w, join_dicts_list ds !! x = Some w -> binding G number_samples iv s1 x = Some w).
Proof.
  intros Hroots Hclean.
  destruct (sample_list fuel roots) with (s := s)
    as (ds & s1 & new & Hrun & Hs1 & Hb1 & Hk1 & Hl1 & Hc1).
  { intros p sp Hp. destruct (Hroots p Hp) as [Hlt Hin]. by apply sample_call. }
  exists ds, s1, new. split; [done |]. split; [done |].
  pose proof Hs1 as (Hd1 & He1 & Hnd1 & Hnew1 & Hold1).
  assert (∀ x, is_Some (join_dicts_list ds !! x) ↔ live_from G iv roots x) as Hdom.
  { intros x. rewrite join_dicts_list_is_Some. split.
    - intros (d & Hd & [w Hw]). by destruct (Hb1 d Hd x w Hw) as [_ ?].
    - intros (p & Hp & Hl).
      destruct (Hc1 p (or_introl Hp) x Hl) as [? | (c0 & (q & Hq & Hlq) & _ & Hs0 & _)];
        [done |].
      destruct Hs0. apply Hclean. exists q. split; [done | by apply live_reach with iv]. }
  assert (∀ x w, join_dicts_list ds !! x = Some w ->
                 binding G number_samples iv s1 x = Some w) as Hagree.
  { intros x w (d & Hd & Hx)%join_dicts_list_lookup. by destruct (Hb1 d Hd x w Hx). }
  split; [| by split].
  intros x. split.
  - intros Hx. destruct (Hnew1 x Hx) as (_ & Hi & v & _ & (r & _ & _ & _ & Hr & _)).
    split; [by apply Hl1 |]. split; [by exists r | done].
  - intros ((p & Hp & Hl) & [r Hr] & Hi).
    destruct (decide (x ∈ new)) as [Hx | Hx]; [done |]. exfalso.
    assert (is_Some (join_dicts_list ds !! x)) as [w Hw] by (apply Hdom; by exists p).
    apply Hagree in Hw. unfold binding in Hw. rewrite Hr, (Hold1 x Hx), Hi in Hw.
    rewrite Hclean in Hw; [done |]. exists p. split; [done | by apply live_reach with iv].
Qed.

End SamplePass.

Section SampleModel.

Context `{Backend}.
Variable G : graph.

Lemma live_empty n m : live G ∅ n m ↔ reach G n m.
Proof.
  split; [apply live_reach |].
  induction 1 as [|n r p m Hn Hp _ IH]; [constructor |].
  by apply live_parent with r p.
Qed.

Lemma live_from_empty roots m : live_from G ∅ roots m ↔ reach_from G roots m.
Proof. unfold live_from, reach_from. by setoid_rewrite live_empty. Qed.

(** X1: a sample of a model binds every variable of the model.  On an acyclic
    graph and from caches that are empty, as every reset leaves them,
    [ProbabilisticModel._get_sample] (not in observed mode) returns, and the keys
    of the sample are the keys of the input values and the variables the pass
    comes to: the roots and, through the parents of every random variable that
    the input values do not bind, their ancestors.  With no input value, as in
    [get_sample(number_samples)], the keys are exactly the variables of the
    flattened model, the deterministic ones too. *)
Theorem model_sample_binds_every_variable (fuel : nat) (roots : list nat)
    (number_samples : nat) (input_values : gmap nat value) (s : state) :
  wf_graph G -> roots_in G roots fuel ->
  (∀ x, reach_from G roots x -> samples (get s x) = []) ->
  ∃ d s',
    pm__get_sample G fuel roots number_samples false input_values s = Ok (d, s')
    ∧ (∀ x, is_Some (d !! x)
            ↔ is_Some (input_values !! x) ∨ live_from G input_values roots x)
    ∧ (∀ x, x ∈ roots -> is_Some (d !! x))
    ∧ (input_values = ∅ ->
       pm_get_sample G fuel roots number_samples ∅ s = Ok (d, s')
       ∧ ∀ x, is_Some (d !! x) ↔ reach_from G roots x).
Proof.
  intros Hwf Hroots Hclean.
  destruct (sample_roots G number_samples input_values Hwf fuel roots s Hroots Hclean)
    as (ds & s1 & new & Hrun & _ & _ & Hdom & _).
  unfold pm__get_sample. rewrite Hrun. simpl.
  destruct (pm_reset_spec G fuel roots s1 Hwf Hroots) as (s' & Hreset & _).
  rewrite Hreset. simpl.
  eexists _, s'. split; [done |].
  assert (∀ x, is_Some ((input_values ∪ join_dicts_list ds) !! x)
               ↔ is_Some (input_values !! x) ∨ live_from G input_values roots x) as Hkeys.
  { intros x. by rewrite lookup_union_is_Some, Hdom. }
  split; [done |]. split.
  - intros x Hx. apply Hkeys. right. exists x. split; [done | constructor].
  - intros ->. split.
    + unfold pm_get_sample, pm__get_sample. rewrite Hrun. simpl.
      by rewrite Hreset.
    + intros x. rewrite Hkeys, lookup_empty, live_from_empty.
      split; [intros [[? ?] | ?]; done | by right].
Qed.

(** X2: a sample of a model draws every random variable once.  On an acyclic
    graph and from caches that are empty, the draws that
    [ProbabilisticModel._get_sample] (not in observed mode) adds to the log are
    one draw for each random variable that the pass comes to and that the
    input values do not bind, made by the variable on its own distribution, and
    no other: a parent that several children share is drawn once.  With no
    input value these are the random variables of the flattened model. *)
Theorem model_sample_draws_each_variable_once (fuel : nat) (roots : list nat)
    (number_samples : nat) (input_values : gmap nat value) (s : state) :
  wf_graph G -> roots_in G roots fuel ->
  (∀ x, reach_from G roots x -> samples (get s x) = []) ->
  ∃ d s' new,
    pm__get_sample G fuel roots number_samples false input_values s = Ok (d, s')
    ∧ draws s' = draws s ++ ((fun x => (x, x)) <$> new)
    ∧ NoDup new
    ∧ (∀ x, x ∈ new ↔ live_from G input_values roots x ∧ is_random G x
                       ∧ input_values !! x = None)
    ∧ (input_values = ∅ -> ∀ x, x ∈ new ↔ model_set G roots x).
Proof.
  intros Hwf Hroots Hclean.
  destruct (sample_roots G number_samples input_values Hwf fuel roots s Hroots Hclean)
    as (ds & s1 & new & Hrun & (Hd & _ & Hnd & _) & Hnew & _).
  unfold pm__get_sample. rewrite Hrun. simpl.
  destruct (pm_reset_spec G fuel roots s1 Hwf Hroots) as (s' & Hreset & Hd' & _).
  rewrite Hreset. simpl.
  eexists _, s', new. split; [done |]. split; [congruence |]. split; [done |].
  split; [done |].
  intros -> x. rewrite Hnew, live_from_empty, lookup_empty. unfold model_set. tauto.
Qed.


(** X21: the sample of a variable is the variable's draw alone, though its
    ancestors are drawn.  On an acyclic graph, for a random variable that is
    not observed and that the input values do not bind, from caches that are
    empty, [Variable.get_sample] returns one binding, of the variable itself;
    the draws it adds to the log are one for every random variable that the
    pass comes to from the variable and that the input values do not bind, the
    variable the last of them; and it leaves the caches of the variable and of
    its ancestors cleared. *)
Theorem variable_sample_is_its_draw_alone (fuel n : nat) (r : rv_info)
    (number_samples : nat) (input_values : gmap nat value) (s : state) :
  wf_graph G -> G !! n = Some (Rand r) -> n < fuel ->
  (∀ x, reach G n x -> samples (get s x) = []) ->
  _observed (get s n) = false -> input_values !! n = None ->
  ∃ v s' new,
    get_sample G fuel n number_samples input_values s = Ok ({[ n := v ]}, s')
    ∧ draws s' = draws s ++ ((fun x => (x, x)) <$> new)
    ∧ NoDup new
    ∧ (∀ x, x ∈ new ↔ live G input_values n x ∧ is_random G x
                       ∧ input_values !! x = None)
    ∧ last new = Some n
    ∧ (∀ k, reach G n k -> is_random G k -> clean (get s' k)).
Proof.
  intros Hwf Hn Hlt Hclean Hobs Hin.
  assert (is_Some (G !! n)) as HnG by by eexists.
  assert (roots_in G [n] fuel) as Hroots.
  { intros v ->%list_elem_of_singleton. by split. }
  assert (∀ x, reach_from G [n] x -> samples (get s x) = []) as Hclean'.
  { intros x (v & ->%list_elem_of_singleton & Hr). by apply Hclean. }
  destruct (sample_roots G number_samples input_values Hwf fuel [n] s Hroots Hclean')
    as (ds & s1 & new & Hrun & Hs1 & Hnew & Hdom & _).
  cbn [mapM_st] in Hrun.
  destruct (_get_sample G fuel n number_samples false false input_values s)
    as [[d s0] | |] eqn:Hcall; cbn [mbind outcome_bind] in Hrun; try done.
  injection Hrun as <- <-.
  unfold get_sample, is_observed. rewrite Hn. cbn [mbind outcome_bind].
  unfold rv_is_observed. rewrite Hobs, Hcall. cbn [mbind outcome_bind].
  assert (is_Some (d !! n)) as [v Hv].
  { destruct (get_sample_unobserved_spec G fuel n number_samples false input_values s
                                         Hwf HnG Hlt) as (d' & s' & Hr & Hk & _).
    rewrite Hcall in Hr. by injection Hr as <- <-. }
  rewrite Hv.
  destruct (reset_spec G fuel n s0 Hwf HnG Hlt) as (s' & Hreset & Hd' & _ & Hc).
  rewrite Hreset. cbn [mbind outcome_bind]. exists v, s', new. split; [done |].
  destruct Hs1 as (Hd1 & _ & Hnd & Hnew1 & _).
  split; [congruence |]. split; [done |].
  assert (∀ x, x ∈ new ↔ live G input_values n x ∧ is_random G x
                         ∧ input_values !! x = None) as Hnew'.
  { intros x. rewrite Hnew. unfold live_from. split.
    - intros ((v' & ->%list_elem_of_singleton & Hl) & Hrest). by split.
    - intros (Hl & Hrest). split; [| done]. exists n. split; [left | done]. }
  split; [done |]. split.
  - assert (n ∈ new) as Hnn
      by (apply Hnew'; split; [constructor | split; [by exists r | done]]).
    destruct (last new) as [z |] eqn:Hlast;
      [| by apply last_None in Hlast as ->; apply elem_of_nil in Hnn].
    f_equal. apply last_Some in Hlast as [new' ->].
    destruct (decide (z = n)) as [-> | Hne]; [done |]. exfalso.
    apply elem_of_app in Hnn as [Hnn | ->%list_elem_of_singleton]; [| done].
    (* the draw of [n] is the last entry of the log *)
    clear Hnew Hdom. revert Hcall Hd1. destruct fuel as [|fuel]; [done |].
    cbn [_get_sample]. rewrite Hn. unfold RandomVariable_get_sample.
    rewrite (Hclean n) by constructor. cbn [last]. unfold choose_target. cbn [negb].
    rewrite Hin. cbn [mbind outcome_bind]. rewrite Hn.
    destruct (mapM_st _ (rv_parents r) s) as [[ds' s2] | |]; cbn [mbind outcome_bind];
      try done.
    destruct (input_dict_of _ _) as [i | |]; cbn [mbind outcome_bind]; try done.
    intros [= <- <-]. cbn [draws put log_draw]. rewrite fmap_app. cbn [fmap list_fmap].
    rewrite !app_assoc. intros [_ [= ->]]%app_inj_tail. done.
  - intros k Hk Hrk. destruct (Hc k) as [Hck _]. rewrite Hck; [apply clear_clean | by split].
Qed.

(** Not in observed mode, a variable that the input values bind obtains no
    draw, whatever the heap holds. *)
Lemma bound_no_draw x w (input_values : gmap nat value) s0 fuel :
  input_values !! x = Some w ->
  ∀ m number_samples resample s d s',
    no_draw_by x s0 s ->
    _get_sample G fuel m number_samples resample false input_values s = Ok (d, s') ->
    no_draw_by x s0 s'.
Proof.
  intros Hx. induction fuel as [|fuel IH]; intros m number_samples resample s d s' Hs;
    [done |].
  simpl. destruct (G !! m) as [[dm | rm] |] eqn:Hm; [by intros [= <- <-] | | done].
  unfold RandomVariable_get_sample.
  destruct (if resample then None else last (samples (get s m))) as [cached |];
    [by intros [= <- <-] |].
  unfold choose_target. simpl.
  destruct (input_values !! m) as [wm |] eqn:Him; simpl; [by intros [= <- <-] |].
  rewrite Hm.
  destruct (mapM_st _ (rv_parents rm) s) as [[ds s1] | |] eqn:Hmap; simpl; try done.
  destruct (input_dict_of _ _) as [i | |]; simpl; try done.
  intros [= <- <-].
  destruct (mapM_st_inv_I
              (fun parent => _get_sample G fuel parent number_samples resample false
                                         input_values)
              (no_draw_by x s0) (fun _ _ => True) (rv_parents rm) s ds s1)
    as [_ Hs1]; [| done | done |].
  { intros p sp dp sp' _ Hsp Hp. split; [done |].
    by apply (IH p number_samples resample sp dp sp'). }
  intros e. simpl. rewrite elem_of_app, list_elem_of_singleton.
  intros [He | ->]; [by apply Hs1 |]. right. simpl. congruence.
Qed.

(** When [ProbabilisticModel._get_sample], not in observed mode, returns, a
    variable that the input values bind has its input value in the sample and
    obtained no draw. *)
Lemma pm__get_sample_input fuel roots number_samples (input_values : gmap nat value) s
    d s' x w :
  pm__get_sample G fuel roots number_samples false input_values s = Ok (d, s') ->
  input_values !! x = Some w ->
  d !! x = Some w ∧ no_draw_by x s s'.
Proof.
  unfold pm__get_sample. intros Hrun Hx.
  destruct (mapM_st _ roots s) as [[ds s1] | |] eqn:Hmap; simpl in Hrun; try done.
  destruct (pm_reset G fuel roots s1) as [s2 | |] eqn:Hreset; simpl in Hrun; try done.
  injection Hrun as <- <-. split; [by apply lookup_union_Some_l |].
  destruct (mapM_st_inv_I
              (fun var => _get_sample G fuel var number_samples false false input_values)
              (no_draw_by x s) (fun _ _ => True) roots s ds s1)
    as [_ Hs1]; [| by left | done |].
  { intros p sp dp sp' _ Hsp Hp. split; [done |].
    by apply (bound_no_draw x w input_values s fuel Hx p number_samples false sp dp sp'). }
  unfold no_draw_by. destruct (pm_reset_logs G fuel roots s1 s2 Hreset) as [-> _].
  exact Hs1.
Qed.

(** X4: input values condition a sample.  Whatever the graph and the heap,
    when [ProbabilisticModel._get_sample], not in observed mode, returns, every
    variable that the input values bind has its input value in the sample, and
    no draw was made for it: its distribution is not asked, not even when a
    child needs its value. *)
Theorem input_value_is_kept_and_not_drawn (fuel : nat) (roots : list nat)
    (number_samples : nat) (input_values : gmap nat value) (s : state)
    (d : gmap nat value) (s' : state) (x : nat) (w : value) :
  pm__get_sample G fuel roots number_samples false input_values s = Ok (d, s') ->
  input_values !! x = Some w ->
  d !! x = Some w ∧ ∀ e, e ∈ draws s' -> e ∈ draws s ∨ e.1 ≠ x.
Proof. apply pm__get_sample_input. Qed.

End SampleModel.

(** ** The flattened model *)

Section Flatten.

Context `{Backend}.
Variable G : graph.

Lemma mapM_flatten_spec fuel ps ls :
  (∀ p l, p ∈ ps -> _flatten G fuel p = Ok l -> ∀ x, x ∈ l ↔ reach G p x) ->
  mapM (_flatten G fuel) ps = Ok ls ->
  ∀ x, x ∈ flatten_list ls ↔ ∃ p, p ∈ ps ∧ reach G p x.
Proof.
  intros Hone Hm x. apply mapM_Ok in Hm. rewrite elem_of_flatten_list. split.
  - intros (l & Hl & Hx).
    destruct (Forall2_elem_of_r _ _ _ _ Hm Hl) as (p & Hp & Hpl).
    exists p. split; [done |]. by apply (Hone p l).
  - intros (p & Hp & Hr).
    destruct (Forall2_elem_of_l _ _ _ _ Hm Hp) as (l & Hl & Hpl).
    exists l. split; [done |]. by apply (Hone p l).
Qed.

(** When [_flatten] returns, it lists the variables that are reached. *)
Lemma _flatten_reach fuel :
  ∀ n l, _flatten G fuel n = Ok l -> ∀ x, x ∈ l ↔ reach G n x.
Proof.
  induction fuel as [|fuel IH]; intros n l; [done |]. simpl.
  destruct (G !! n) as [[d | r] |] eqn:Hn; [| | done].
  - intros [= <-] x. rewrite list_elem_of_singleton. split; [intros ->; constructor |].
    by apply reach_det with d.
  - destruct (mapM _ _) as [ls | |] eqn:Hm; simpl; try done.
    intros [= <-] x. rewrite elem_of_app, list_elem_of_singleton.
    rewrite (mapM_flatten_spec fuel (rv_parents r) ls (fun p l _ => IH p l) Hm).
    rewrite (reach_rand_inv G n r x Hn). tauto.
Qed.

Lemma pm_flatten_reach fuel roots l :
  pm_flatten G fuel roots = Ok l -> ∀ x, x ∈ l ↔ reach_from G roots x.
Proof.
  unfold pm_flatten. destruct (mapM _ _) as [ls | |] eqn:Hm; simpl; try done.
  intros [= <-] x.
  by rewrite (mapM_flatten_spec fuel roots ls (fun p l _ => _flatten_reach fuel p l) Hm).
Qed.

Lemma mapM_returns {A B : Type} (f : A -> outcome B) (l : list A) :
  (∀ a, a ∈ l -> ∃ b, f a = Ok b) -> ∃ bs, mapM f l = Ok bs.
Proof.
  induction l as [|a l IH]; intros Hf; simpl; [by eexists |].
  destruct (Hf a) as [b ->]; [left |]. simpl.
  destruct IH as [bs ->]; [intros a' Ha'; apply Hf; by right |]. simpl. by eexists.
Qed.

(** On an acyclic graph [_flatten] returns. *)
Lemma _flatten_returns fuel :
  wf_graph G -> ∀ n, is_Some (G !! n) -> n < fuel -> ∃ l, _flatten G fuel n = Ok l.
Proof.
  intros Hwf. induction fuel as [|fuel IH]; intros n [nd Hn] Hlt; [lia |].
  simpl. rewrite Hn. destruct nd as [d | r]; [by eexists |].
  destruct (mapM_returns (_flatten G fuel) (rv_parents r)) as [ls ->].
  { intros p Hp. destruct (Hwf n r Hn p Hp) as [Hpn Hpin]. apply IH; [done | lia]. }
  simpl. by eexists.
Qed.

Lemma pm_flatten_returns fuel roots :
  wf_graph G -> roots_in G roots fuel -> ∃ l, pm_flatten G fuel roots = Ok l.
Proof.
  intros Hwf Hroots. unfold pm_flatten.
  destruct (mapM_returns (_flatten G fuel) roots) as [ls ->].
  { intros p Hp. destruct (Hroots p Hp). by apply _flatten_returns. }
  simpl. by eexists.
Qed.

(** X5: the flattened model is the reachable set.  On an acyclic graph
    [_flatten] and [flatten] return, for a variable and for a model; the list
    and the set hold exactly the variable itself (the declared roots) and what
    is reached from them through [parents], and the list of a variable ends
    with the variable itself. *)
Theorem flatten_is_the_reachable_set (fuel : nat) :
  wf_graph G ->
  (∀ n, is_Some (G !! n) -> n < fuel ->
     ∃ l vs, _flatten G fuel n = Ok l ∧ flatten G fuel n = Ok vs
             ∧ (∀ x, x ∈ l ↔ reach G n x)
             ∧ (∀ x, x ∈ vs ↔ reach G n x)
             ∧ last l = Some n)
  ∧ (∀ roots, roots_in G roots fuel ->
       ∃ l vs, pm_flatten G fuel roots = Ok l
               ∧ ProbabilisticModel_flatten G fuel roots = Ok vs
               ∧ (∀ x, x ∈ l ↔ reach_from G roots x)
               ∧ (∀ x, x ∈ vs ↔ reach_from G roots x)).
Proof.
  intros Hwf. split.
  - intros n Hin Hlt. destruct (_flatten_returns fuel Hwf n Hin Hlt) as [l Hl].
    exists l, (list_to_set l). split; [done |]. unfold flatten. rewrite Hl.
    split; [done |]. pose proof (_flatten_reach fuel n l Hl) as Hr.
    split; [done |]. split; [intros x; by rewrite elem_of_list_to_set |].
    destruct fuel as [|fuel]; [done |]. simpl in Hl.
    destruct (G !! n) as [[d | r] |]; [by injection Hl as <- | | done].
    destruct (mapM _ _) as [ls | |]; simpl in Hl; try done.
    injection Hl as <-. by rewrite last_snoc.
  - intros roots Hroots. destruct (pm_flatten_returns fuel roots Hwf Hroots) as [l Hl].
    exists l, (list_to_set l). split; [done |]. unfold ProbabilisticModel_flatten.
    rewrite Hl. split; [done |]. pose proof (pm_flatten_reach fuel roots l Hl) as Hr.
    split; [done |]. intros x. by rewrite elem_of_list_to_set.
Qed.

Lemma parents_first_app l l' : parents_first G l -> parents_first G l' -> parents_first G (l ++ l').
Proof.
  intros Hl Hl' l1 x l2 r p Heq Hx Hp.
  apply app_eq_inv in Heq as [(k & -> & Hk) | (k & -> & Hk)].
  - destruct k as [|y k]; simpl in Hk.
    + assert (p ∈ []) as Hin by (apply (Hl' [] x l2 r p); [by rewrite <- Hk | done | done]).
      by apply elem_of_nil in Hin.
    + injection Hk as <- ->. by apply (Hl l1 x k r p).
  - apply elem_of_app. right. by apply (Hl' k x l2 r p).
Qed.

Lemma parents_first_concat ls :
  (∀ l, l ∈ ls -> parents_first G l) -> parents_first G (flatten_list ls).
Proof.
  unfold flatten_list. induction ls as [|l ls IH]; intros Hls; simpl.
  - intros l1 x l2 r p Heq. by destruct l1.
  - apply parents_first_app; [apply Hls; left | apply IH; intros l' Hl'; apply Hls; by right].
Qed.

Lemma _flatten_parents_first fuel : ∀ n l, _flatten G fuel n = Ok l -> parents_first G l.
Proof.
  induction fuel as [|fuel IH]; intros n l; [done |]. simpl.
  destruct (G !! n) as [[d | r] |] eqn:Hn; [| | done].
  - intros [= <-] l1 x l2 r p Heq Hx Hp.
    destruct l1 as [|y l1]; [injection Heq as <- <-; congruence |].
    injection Heq as _ Heq. by destruct l1.
  - destruct (mapM _ _) as [ls | |] eqn:Hm; simpl; try done.
    intros [= <-].
    assert (parents_first G (flatten_list ls)) as Hls.
    { apply parents_first_concat. intros l Hl. apply mapM_Ok in Hm.
      destruct (Forall2_elem_of_r _ _ _ _ Hm Hl) as (p & _ & Hp). by apply (IH p l). }
    assert (∀ p, p ∈ rv_parents r -> p ∈ flatten_list ls) as Hps.
    { intros p Hp.
      rewrite (mapM_flatten_spec fuel (rv_parents r) ls
                 (fun q l _ => _flatten_reach fuel q l) Hm).
      exists p. split; [done | constructor]. }
    intros l1 x l2 r' p Heq Hx Hp.
    apply app_eq_inv in Heq as [(k & Hl1 & Hk) | (k & -> & Hk)].
    + destruct k as [|y k]; simpl in Hk.
      * injection Hk as -> ->. rewrite app_nil_r in Hl1. subst l1.
        apply Hps. congruence.
      * injection Hk as <- Hk. by apply (Hls l1 x k r' p).
    + destruct k as [|y k]; simpl in Hk.
      * injection Hk as <- <-. rewrite app_nil_r. apply Hps. congruence.
      * injection Hk as _ Hk. by destruct k.
Qed.

(** X6: the flattened list is in the order of the dependencies.  Whenever
    [_flatten] of a variable or of a model returns, every occurrence of a random
    variable in the list comes after an occurrence of each of its parents: the
    dictionaries and the mappings that are built along the list see the parents
    before their children. *)
Theorem flatten_lists_parents_first (fuel : nat) :
  (∀ n l l1 x l2 r p,
      _flatten G fuel n = Ok l -> l = l1 ++ x :: l2 ->
      G !! x = Some (Rand r) -> p ∈ rv_parents r -> p ∈ l1)
  ∧ (∀ roots l l1 x l2 r p,
      pm_flatten G fuel roots = Ok l -> l = l1 ++ x :: l2 ->
      G !! x = Some (Rand r) -> p ∈ rv_parents r -> p ∈ l1).
Proof.
  split.
  - intros n l l1 x l2 r p Hl. by apply (_flatten_parents_first fuel n l Hl).
  - intros roots l l1 x l2 r p. unfold pm_flatten.
    destruct (mapM _ _) as [ls | |] eqn:Hm; simpl; try done.
    intros [= <-]. apply parents_first_concat. intros l' Hl'. apply mapM_Ok in Hm.
    destruct (Forall2_elem_of_r _ _ _ _ Hm Hl') as (q & _ & Hq).
    by apply (_flatten_parents_first fuel q l').
Qed.

End Flatten.

(** ** Lookup by name, once more *)

Section NamesAgain.

Context `{Backend}.
Variable G : graph.

(** The dictionary of the names keeps the entry of a name that no variable of
    the list has. *)
Lemma name_dict_keeps flat acc nm :
  (∀ x, x ∈ flat -> is_Some (G !! x)) ->
  (∀ x, x ∈ flat -> name_of G x ≠ Ok nm) ->
  ∃ d, name_dict G flat acc = Ok d ∧ d !! nm = acc !! nm.
Proof.
  revert acc. induction flat as [|x flat IH]; intros acc Hin Hno; simpl.
  - by exists acc.
  - destruct (name_of_in_graph G x) as [nx Hx]; [apply Hin; left |].
    rewrite Hx. simpl.
    destruct (IH (<[nx := x]> acc)) as (d & -> & Hd).
    { intros y Hy. apply Hin. by right. }
    { intros y Hy. apply Hno. by right. }
    exists d. split; [done |]. rewrite Hd. apply lookup_insert_ne.
    intros ->. by apply (Hno x); [left |].
Qed.

(** The dictionary of the names holds, for a name, the last variable of the
    list that has it. *)
Lemma name_dict_last l1 v l2 acc nm :
  (∀ x, x ∈ l1 ++ v :: l2 -> is_Some (G !! x)) ->
  name_of G v = Ok nm ->
  (∀ x, x ∈ l2 -> name_of G x ≠ Ok nm) ->
  ∃ d, name_dict G (l1 ++ v :: l2) acc = Ok d ∧ d !! nm = Some v.
Proof.
  revert acc. induction l1 as [|x l1 IH]; intros acc Hin Hv Hno; simpl.
  - rewrite Hv. simpl.
    destruct (name_dict_keeps l2 (<[nm := v]> acc) nm) as (d & -> & Hd); [| done |].
    { intros y Hy. apply Hin. by right. }
    exists d. split; [done |]. by rewrite Hd, lookup_insert_eq.
  - destruct (name_of_in_graph G x) as [nx Hx]; [apply Hin; left |].
    rewrite Hx. simpl. apply IH; [| done | done].
    intros y Hy. apply Hin. by right.
Qed.

(** X7: [get_variable] returns the last variable of a name.  When several
    variables of the flattened list have the name, the dictionary of the names
    keeps the one that comes last in the list, and [get_variable] returns it:
    names that are not unique are not an error. *)
Theorem get_variable_returns_the_last_of_a_name (l1 l2 : list nat) (v : nat)
    (nm : string) :
  (∀ x, x ∈ l1 ++ v :: l2 -> is_Some (G !! x)) ->
  name_of G v = Ok nm ->
  (∀ x, x ∈ l2 -> name_of G x ≠ Ok nm) ->
  get_variable G (Ok (l1 ++ v :: l2)) nm = Ok v.
Proof.
  intros Hin Hv Hno. unfold get_variable. simpl.
  destruct (name_dict_last l1 v l2 ∅ nm Hin Hv Hno) as (d & -> & Hd). simpl.
  by rewrite Hd.
Qed.

(** X8: a variable finds itself under its own name.  Whenever [_flatten] of a
    variable returns, [get_variable] on the variable with the variable's own
    name returns the variable itself, also when an ancestor has the same name:
    the variable is the last of its flattened list. *)
Theorem get_variable_of_own_name (fuel n : nat) (l : list nat) (nm : string) :
  _flatten G fuel n = Ok l ->
  name_of G n = Ok nm ->
  get_variable G (_flatten G fuel n) nm = Ok n.
Proof.
  intros Hl Hnm. rewrite Hl.
  assert (∃ l1, l = l1 ++ [n]) as [l1 ->].
  { destruct fuel as [|fuel]; [done |]. simpl in Hl.
    destruct (G !! n) as [[d | r] |]; [injection Hl as <-; by exists [] | | done].
    destruct (mapM _ _) as [ls | |]; simpl in Hl; try done.
    injection Hl as <-. by eexists. }
  unfold get_variable. simpl.
  destruct (name_dict_last l1 n [] ∅ nm) as (d & -> & Hd); [| done | |].
  - by apply (flatten_in_graph G fuel n).
  - by intros x ?%elem_of_nil.
  - simpl. by rewrite Hd.
Qed.

End NamesAgain.

(** ** Reset, and the memo flags *)

Section ResetAgain.

Context `{Backend}.
Variable G : graph.

(** X9: [reset] clears the caches and nothing else, and a second reset
    changes nothing.  On an acyclic graph [ProbabilisticModel.reset] returns;
    every random variable reached from the declared roots has its cache fields
    cleared ([samples], [_evaluated], [_current_value]) and keeps its
    observation fields; every other variable is as it was; no distribution is
    called; and the reset of the heap so obtained gives the same heap. *)
Theorem reset_clears_the_caches_only (fuel : nat) (roots : list nat) (s : state) :
  wf_graph G -> roots_in G roots fuel ->
  ∃ s', pm_reset G fuel roots s = Ok s'
        ∧ (∀ k, model_set G roots k -> get s' k = clear (get s k))
        ∧ (∀ k, ¬ model_set G roots k -> get s' k = get s k)
        ∧ (∀ k, _observed (get s' k) = _observed (get s k)
                ∧ _observed_value (get s' k) = _observed_value (get s k)
                ∧ dataset (get s' k) = dataset (get s k)
                ∧ has_random_dataset (get s' k) = has_random_dataset (get s k)
                ∧ has_observed_value (get s' k) = has_observed_value (get s k))
        ∧ draws s' = draws s ∧ evals s' = evals s
        ∧ ∃ s'', pm_reset G fuel roots s' = Ok s'' ∧ ∀ k, get s'' k = get s' k.
Proof.
  intros Hwf Hroots.
  destruct (pm_reset_spec G fuel roots s Hwf Hroots) as (s' & Hs' & Hd & He & Hc).
  exists s'. split; [done |].
  assert (∀ k, ¬ model_set G roots k -> get s' k = get s k) as Hout.
  { intros k Hk. destruct (Hc k) as [_ [? | [? _]]]; done. }
  split; [intros k; apply Hc |]. split; [done |]. split.
  - intros k. destruct (Hc k) as [_ [-> | [_ ->]]]; by repeat split.
  - split; [done |]. split; [done |].
    destruct (pm_reset_spec G fuel roots s' Hwf Hroots) as (s'' & Hs'' & _ & _ & Hc').
    exists s''. split; [done |]. intros k.
    destruct (Hc' k) as [_ [? | [Hk ->]]]; [done |].
    destruct (Hc k) as [Hck _]. rewrite (Hck Hk). apply clear_clear.
Qed.

(** The memo flags are only ever set by a pass of log-probabilities. *)
Lemma calculate_log_probability_flags fuel :
  ∀ n vals re s lp s',
    calculate_log_probability G fuel n vals re s = Ok (lp, s') ->
    ∀ k, _evaluated (get s k) = true -> _evaluated (get s' k) = true.
Proof.
  induction fuel as [|fuel IH]; intros n vals re s lp s'; [done |]. simpl.
  destruct (G !! n) as [[d | r] |] eqn:Hn; [by intros [= <- <-] | | done].
  destruct (_evaluated (get s n) && negb re) eqn:He.
  { unfold RandomVariable_calculate_log_probability. rewrite He. by intros [= <- <-]. }
  rewrite RandomVariable_calculate_log_probability_unfold by done.
  destruct (mapM_st _ _ _) as [[lps s1] | |] eqn:Hmap; simpl; try done.
  intros [= <- <-] k Hk.
  apply (mapM_st_inv _ (fun s s' => ∀ k, _evaluated (get s k) = true
                                        -> _evaluated (get s' k) = true)
                     (fun _ _ => True)) in Hmap as [_ Hmono]; [| done | eauto |].
  - apply Hmono. rewrite get_log_eval, get_put.
    by destruct (decide (n = k)).
  - intros p sp lpp sp' _ Hp. split; [done |]. by apply (IH p vals re sp lpp sp').
Qed.

(** X10: a call of [calculate_log_probability] on a random variable itself
    leaves its memo flag set.  The method of the variable does not reset; so,
    on an acyclic graph, after any such call that returns (with any
    [reevaluate]) the flag [_evaluated] of the variable is set, and the
    log-probability of a model that declares the variable, asked next, does
    not ask the density of the variable: with [reevaluate=False] the variable
    answers 0.  That call of the model resets, and leaves the flag clear. *)
Theorem variable_level_call_leaves_the_memo_flag (fuel n : nat) (r : rv_info)
    (input_values : gmap nat value) (reevaluate : bool) (s : state) (lp : L)
    (s1 : state) :
  wf_graph G -> G !! n = Some (Rand r) -> n < fuel ->
  calculate_log_probability G fuel n input_values reevaluate s = Ok (lp, s1) ->
  _evaluated (get s1 n) = true
  ∧ ∀ rv_values, ∃ s2,
      pm_calculate_log_probability G fuel [n] rv_values s1 = Ok (py_sum [lzero], s2)
      ∧ evals s2 = evals s1
      ∧ _evaluated (get s2 n) = false.
Proof.
  intros Hwf Hn Hlt Hrun.
  assert (_evaluated (get s1 n) = true) as Hflag.
  { destruct fuel as [|fuel]; [done |]. simpl in Hrun. rewrite Hn in Hrun.
    destruct (_evaluated (get s n) && negb reevaluate) eqn:He.
    { unfold RandomVariable_calculate_log_probability in Hrun. rewrite He in Hrun.
      injection Hrun as <- <-. by apply andb_true_iff in He as [? _]. }
    rewrite RandomVariable_calculate_log_probability_unfold in Hrun by done.
    destruct (mapM_st _ _ _) as [[lps s0] | |] eqn:Hmap; simpl in Hrun; try done.
    injection Hrun as <- <-.
    apply (mapM_st_inv _ (fun s s' => ∀ k, _evaluated (get s k) = true
                                          -> _evaluated (get s' k) = true)
                       (fun _ _ => True)) in Hmap as [_ Hmono]; [| done | eauto |].
    - apply Hmono. by rewrite get_log_eval, get_put_eq.
    - intros p sp lpp sp' _ Hp. split; [done |].
      by apply (calculate_log_probability_flags fuel p input_values reevaluate sp lpp sp'). }
  split; [done |]. intros rv_values.
  assert (roots_in G [n] fuel) as Hroots.
  { intros v ->%list_elem_of_singleton. split; [done | by eexists]. }
  unfold pm_calculate_log_probability.
  destruct fuel as [|fuel]; [lia |].
  cbn [mapM_st calculate_log_probability]. rewrite Hn.
  unfold RandomVariable_calculate_log_probability at 1. rewrite Hflag.
  cbn [andb negb mbind outcome_bind].
  destruct (pm_reset_spec G (S fuel) [n] s1 Hwf Hroots) as (s2 & Hs2 & _ & He & Hc).
  rewrite Hs2. cbn [mbind outcome_bind]. exists s2. split; [done |]. split; [done |].
  destruct (Hc n) as [Hcn _]. rewrite Hcn; [done |].
  split; [exists n; split; [left | constructor] | by exists r].
Qed.

End ResetAgain.

(** ** The joint log-density *)

Section LogDensity.

Context `{Backend}.
Variable G : graph.

(** X11: the log-probability of a model is the sum of the log-densities of
    its random variables, each once.  On an acyclic graph, with the laws of the
    addition and from memo flags that are clear, as every reset leaves them,
    [ProbabilisticModel.calculate_log_probability] returns; it asks the density
    of every random variable reached from the declared roots once and of no
    other variable, and its result is the sum of these densities (each summed
    over the data points when the variable is observed), however many children
    share a parent and whatever roots are declared; a deterministic variable
    adds nothing. *)
Theorem model_log_probability_is_the_sum_of_the_densities (fuel : nat)
    (roots : list nat) (rv_values : gmap nat value) (s : state) :
  BackendLaws -> wf_graph G -> roots_in G roots fuel ->
  (∀ x, model_set G roots x -> _evaluated (get s x) = false) ->
  ∃ lp s' new,
    pm_calculate_log_probability G fuel roots rv_values s = Ok (lp, s')
    ∧ evals s' = evals s ++ new
    ∧ NoDup new
    ∧ (∀ x, x ∈ new ↔ reach_from G roots x ∧ is_random G x)
    ∧ lp = sum_of G rv_values s new.
Proof.
  intros Hlaws Hwf Hroots Hclear.
  destruct (pm_calculate_log_probability_once
              G rv_values (reach_from G roots) Hwf (reach_from_closed G roots)
              fuel roots s)
    as (lp & s' & new & Hrun & Hev & Hnd & Hin & Hlp); [done | done | done |].
  by exists lp, s', new.
Qed.

End LogDensity.

(** ** The construction of a model and its observed submodel *)

Section ConstructionProps.

Context `{Backend}.
Variable G : graph.

Lemma is_observed_returns n s : is_Some (G !! n) -> ∃ b, is_observed G n s = Ok b.
Proof. intros [[d | r] Hn]; unfold is_observed; rewrite Hn; by eexists. Qed.

Lemma observed_variables_of_spec l s :
  (∀ x, x ∈ l -> is_Some (G !! x)) ->
  ∃ k, observed_variables_of G l s = Ok k
       ∧ ∀ x, x ∈ k ↔ x ∈ l ∧ is_observed G x s = Ok true.
Proof.
  induction l as [|v l IH]; intros Hin; simpl.
  - exists []. split; [done |]. intros x.
    split; [by intros ?%elem_of_nil | by intros [?%elem_of_nil _]].
  - destruct (is_observed_returns v s) as [b Hb]; [apply Hin; left |].
    rewrite Hb. simpl.
    destruct IH as (k & -> & Hk); [intros x Hx; apply Hin; by right |].
    simpl. eexists. split; [done |]. intros x. destruct b.
    + rewrite !elem_of_cons, Hk. split.
      * intros [-> | [? ?]]; [split; [by left | done] | split; [by right | done]].
      * intros [[-> | ?] ?]; [by left | by right].
    + rewrite elem_of_cons, Hk. split; [intros [? ?]; split; [by right | done] |].
      intros [[-> | ?] ?]; [congruence | done].
Qed.

Lemma py_all_true bs : py_all bs = true ↔ ∀ b, b ∈ bs -> b = true.
Proof.
  unfold py_all. rewrite forallb_forall. split.
  - intros Hb b Hin. by apply list_elem_of_In, Hb in Hin.
  - intros Hb b Hin. apply list_elem_of_In in Hin. by apply Hb.
Qed.

Lemma mapM_is_observed vs s :
  (∀ x, x ∈ vs -> is_Some (G !! x)) ->
  ∃ obs, mapM (fun var => is_observed G var s) vs = Ok obs
         ∧ (py_all obs = true ↔ ∀ v, v ∈ vs -> is_observed G v s = Ok true).
Proof.
  intros Hin.
  destruct (mapM_returns (fun var => is_observed G var s) vs) as [obs Hobs].
  { intros v Hv. by apply is_observed_returns, Hin. }
  exists obs. split; [done |]. apply mapM_Ok in Hobs. rewrite py_all_true. split.
  - intros Hall v Hv. destruct (Forall2_elem_of_l _ _ _ _ Hobs Hv) as (b & Hb & Hvb).
    by rewrite Hvb, (Hall b Hb).
  - intros Hall b Hb. destruct (Forall2_elem_of_r _ _ _ _ Hobs Hb) as (v & Hv & Hvb).
    rewrite (Hall v Hv) in Hvb. congruence.
Qed.

Lemma _validate_variables_returns vs :
  (∀ x, x ∈ vs -> is_Some (G !! x)) -> _validate_variables G vs = Ok vs.
Proof.
  intros Hin. unfold _validate_variables.
  destruct (mapM_returns (fun var => match G !! var with
                                     | Some _ => Ok tt
                                     | None => Raise (Dangling var)
                                     end) vs) as [us ->]; [| done].
  intros v Hv. destruct (Hin v Hv) as [nd ->]. by eexists.
Qed.

Lemma _set_summary_returns fuel vs s :
  wf_graph G -> roots_in G vs fuel -> _set_summary G fuel vs s = Ok tt.
Proof.
  intros Hwf Hroots. unfold _set_summary, ProbabilisticModel_flatten.
  destruct (pm_flatten_returns G fuel vs Hwf Hroots) as [l Hl]. rewrite Hl. simpl.
  assert (∀ x, x ∈ elements (list_to_set (C := gset nat) l) -> is_Some (G !! x)) as Hin.
  { intros x Hx%elem_of_elements%elem_of_list_to_set.
    by apply (pm_flatten_in_graph G fuel vs l). }
  destruct (mapM_returns (name_of G) (elements (list_to_set (C := gset nat) l)))
    as [nms ->]; [intros x Hx; by apply name_of_in_graph, Hin |].
  simpl.
  destruct (mapM_returns (fun var => is_observed G var s)
                         (elements (list_to_set (C := gset nat) l)))
    as [obs ->]; [intros x Hx; by apply is_observed_returns, Hin |].
  done.
Qed.

(** [ProbabilisticModel.__init__] on an acyclic graph. *)
Lemma ProbabilisticModel_init_spec depth fuel vs s :
  wf_graph G -> roots_in G vs fuel ->
  ∃ m, ProbabilisticModel_init G (S (S depth)) fuel vs s = Ok m
       ∧ variables m = vs
       ∧ posterior_model m = None
       ∧ ((∀ v, v ∈ vs -> is_observed G v s = Ok true) -> observed_submodel m = vs)
       ∧ (¬ (∀ v, v ∈ vs -> is_observed G v s = Ok true) ->
          ∀ k, k ∈ observed_submodel m
               ↔ reach_from G vs k ∧ is_observed G k s = Ok true)
       ∧ (∀ k, k ∈ observed_submodel m -> is_observed G k s = Ok true)
       ∧ (∀ k, reach_from G vs k -> is_observed G k s = Ok true ->
               reach_from G (observed_submodel m) k).
Proof.
  intros Hwf Hroots.
  assert (∀ x, x ∈ vs -> is_Some (G !! x)) as Hin by (intros x Hx; by apply Hroots).
  cbn [ProbabilisticModel_init].
  rewrite (_validate_variables_returns vs Hin). cbn [mbind outcome_bind].
  rewrite (_set_summary_returns fuel vs s Hwf Hroots). cbn [mbind outcome_bind].
  destruct (mapM_is_observed vs s Hin) as (obs & -> & Hall). cbn [mbind outcome_bind].
  destruct (py_all obs) eqn:Hobs; cbn [negb].
  - pose proof (proj1 Hall eq_refl) as Hobs'. eexists. split; [done |]. simpl.
    split; [done |]. split; [done |]. split; [done |].
    split; [intros Hno; by destruct Hno |]. split; [done |].
    intros k Hk _. done.
  - assert (¬ (∀ v, v ∈ vs -> is_observed G v s = Ok true)) as Hnot.
    { intros Hv. apply Hall in Hv. done. }
    destruct (pm_flatten_returns G fuel vs Hwf Hroots) as [l Hl]. rewrite Hl.
    cbn [mbind outcome_bind].
    pose proof (pm_flatten_reach G fuel vs l Hl) as Hreach.
    pose proof (pm_flatten_in_graph G fuel vs l Hl) as Hlin.
    destruct (observed_variables_of_spec l s Hlin) as (k & -> & Hk).
    cbn [mbind outcome_bind].
    assert (roots_in G k fuel) as Hkroots.
    { intros x [Hx _]%Hk. split; [| by apply Hlin].
      apply Hreach in Hx as (v & Hv & Hr). destruct (Hroots v Hv) as [Hlt _].
      apply (reach_le G) in Hr; [lia | done]. }
    assert (∀ x, x ∈ k -> is_Some (G !! x)) as Hkin by (intros x Hx; by apply Hkroots).
    rewrite (_validate_variables_returns k Hkin). cbn [mbind outcome_bind].
    rewrite (_set_summary_returns fuel k s Hwf Hkroots). cbn [mbind outcome_bind].
    destruct (mapM_is_observed k s Hkin) as (obs' & -> & Hall'). cbn [mbind outcome_bind].
    assert (py_all obs' = true) as -> by (apply Hall'; intros v Hv; by apply Hk).
    cbn [negb mbind outcome_bind]. eexists. split; [done |]. simpl.
    split; [done |]. split; [done |]. split; [intros Hv; by destruct Hnot |].
    split; [intros _ x; by rewrite Hk, Hreach |].
    split; [intros x Hx; by apply Hk |].
    intros x Hx Hox. exists x. split; [| constructor]. apply Hk. by rewrite Hreach.
Qed.


(** X12: the construction of a model ends, and gives the observed submodel.
    On an acyclic graph [ProbabilisticModel.__init__] returns although
    [update_observed_submodel] constructs a model in its turn: the model it
    constructs declares observed variables only and is its own observed
    submodel, so that the constructions nest twice at most.  The model has no
    posterior model.  When every declared variable is observed the model is
    its own observed submodel; otherwise the observed submodel declares exactly
    the observed variables of the flattened model.  Either way every variable
    the observed submodel declares is observed, and every observed variable of
    the model is reached from it. *)
Theorem model_construction_gives_the_observed_submodel (depth fuel : nat)
    (vs : list nat) (s : state) :
  wf_graph G -> roots_in G vs fuel ->
  ∃ m, ProbabilisticModel_init G (S (S depth)) fuel vs s = Ok m
       ∧ variables m = vs
       ∧ posterior_model m = None
       ∧ ((∀ v, v ∈ vs -> is_observed G v s = Ok true) -> observed_submodel m = vs)
       ∧ (¬ (∀ v, v ∈ vs -> is_observed G v s = Ok true) ->
          ∀ k, k ∈ observed_submodel m
               ↔ reach_from G vs k ∧ is_observed G k s = Ok true)
       ∧ (∀ k, k ∈ observed_submodel m -> is_observed G k s = Ok true)
       ∧ (∀ k, reach_from G vs k -> is_observed G k s = Ok true ->
               reach_from G (observed_submodel m) k).
Proof. apply ProbabilisticModel_init_spec. Qed.

Lemma PosteriorModel_init_returns fuel qs vs :
  wf_graph G -> roots_in G qs fuel -> roots_in G vs fuel ->
  ∃ pm, PosteriorModel_init G fuel qs vs = Ok pm ∧ post_variables pm = qs.
Proof.
  intros Hwf Hq Hv. unfold PosteriorModel_init, set_model_mapping.
  destruct (pm_flatten_returns G fuel vs Hwf Hv) as [jl Hjl].
  destruct (pm_flatten_returns G fuel qs Hwf Hq) as [pl Hpl].
  rewrite Hjl, Hpl. cbn [mbind outcome_bind].
  destruct (set_model_mapping_loop_spec G pl jl ∅) as (mm & -> & _).
  - by apply (pm_flatten_in_graph G fuel qs).
  - by apply (pm_flatten_in_graph G fuel vs).
  - cbn [mbind outcome_bind]. by eexists.
Qed.

(** X13: sampling the posterior needs a posterior model.  A model as
    [__init__] leaves it has no posterior model: [_get_posterior_sample] and
    [estimate_log_model_evidence], by any method, raise the [AttributeError]
    of [check_posterior_model].  On an acyclic graph [set_posterior_model]
    returns and attaches one, leaving the declared variables and the observed
    submodel as they were; from then on [_get_posterior_sample] returns, and
    [estimate_log_model_evidence] by a method other than the string literal
    "ELBO" (a string of another text, or a string that was built at run time,
    whatever its text) raises [NotImplementedError]. *)
Theorem posterior_model_is_required (depth fuel : nat) (vs qs : list nat) (s : state) :
  wf_graph G -> roots_in G vs fuel -> roots_in G qs fuel ->
  ∃ m q m',
    ProbabilisticModel_init G (S (S depth)) fuel vs s = Ok m
    ∧ ProbabilisticModel_init G (S (S depth)) fuel qs s = Ok q
    ∧ (∀ number_samples method input_values s0,
          pm__get_posterior_sample G fuel m number_samples input_values s0
          = Raise (AttributeError "The posterior model has not been initialized.")
          ∧ estimate_log_model_evidence G fuel m number_samples method input_values s0
            = Raise (AttributeError "The posterior model has not been initialized."))
    ∧ set_posterior_model G (S (S depth)) fuel m q s = Ok m'
    ∧ variables m' = vs
    ∧ observed_submodel m' = observed_submodel m
    ∧ (∃ pm, posterior_model m' = Some pm ∧ post_variables pm = qs)
    ∧ (∀ number_samples input_values s0, ∃ d s',
          pm__get_posterior_sample G fuel m' number_samples input_values s0 = Ok (d, s'))
    ∧ (∀ number_samples method input_values s0, method ≠ Literal "ELBO" ->
          estimate_log_model_evidence G fuel m' number_samples method input_values s0
          = Raise (NotImplementedError
                     "The requested estimation method is currently not implemented.")).
Proof.
  intros Hwf Hv Hq.
  destruct (ProbabilisticModel_init_spec depth fuel vs s Hwf Hv)
    as (m & Hm & Hmv & Hmp & _).
  destruct (ProbabilisticModel_init_spec depth fuel qs s Hwf Hq)
    as (q & Hqi & Hqv & _).
  destruct (PosteriorModel_init_returns fuel qs vs Hwf Hq Hv) as (pm & Hpm & Hpv).
  exists m, q. eexists. split; [done |]. split; [done |]. split.
  { intros number_samples method input_values s0.
    unfold pm__get_posterior_sample, estimate_log_model_evidence, check_posterior_model.
    by rewrite Hmp. }
  unfold set_posterior_model, PosteriorModel_construct, model_variables.
  rewrite Hqv, Hqi, Hmv. cbn [mbind outcome_bind]. rewrite Hpm. cbn [mbind outcome_bind].
  split; [done |]. cbn [variables observed_submodel posterior_model].
  split; [done |]. split; [done |]. split; [by exists pm |]. split.
  - intros number_samples input_values s0.
    destruct (pm__get_posterior_sample_spec
                G fuel
                {| variables := vs; observed_submodel := observed_submodel m;
                   posterior_model := Some pm |}
                pm number_samples input_values s0 Hwf)
      as (d & s' & Hr & _); [done | by rewrite Hpv | done |].
    by exists d, s'.
  - intros number_samples method input_values s0 Hne.
    unfold estimate_log_model_evidence, check_posterior_model.
    cbn [posterior_model mbind outcome_bind].
    destruct method as [text | text]; simpl; [| done].
    destruct (String.eqb text "ELBO") eqn:Heq; [| done].
    apply String.eqb_eq in Heq. congruence.
Qed.

(** X14: a model is observed when every variable of its flattened list is.
    On an acyclic graph [ProbabilisticModel.is_observed] returns, and it is
    true exactly when every variable reached from the declared roots is
    observed, the deterministic ones too: the declared roots being observed is
    not enough. *)
Theorem model_is_observed_when_all_its_variables_are (fuel : nat) (vs : list nat)
    (s : state) :
  wf_graph G -> roots_in G vs fuel ->
  ∃ b, pm_is_observed G fuel vs s = Ok b
       ∧ (b = true ↔ ∀ k, reach_from G vs k -> is_observed G k s = Ok true).
Proof.
  intros Hwf Hroots. unfold pm_is_observed.
  destruct (pm_flatten_returns G fuel vs Hwf Hroots) as [l Hl]. rewrite Hl.
  cbn [mbind outcome_bind].
  destruct (mapM_is_observed l s (pm_flatten_in_graph G fuel vs l Hl))
    as (obs & -> & Hall).
  cbn [mbind outcome_bind]. exists (py_all obs). split; [done |].
  rewrite Hall. by setoid_rewrite (pm_flatten_reach G fuel vs l Hl).
Qed.

End ConstructionProps.

(** ** Sampling the posterior *)

Section PosteriorSample.

Context `{Backend}.
Variable G : graph.

(** X15: a posterior sample hands the draws of the posterior model to the
    joint model.  When [ProbabilisticModel._get_posterior_sample] returns, the
    posterior model was sampled first, and a joint variable that
    [model_mapping] couples with a posterior variable (and no other posterior
    variable with it) has, in the sample returned, the value that the posterior
    model drew for that posterior variable, unless the input values bind it;
    the joint model made no draw for it. *)
Theorem posterior_sample_binds_the_coupled_variables (fuel : nat)
    (m : ProbabilisticModel) (pm : PosteriorModel) (number_samples : nat)
    (input_values : gmap nat value) (s : state) (d : gmap nat value) (s' : state) :
  posterior_model m = Some pm ->
  (∀ p p' j, model_mapping pm !! p = Some j -> model_mapping pm !! p' = Some j -> p = p') ->
  pm__get_posterior_sample G fuel m number_samples input_values s = Ok (d, s') ->
  ∃ d1 s1,
    pm__get_sample G fuel (post_variables pm) number_samples false input_values s
    = Ok (d1, s1)
    ∧ ∀ p j v, model_mapping pm !! p = Some j -> d1 !! p = Some v ->
               input_values !! j = None ->
               d !! j = Some v ∧ ∀ e, e ∈ draws s' -> e ∈ draws s1 ∨ e.1 ≠ j.
Proof.
  intros Hpm Hinj. unfold pm__get_posterior_sample, check_posterior_model.
  rewrite Hpm. cbn [mbind outcome_bind]. unfold post__get_posterior_sample.
  destruct (pm__get_sample G fuel (post_variables pm) number_samples false input_values s)
    as [[d1 s1] | |] eqn:H1; cbn [mbind outcome_bind]; try done.
  intros Hrun. exists d1, s1. split; [done |]. intros p j v Hp Hv Hin.
  apply (pm__get_sample_input G fuel (variables m) number_samples _ s1 d s' j v Hrun).
  rewrite lookup_union_r by done.
  by apply (proj2 (posterior_sample2joint_sample_spec (model_mapping pm) d1) Hinj p).
Qed.

(** X20: no two posterior variables are coupled with one joint variable.
    Whenever the two models flatten, the [model_mapping] that
    [PosteriorModel.__init__] builds sends different posterior variables to
    different joint variables, and a posterior variable only to a joint
    variable whose name finds it: the translation of a posterior sample
    never has to choose between two values for one joint variable. *)
Theorem model_mapping_is_injective (fuel : nat) (post_vars joint_vars : list nat)
    (post_flat joint_flat : list nat) :
  pm_flatten G fuel post_vars = Ok post_flat ->
  pm_flatten G fuel joint_vars = Ok joint_flat ->
  ∃ pm, PosteriorModel_init G fuel post_vars joint_vars = Ok pm
        ∧ (∀ p p' j, model_mapping pm !! p = Some j -> model_mapping pm !! p' = Some j ->
                     p = p')
        ∧ (∀ p j, model_mapping pm !! p = Some j ->
                  ∃ nm, name_of G j = Ok nm ∧ get_variable G (Ok post_flat) nm = Ok p)
        ∧ (∀ sample j v v',
              posterior_sample2joint_sample (model_mapping pm) sample !! j = Some v ->
              ∀ p, model_mapping pm !! p = Some j -> sample !! p = Some v' -> v = v').
Proof.
  intros Hpf Hjf.
  pose proof (pm_flatten_in_graph G fuel post_vars post_flat Hpf) as Hpost.
  pose proof (pm_flatten_in_graph G fuel joint_vars joint_flat Hjf) as Hjoint.
  destruct (set_model_mapping_loop_spec G post_flat joint_flat ∅ Hpost Hjoint)
    as (mm & Hmm & Ha & _ & _).
  assert (∀ p j, mm !! p = Some j -> finds G post_flat j p) as Hfinds.
  { intros p j Hpj. destruct (Ha p j Hpj) as [He | [_ ?]]; [| done].
    by rewrite lookup_empty in He. }
  assert (∀ p p' j, mm !! p = Some j -> mm !! p' = Some j -> p = p') as Hinj.
  { intros p p' j Hp Hp'. by apply (finds_fun G post_flat j); apply Hfinds. }
  exists {| post_variables := post_vars; model_mapping := mm |}.
  split.
  { unfold PosteriorModel_init, set_model_mapping. rewrite Hjf, Hpf. simpl. by rewrite Hmm. }
  simpl. split; [done |]. split; [exact Hfinds |].
  intros sample j v v' Hj p Hp Hs.
  destruct (posterior_sample2joint_sample_spec mm sample) as [H1 _].
  destruct (H1 j v Hj) as (p' & Hp' & Hs'). rewrite (Hinj p p' j Hp Hp') in Hs. congruence.
Qed.

End PosteriorSample.

(** ** The symbolic algebra, once more *)

Section AlgebraMoreProps.

Context `{Backend}.

Lemma reads_within_mono l (h h' : set_heap) vs :
  vars_of l h = Some vs ->
  (∃ vs', vars_of l h' = Some vs' ∧ vs ⊆ vs') ->
  reads_within l h -> reads_within l h'.
Proof.
  intros Hvs (vs' & Hvs' & Hsub) (vs0 & Hvs0 & Hret & Hext).
  assert (vs0 = vs) as -> by congruence.
  exists vs'. split; [done |]. split.
  - intros values Hb. apply Hret. intros v Hv. apply Hb. set_solver.
  - intros values values' Hb. apply Hext. intros v Hv. apply Hb. set_solver.
Qed.

Lemma link_ok_extends l (h h' : set_heap) :
  (∀ a vs, h !! a = Some vs -> h' !! a = Some vs) -> link_ok l h -> link_ok l h'.
Proof.
  intros Hext [Hr [ls Hls]]. split.
  - pose proof Hr as (vs & Hvs & _).
    apply (reads_within_mono l h h' vs Hvs); [| exact Hr].
    exists vs. split; [| done]. unfold vars_of in *. apply set_at_Some.
    by apply Hext, set_at_Some.
  - exists ls. unfold links_of in *. apply set_at_Some. by apply Hext, set_at_Some.
Qed.

Lemma link_ok_set_add l (h h' : set_heap) a x :
  set_add a x h = Ok h' -> link_ok l h -> link_ok l h'.
Proof.
  unfold set_add. destruct (h !! a) as [[s |] |] eqn:Ha; try done.
  intros [= <-] [Hr [ls Hls]].
  assert (a < length h) as Hlt by by eapply lookup_lt_Some.
  split.
  - pose proof Hr as (vs & Hvs & _).
    apply (reads_within_mono l h _ vs Hvs); [| exact Hr].
    unfold vars_of in *. apply set_at_Some in Hvs.
    destruct (decide (a = vars l)) as [-> | Hne].
    + exists (vs ∪ {[x]}). rewrite set_at_Some, list_lookup_insert_eq by done.
      split; [| set_solver]. congruence.
    + exists vs. by rewrite set_at_Some, list_lookup_insert_ne.
  - unfold links_of in *. apply set_at_Some in Hls.
    destruct (decide (a = links l)) as [-> | Hne].
    + exists (ls ∪ {[x]}). rewrite set_at_Some, list_lookup_insert_eq by done. congruence.
    + exists ls. by rewrite set_at_Some, list_lookup_insert_ne.
Qed.

Lemma lookup_alloc2 (h : set_heap) (x y : set_object) :
  ((h ++ [x]) ++ [y]) !! length h = Some x
  ∧ ((h ++ [x]) ++ [y]) !! length (h ++ [x]) = Some y
  ∧ ∀ a vs, h !! a = Some vs -> ((h ++ [x]) ++ [y]) !! a = Some vs.
Proof.
  split; [| split].
  - rewrite <- app_assoc. by apply list_lookup_middle.
  - by apply list_lookup_middle.
  - intros a vs Ha. rewrite <- app_assoc. by apply lookup_app_l_Some.
Qed.

Lemma subscript_bound (values : gmap nat value) v :
  is_Some (values !! v) -> ∃ a, subscript values v = Ok a.
Proof. intros [a Ha]. exists a. unfold subscript. by rewrite Ha. Qed.

Lemma subscript_agree (values values' : gmap nat value) v :
  values !! v = values' !! v -> subscript values v = subscript values' v.
Proof. intros Hv. unfold subscript. by rewrite Hv. Qed.

(** [var2link] keeps the objects of the heap. *)
Lemma var2link_extends (other other' : operand) (h h1 : set_heap) :
  var2link other h = (other', h1) -> ∀ a x, h !! a = Some x -> h1 !! a = Some x.
Proof.
  destruct other as [o | v | c |]; simpl; intros [= <- <-]; try done.
  - by destruct (lookup_alloc2 h (PySet {[v]}) (PySet ∅)) as (_ & _ & Hext).
  - by destruct (lookup_alloc2 h PyDict (PySet ∅)) as (_ & _ & Hext).
Qed.

(** [var2link] on an operand gives a link that reads within what the
    iteration over its [vars] yields; the [vars] of the link of a number is
    a dictionary, not a set. *)
Lemma var2link_ok (other : operand) (h : set_heap) :
  operand_ok other h -> other ≠ OpOther ->
  ∃ o h1 cell lo,
    var2link other h = (OpLink o, h1)
    ∧ h1 !! vars o = Some cell
    ∧ (∀ values, (∀ v, v ∈ iter_of cell -> is_Some (values !! v)) ->
                 ∃ r, fn o values = Ok r)
    ∧ (∀ values values', (∀ v, v ∈ iter_of cell -> values !! v = values' !! v) ->
                         fn o values = fn o values')
    ∧ h1 !! links o = Some (PySet lo).
Proof.
  intros Hok Hne. destruct other as [o | v | c |]; [| | | done]; simpl.
  - destruct Hok as [(vo & Hvo & Hret & Hext) [lo Hlo]].
    unfold vars_of, links_of in *. apply set_at_Some in Hvo, Hlo.
    by exists o, h, (PySet vo), lo.
  - destruct (lookup_alloc2 h (PySet {[v]}) (PySet ∅)) as (Hv & Hl & Hext).
    eexists _, _, (PySet {[v]}), ∅. split; [done |]. split; [exact Hv |].
    split; [| split; [| exact Hl]].
    + intros values Hb. simpl. apply subscript_bound, Hb. simpl. set_solver.
    + intros values values' Hb. simpl. apply subscript_agree, Hb. simpl. set_solver.
  - destruct (lookup_alloc2 h PyDict (PySet ∅)) as (Hv & Hl & Hext).
    eexists _, _, PyDict, ∅. split; [done |]. split; [exact Hv |].
    split; [| split; [| exact Hl]]; [by eexists | done].
Qed.

(** [Variable._apply_operator] gives a link that reads within its [vars], and
    leaves the links of the heap such. *)
Lemma Variable_apply_operator_ok (self : nat) (other : operand)
    (op : value -> value -> value) (h : set_heap) :
  operand_ok other h -> other ≠ OpOther ->
  ∃ l h', Variable_apply_operator self other op h = Ok (l, h')
          ∧ link_ok l h' ∧ ∀ l0, link_ok l0 h -> link_ok l0 h'.
Proof.
  intros Hok Hne. destruct other as [o | v | c |]; [| | | done]; simpl.
  - destruct Hok as [(vo & Hvo & Hret & Hext) [lo Hlo]].
    unfold vars_of, links_of in *. apply set_at_Some in Hvo, Hlo.
    assert (vars o < length h) as Hlt by by eapply lookup_lt_Some.
    assert (set_add (vars o) self h = Ok (<[vars o := PySet (vo ∪ {[self]})]> h))
      as Hadd by (unfold set_add; by rewrite Hvo).
    rewrite Hadd. cbn [mbind outcome_bind].
    eexists _, _. split; [done |].
    split; [| intros l0; by apply (link_ok_set_add l0 h _ (vars o) self)].
    split.
    + exists (vo ∪ {[self]}). unfold vars_of. simpl.
      split; [by rewrite set_at_Some, list_lookup_insert_eq |]. split.
      * intros values Hb.
        destruct (subscript_bound values self) as [a ->]; [apply Hb; set_solver |].
        destruct (Hret values) as [b ->]; [intros v Hv; apply Hb; set_solver |].
        simpl. by eexists.
      * intros values values' Hb.
        rewrite (subscript_agree values values' self) by (apply Hb; set_solver).
        rewrite (Hext values values'); [done |]. intros v Hv. apply Hb. set_solver.
    + unfold links_of. simpl.
      destruct (decide (vars o = links o)) as [Heq | Hvl].
      * exists (vo ∪ {[self]}). rewrite set_at_Some, <- Heq.
        by rewrite list_lookup_insert_eq.
      * exists lo. by rewrite set_at_Some, list_lookup_insert_ne.
  - destruct (lookup_alloc2 h (PySet {[self; v]}) (PySet ∅)) as (Hv & Hl & Hext).
    eexists _, _. split; [done |]. split; [| intros l0; by apply link_ok_extends].
    split; [| exists ∅; by apply set_at_Some].
    exists {[self; v]}. split; [by apply set_at_Some |]. split.
    + intros values Hb. simpl.
      destruct (subscript_bound values self) as [a ->]; [apply Hb; set_solver |].
      destruct (subscript_bound values v) as [b ->]; [apply Hb; set_solver |].
      simpl. by eexists.
    + intros values values' Hb. simpl.
      rewrite (subscript_agree values values' self) by (apply Hb; set_solver).
      by rewrite (subscript_agree values values' v) by (apply Hb; set_solver).
  - destruct (lookup_alloc2 h (PySet {[self]}) (PySet ∅)) as (Hv & Hl & Hext).
    eexists _, _. split; [done |]. split; [| intros l0; by apply link_ok_extends].
    split; [| exists ∅; by apply set_at_Some].
    exists {[self]}. split; [by apply set_at_Some |]. split.
    + intros values Hb. simpl.
      destruct (subscript_bound values self) as [a ->]; [apply Hb; set_solver |].
      simpl. by eexists.
    + intros values values' Hb. simpl.
      by rewrite (subscript_agree values values' self) by (apply Hb; set_solver).
Qed.

(** [PartialLink._apply_operator] gives a link that reads within its [vars],
    and leaves the objects of the heap as they are. *)
Lemma PartialLink_apply_operator_ok (self : PartialLink) (other : operand)
    (op : value -> value -> value) (h : set_heap) :
  link_ok self h -> operand_ok other h -> other ≠ OpOther ->
  ∃ l h', PartialLink_apply_operator self other op h = Ok (l, h')
          ∧ link_ok l h' ∧ (∀ l0, link_ok l0 h -> link_ok l0 h')
          ∧ ∀ a vs, h !! a = Some vs -> h' !! a = Some vs.
Proof.
  intros Hself Hok Hne.
  destruct (var2link_ok other h Hok Hne)
    as (o & h1 & cell & lo & Ho & Hcell & Hreto & Hexto & Hlo).
  pose proof (var2link_extends _ _ _ _ Ho) as Hext1.
  unfold PartialLink_apply_operator. rewrite Ho.
  pose proof (link_ok_extends self h h1 Hext1 Hself) as Hself1.
  destruct Hself1 as [(vs & Hvs & Hrets & Hexts) [ls Hls]].
  unfold vars_of, links_of in *. apply set_at_Some in Hvs, Hls.
  assert (set_union (vars self) (vars o) h1 = Ok (vs ∪ iter_of cell)) as ->
    by (unfold set_union; by rewrite Hvs, Hcell).
  cbn [mbind outcome_bind alloc].
  assert (set_union (links self) (links o) (h1 ++ [PySet (vs ∪ iter_of cell)])
          = Ok (ls ∪ lo)) as ->.
  { unfold set_union.
    rewrite (lookup_app_l_Some _ _ _ _ Hls), (lookup_app_l_Some _ _ _ _ Hlo). done. }
  cbn [mbind outcome_bind].
  destruct (lookup_alloc2 h1 (PySet (vs ∪ iter_of cell)) (PySet (ls ∪ lo)))
    as (Hv & Hl & Hext).
  eexists _, _. split; [done |].
  assert (∀ a x, h !! a = Some x ->
                 ((h1 ++ [PySet (vs ∪ iter_of cell)]) ++ [PySet (ls ∪ lo)]) !! a = Some x)
    as Hall.
  { intros a x Ha. by apply Hext, Hext1. }
  split; [| split; [intros l0; by apply link_ok_extends | done]].
  split; [| exists (ls ∪ lo); by apply set_at_Some].
  exists (vs ∪ iter_of cell). split; [by apply set_at_Some |]. split.
  - intros values Hb. simpl.
    destruct (Hrets values) as [a ->]; [intros v Hv'; apply Hb; set_solver |].
    destruct (Hreto values) as [b ->]; [intros v Hv'; apply Hb; set_solver |].
    simpl. by eexists.
  - intros values values' Hb. simpl.
    rewrite (Hexts values values') by (intros v Hv'; apply Hb; set_solver).
    by rewrite (Hexto values values') by (intros v Hv'; apply Hb; set_solver).
Qed.

(** The link that [var2link] gives a number has the dictionary [{}] as its
    [vars]: it is an operand of [PartialLink._apply_operator] only.  As the
    operand of a variable it raises, and as the receiver of an operator it
    raises, whatever the other operand. *)
Lemma var2link_of_a_number (c : value) (h : set_heap) :
  ∃ o h1,
    var2link (OpNumber c) h = (OpLink o, h1)
    ∧ h1 !! vars o = Some PyDict
    ∧ vars_of o h1 = None
    ∧ (∀ self op,
         Variable_apply_operator self (OpLink o) op h1
         = Raise (AttributeError "'dict' object has no attribute 'add'"))
    ∧ (∀ other op,
         PartialLink_apply_operator o other op h1
         = Raise (AttributeError "'dict' object has no attribute 'union'")).
Proof.
  destruct (lookup_alloc2 h PyDict (PySet ∅)) as (Hv & Hl & Hext).
  eexists _, _. split; [done |]. cbn [vars]. split; [exact Hv |].
  split; [unfold vars_of, set_at; cbn [vars]; by rewrite Hv |]. split.
  - intros self op. cbn [Variable_apply_operator vars]. unfold set_add.
    by rewrite Hv.
  - intros other op. unfold PartialLink_apply_operator.
    destruct (var2link other ((h ++ [PyDict]) ++ [PySet ∅])) as [other' h2] eqn:Ho.
    pose proof (var2link_extends _ _ _ _ Ho _ _ Hv) as Hv2. cbn [vars] in *.
    destruct other' as [o' | v' | c' |]; unfold set_union; cbn [vars];
      by rewrite Hv2.
Qed.

(** X16: a link reads the variables of its [vars] only.  Every operator of
    a variable or of a link with a variable, a number or a link that does so
    returns a link that does so: the function of the new link returns on every
    assignment that binds the variables of its [vars], without a [KeyError],
    and returns the same on assignments that agree on them.  The links built
    before keep the property, also the operand whose set
    [Variable._apply_operator] extends: a set only grows.  The link that
    [var2link] gives a number is no such link, as its [vars] is the
    dictionary [{}] and not a set: inside [PartialLink._apply_operator] it is
    only iterated, but as the operand of a variable and as the receiver of an
    operator it raises [AttributeError]. *)
Theorem links_read_within_their_vars (op : value -> value -> value) (h : set_heap) :
  (∀ self other, operand_ok other h -> other ≠ OpOther ->
     ∃ l h', Variable_apply_operator self other op h = Ok (l, h')
             ∧ link_ok l h' ∧ ∀ l0, link_ok l0 h -> link_ok l0 h')
  ∧ (∀ self other, link_ok self h -> operand_ok other h -> other ≠ OpOther ->
       ∃ l h', PartialLink_apply_operator self other op h = Ok (l, h')
               ∧ link_ok l h' ∧ ∀ l0, link_ok l0 h -> link_ok l0 h')
  ∧ (∀ self, Variable_apply_operator self OpOther op h = Raise (TypeError ""))
  ∧ (∀ c, ∃ o h1,
       var2link (OpNumber c) h = (OpLink o, h1)
       ∧ h1 !! vars o = Some PyDict
       ∧ ¬ link_ok o h1
       ∧ (∀ self, Variable_apply_operator self (OpLink o) op h1
                  = Raise (AttributeError "'dict' object has no attribute 'add'"))
       ∧ (∀ other, PartialLink_apply_operator o other op h1
                   = Raise (AttributeError "'dict' object has no attribute 'union'"))).
Proof.
  split; [| split; [| split; [done |]]].
  - intros self other. apply Variable_apply_operator_ok.
  - intros self other Hself Hok Hne.
    destruct (PartialLink_apply_operator_ok self other op h Hself Hok Hne)
      as (l & h' & Hrun & Hl & Hframe & _).
    by exists l, h'.
  - intros c. destruct (var2link_of_a_number c h) as (o & h1 & Ho & Hd & Hn & Hv & Hp).
    exists o, h1. split; [done |]. split; [done |]. split; [| by split].
    intros [(vs & Hvs & _) _]. congruence.
Qed.

End AlgebraMoreProps.

Section LinkObjectsProps.

Context `{Backend}.
Variable G : graph.

Lemma object_name_dict_raises l self acc :
  (∀ x, x ∈ l -> is_Some (G !! x)) ->
  object_name_dict G ((FVariable <$> l) ++ [FLink self]) acc
  = Raise (AttributeError "'PartialLink' object has no attribute 'name'").
Proof.
  revert acc. induction l as [|x l IH]; intros acc Hin; [done |].
  cbn [fmap list_fmap app object_name_dict object_name].
  destruct (name_of_in_graph G x) as [nx ->]; [apply Hin; left |].
  cbn [mbind outcome_bind]. apply IH. intros y Hy. apply Hin. by right.
Qed.

(** X17: [get_variable] on a link never returns.  The flattened list of a
    link ends with the link itself, which has no name: whenever [_flatten] of
    the link returns (on an acyclic graph it does), [get_variable] raises the
    [AttributeError] of [var.name], whatever name is asked, also the name of a
    variable that the link reads; the handler of [get_variable] does not catch
    it. *)
Theorem get_variable_of_a_link_raises (fuel : nat) (self : PartialLink) (h : set_heap)
    (vs : gset nat) :
  vars_of self h = Some vs ->
  (wf_graph G -> (∀ v, v ∈ vs -> v < fuel ∧ is_Some (G !! v)) ->
   ∃ flat, PartialLink__flatten G fuel self h = Ok flat
           ∧ last flat = Some (FLink self)
           ∧ ∀ x, FVariable x ∈ flat ↔ ∃ v, v ∈ vs ∧ reach G v x)
  ∧ (∀ flat var_name,
       PartialLink__flatten G fuel self h = Ok flat ->
       PartialLink_get_variable G fuel self h var_name
       = Raise (AttributeError "'PartialLink' object has no attribute 'name'")).
Proof.
  unfold vars_of. rewrite set_at_Some. intros Hvs. split.
  - intros Hwf Hin. unfold PartialLink__flatten. rewrite Hvs. cbn [iter_of].
    destruct (mapM_returns (_flatten G fuel) (elements vs)) as [ls Hls].
    { intros v Hv%elem_of_elements. destruct (Hin v Hv). by apply _flatten_returns. }
    rewrite Hls. cbn [mbind outcome_bind]. eexists. split; [done |].
    split; [by rewrite last_snoc |].
    intros x. rewrite elem_of_app, list_elem_of_singleton, list_elem_of_fmap.
    pose proof (mapM_flatten_spec G fuel (elements vs) ls
                  (fun p l _ => _flatten_reach G fuel p l) Hls x) as Hx.
    split.
    + intros [(y & [= <-] & Hy) | [=]]. apply Hx in Hy as (v & Hv & Hr).
      exists v. split; [by apply elem_of_elements | done].
    + intros (v & Hv & Hr). left. exists x. split; [done |]. apply Hx.
      exists v. split; [by apply elem_of_elements | done].
  - intros flat var_name. unfold PartialLink_get_variable, PartialLink__flatten.
    rewrite Hvs. cbn [iter_of].
    destruct (mapM (_flatten G fuel) (elements vs)) as [ls | |] eqn:Hls;
      cbn [mbind outcome_bind]; try done.
    intros [= <-]. rewrite object_name_dict_raises; [done |].
    intros x (l & Hl & Hx)%elem_of_flatten_list. apply mapM_Ok in Hls.
    destruct (Forall2_elem_of_r _ _ _ _ Hls Hl) as (p & _ & Hp).
    by apply (flatten_in_graph G fuel p l).
Qed.

End LinkObjectsProps.

Section OperatorsProps.

Context `{Backend}.
Variables operator_add operator_sub operator_mul : value -> value -> value.
Variable minus_one : value.

(** X18: the reflected operators of a variable.  For a number [c] and a
    variable [x], [c + x] and [c * x] are [x + c] and [x * c]: the link reads
    [x] alone and applies the operator to the value of [x] first and [c]
    second.  [c - x] is [-1 * (x - c)]: a link that reads [x] alone and
    multiplies the value of [x] minus [c] by [-1], which is [c] minus the value
    of [x] when the arithmetic of the values has it so.  [c / x] and [c ** x]
    raise [NotImplementedError]. *)
Theorem reflected_operators_of_a_variable (self : nat) (c : value) (h : set_heap)
    (values : gmap nat value) (a : value) :
  values !! self = Some a ->
  (∃ l h', Variable_radd operator_add self (OpNumber c) h = Ok (l, h')
           ∧ vars_of l h' = Some {[ self ]}
           ∧ fn l values = Ok (operator_add a c))
  ∧ (∃ l h', Variable_rmul operator_mul self (OpNumber c) h = Ok (l, h')
             ∧ vars_of l h' = Some {[ self ]}
             ∧ fn l values = Ok (operator_mul a c))
  ∧ (∃ l h', Variable_rsub operator_sub operator_mul minus_one self (OpNumber c) h
             = Ok (l, h')
             ∧ vars_of l h' = Some {[ self ]}
             ∧ fn l values = Ok (operator_mul (operator_sub a c) minus_one)
             ∧ ((∀ x y, operator_mul (operator_sub x y) minus_one = operator_sub y x) ->
                fn l values = Ok (operator_sub c a))
             ∧ ∀ k vs, h !! k = Some vs -> h' !! k = Some vs)
  ∧ Variable_rtruediv self (OpNumber c) h = Raise (NotImplementedError "")
  ∧ Variable_rpow self (OpNumber c) h = Raise (NotImplementedError "").
Proof.
  intros Ha.
  assert (subscript values self = Ok a) as Hsub by (unfold subscript; by rewrite Ha).
  destruct (lookup_alloc2 h (PySet {[self]}) (PySet ∅)) as (Hv & Hl & Hext).
  split; [| split; [| split; [| done]]].
  - eexists _, _. split; [done |]. split; [by apply set_at_Some |]. simpl.
    by rewrite Hsub.
  - eexists _, _. split; [done |]. split; [by apply set_at_Some |]. simpl.
    by rewrite Hsub.
  - unfold Variable_rsub, Variable_sub, PartialLink_rmul, PartialLink_mul.
    cbn [Variable_apply_operator alloc mbind outcome_bind].
    set (h1 := (h ++ [PySet {[self]}]) ++ [PySet ∅]).
    unfold PartialLink_apply_operator. cbn [var2link alloc vars links].
    destruct (lookup_alloc2 h1 PyDict (PySet ∅)) as (Hv2 & Hl2 & Hext2).
    set (h2 := (h1 ++ [PyDict]) ++ [PySet ∅]) in *.
    assert (set_union (length h) (length h1) h2 = Ok ({[self]} ∪ ∅)) as ->
      by (unfold set_union; by rewrite (Hext2 _ _ Hv), Hv2).
    cbn [mbind outcome_bind].
    assert (set_union (length (h ++ [PySet {[self]}])) (length (h1 ++ [PyDict]))
                      (h2 ++ [PySet ({[self]} ∪ ∅)]) = Ok (∅ ∪ ∅)) as ->.
    { unfold set_union.
      rewrite (lookup_app_l_Some _ _ _ _ (Hext2 _ _ Hl)), (lookup_app_l_Some _ _ _ _ Hl2).
      done. }
    cbn [mbind outcome_bind].
    destruct (lookup_alloc2 h2 (PySet ({[self]} ∪ ∅)) (PySet (∅ ∪ ∅)))
      as (Hv3 & Hl3 & Hext3).
    eexists _, _. split; [done |]. unfold vars_of. cbn [vars fn].
    split; [by rewrite set_at_Some, Hv3, (right_id_L ∅ (∪)) |].
    rewrite Hsub. cbn [mbind outcome_bind].
    split; [done |]. split; [by intros -> |].
    intros k vs Hk. by apply Hext3, Hext2, Hext.
Qed.

End OperatorsProps.

Section IndexingProps.

Context `{Backend}.
Variable index : Type.
Variable full_slice : index.
Variable value_getitem : value -> list index -> value.
Variable value_shape : value -> value.

(** X19: the subscript and the shape of a link share its [vars] and drop its
    [links].  [PartialLink.__getitem__] and [PartialLink.shape] return a link
    whose [vars] is the set object of the link itself and whose [links] is a
    new empty set, whatever the [links] of the link hold; the function
    subscripts what the link returns by the whole first axis and then the key
    (gives its shape).  As the set is shared, an operator of a variable with
    the new link adds the variable to the [vars] of the link it came from.
    The subscript and the shape of a variable are links over new sets, with
    the variable alone in [vars]. *)
Theorem subscript_of_a_link_shares_its_vars (e : PartialLink) (key : item_key index)
    (h : set_heap) (vs ls : gset nat) :
  vars_of e h = Some vs -> links_of e h = Some ls ->
  (∃ g h1, PartialLink_getitem index full_slice value_getitem e key h = (g, h1)
           ∧ vars g = vars e
           ∧ vars_of g h1 = Some vs
           ∧ links_of g h1 = Some ∅
           ∧ links_of e h1 = Some ls
           ∧ (∀ values, fn g values
                        = (a ← fn e values;
                           Ok (value_getitem a (variable_slice index full_slice key))))
           ∧ ∀ x op, ∃ f h2,
               Variable_apply_operator x (OpLink g) op h1 = Ok (f, h2)
               ∧ vars_of e h2 = Some (vs ∪ {[ x ]}))
  ∧ (∃ g h1, PartialLink_shape value_shape e h = (g, h1)
             ∧ vars g = vars e
             ∧ vars_of g h1 = Some vs
             ∧ links_of g h1 = Some ∅
             ∧ links_of e h1 = Some ls
             ∧ (∀ values, fn g values = (a ← fn e values; Ok (value_shape a)))
             ∧ ∀ x op, ∃ f h2,
                 Variable_apply_operator x (OpLink g) op h1 = Ok (f, h2)
                 ∧ vars_of e h2 = Some (vs ∪ {[ x ]}))
  ∧ (∀ self, ∃ g h1 g' h1',
       Variable_getitem index full_slice value_getitem self key h = (g, h1)
       ∧ Variable_shape value_shape self h = (g', h1')
       ∧ vars_of g h1 = Some {[ self ]} ∧ links_of g h1 = Some ∅
       ∧ vars_of g' h1' = Some {[ self ]} ∧ links_of g' h1' = Some ∅
       ∧ vars_of e h1 = Some vs ∧ vars_of e h1' = Some vs).
Proof.
  unfold vars_of, links_of. rewrite !set_at_Some. intros Hvs Hls.
  assert ((h ++ [PySet ∅]) !! vars e = Some (PySet vs)) as Hvs1
    by by apply lookup_app_l_Some.
  assert ((h ++ [PySet ∅]) !! links e = Some (PySet ls)) as Hls1
    by by apply lookup_app_l_Some.
  assert ((h ++ [PySet ∅]) !! length h = Some (PySet ∅)) as Hnew
    by by apply list_lookup_middle.
  assert (vars e < length (h ++ [PySet ∅])) as Hlt by by eapply lookup_lt_Some.
  assert (∀ x, set_add (vars e) x (h ++ [PySet ∅])
               = Ok (<[vars e := PySet (vs ∪ {[x]})]> (h ++ [PySet ∅]))) as Hadd
    by (intros x; unfold set_add; by rewrite Hvs1).
  split; [| split].
  - eexists _, _. split; [done |]. cbn [vars links fn]. rewrite !set_at_Some.
    split; [done |]. split; [done |]. split; [done |]. split; [done |].
    split; [done |]. intros x op. cbn [Variable_apply_operator vars].
    rewrite Hadd. cbn [mbind outcome_bind]. eexists _, _. split; [done |].
    by rewrite set_at_Some, list_lookup_insert_eq.
  - eexists _, _. split; [done |]. cbn [vars links fn]. rewrite !set_at_Some.
    split; [done |]. split; [done |]. split; [done |]. split; [done |].
    split; [done |]. intros x op. cbn [Variable_apply_operator vars].
    rewrite Hadd. cbn [mbind outcome_bind]. eexists _, _. split; [done |].
    by rewrite set_at_Some, list_lookup_insert_eq.
  - intros self.
    destruct (lookup_alloc2 h (PySet {[self]}) (PySet ∅)) as (Hv & Hl & Hext).
    eexists _, _, _, _. split; [done |]. split; [done |]. cbn [vars links].
    rewrite !set_at_Some.
    split; [exact Hv |]. split; [exact Hl |]. split; [exact Hv |]. split; [exact Hl |].
    split; by apply Hext.
Qed.

End IndexingProps.

(** ** The value of a random variable *)

Section ValueProps.

Context `{Backend}.

(** X22: what [value] returns around [observe] and the setter.  After
    [observe] with data the variable is observed and [value] returns the
    coerced data, whatever the state was; assigning [value] then does not
    change what [value] returns, and the assigned value shows once the variable
    is unobserved.  After [observe] with a random variable as the data the
    variable is observed too, and [value] returns the observed value there
    was: [None] for a variable as [__init__] or [unobserve] leave it.  Neither
    [observe] nor the setter touches the cache of draws or the memo flag. *)
Theorem value_of_an_observed_variable (st : rv_state) (data val : value) (d : nat) :
  rv_is_observed (observe (ObsValue data) st) = true
  ∧ rv_value (observe (ObsValue data) st) = coerce_to_dtype data true
  ∧ rv_value (rv_set_value val (observe (ObsValue data) st)) = coerce_to_dtype data true
  ∧ rv_value (unobserve (rv_set_value val (observe (ObsValue data) st)))
    = coerce_to_dtype val false
  ∧ rv_value (rv_set_value val (unobserve st)) = coerce_to_dtype val false
  ∧ rv_is_observed (observe (ObsVariable d) st) = true
  ∧ rv_value (observe (ObsVariable d) st) = _observed_value st
  ∧ rv_value (observe (ObsVariable d) (unobserve st)) = pyNone
  ∧ rv_value (observe (ObsVariable d) rv_init) = pyNone
  ∧ rv_value (observe (ObsVariable d) (observe (ObsValue data) st))
    = coerce_to_dtype data true
  ∧ (∀ o, samples (observe o st) = samples st
          ∧ _evaluated (observe o st) = _evaluated st
          ∧ _current_value (observe o st) = _current_value st)
  ∧ samples (rv_set_value val st) = samples st
  ∧ _evaluated (rv_set_value val st) = _evaluated st.
Proof.
  repeat split; try reflexivity; by destruct o.
Qed.

End ValueProps.

(** ** The further properties on the examples *)

Section MoreExamplesProps.

Import IntBackend MoreExamples.
#[local] Existing Instance backend.

Lemma diamond_roots : roots_in diamond [3] 4.
Proof. apply roots_inb_sound. vm_compute. reflexivity. Qed.

Lemma coupling_joint_roots : roots_in coupling [0; 1] 3.
Proof. apply roots_inb_sound. vm_compute. reflexivity. Qed.

Lemma coupling_posterior_roots : roots_in coupling [2] 3.
Proof. apply roots_inb_sound. vm_compute. reflexivity. Qed.

Lemma fresh_heap_clean (A : nat -> Prop) : ∀ x, A x -> samples (get fresh_heap x) = [].
Proof. intros x _. reflexivity. Qed.

(** The model of the diamond sampled with no input value. *)
Lemma model_sample_binds_every_variable_witness :
  wf_graph diamond ∧ roots_in diamond [3] 4
  ∧ (∀ x, reach_from diamond [3] x -> samples (get fresh_heap x) = [])
  ∧ ∃ d s',
      pm__get_sample diamond 4 [3] 1 false ∅ fresh_heap = Ok (d, s')
      ∧ (∀ x, is_Some (d !! x) ↔ is_Some ((∅ : gmap nat (option Z)) !! x)
                                  ∨ live_from diamond ∅ [3] x)
      ∧ (∀ x, x ∈ [3] -> is_Some (d !! x))
      ∧ ((∅ : gmap nat (option Z)) = ∅ ->
         pm_get_sample diamond 4 [3] 1 ∅ fresh_heap = Ok (d, s')
         ∧ ∀ x, is_Some (d !! x) ↔ reach_from diamond [3] x).
Proof.
  split; [exact diamond_wf |]. split; [exact diamond_roots |].
  split; [apply fresh_heap_clean |].
  exact (model_sample_binds_every_variable diamond 4 [3] 1 ∅ fresh_heap diamond_wf
           diamond_roots (fresh_heap_clean _)).
Defined.

(** The model of the diamond sampled with [C1] bound to 7. *)
Lemma model_sample_draws_each_variable_once_witness :
  wf_graph diamond ∧ roots_in diamond [3] 4
  ∧ (∀ x, reach_from diamond [3] x -> samples (get fresh_heap x) = [])
  ∧ ∃ d s' new,
      pm__get_sample diamond 4 [3] 1 false {[ 1 := Some 7%Z ]} fresh_heap = Ok (d, s')
      ∧ draws s' = draws fresh_heap ++ ((fun x => (x, x)) <$> new)
      ∧ NoDup new
      ∧ (∀ x, x ∈ new ↔ live_from diamond {[ 1 := Some 7%Z ]} [3] x ∧ is_random diamond x
                         ∧ ({[ 1 := Some 7%Z ]} : gmap nat (option Z)) !! x = None).
Proof.
  split; [exact diamond_wf |]. split; [exact diamond_roots |].
  split; [apply fresh_heap_clean |].
  destruct (model_sample_draws_each_variable_once diamond 4 [3] 1 {[ 1 := Some 7%Z ]}
              fresh_heap diamond_wf diamond_roots (fresh_heap_clean _))
    as (d & s' & new & Hrun & Hd & Hnd & Hnew & _).
  by exists d, s', new.
Defined.



Lemma input_value_is_kept_and_not_drawn_witness :
  ({[ 1 := Some 7%Z ]} : gmap nat (option Z)) !! 1 = Some (Some 7%Z)
  ∧ ∃ d s',
      pm__get_sample diamond 4 [3] 1 false {[ 1 := Some 7%Z ]} fresh_heap = Ok (d, s')
      ∧ d !! 1 = Some (Some 7%Z)
      ∧ ∀ e, e ∈ draws s' -> e ∈ draws fresh_heap ∨ e.1 ≠ 1.
Proof.
  split; [reflexivity |].
  destruct (pm__get_sample diamond 4 [3] 1 false {[ 1 := Some 7%Z ]} fresh_heap)
    as [[d s'] | |] eqn:Hrun; [| by vm_compute in Hrun | by vm_compute in Hrun].
  exists d, s'. split; [reflexivity |].
  exact (input_value_is_kept_and_not_drawn diamond 4 [3] 1 {[ 1 := Some 7%Z ]}
           fresh_heap d s' 1 (Some 7%Z) Hrun eq_refl).
Defined.

(** The flattened list of the root of the diamond, and of its model. *)
Lemma flatten_is_the_reachable_set_witness :
  wf_graph diamond ∧ is_Some (diamond !! 3) ∧ 3 < 4 ∧ roots_in diamond [3] 4
  ∧ (∃ l vs, _flatten diamond 4 3 = Ok l ∧ flatten diamond 4 3 = Ok vs
             ∧ (∀ x, x ∈ l ↔ reach diamond 3 x)
             ∧ (∀ x, x ∈ vs ↔ reach diamond 3 x)
             ∧ last l = Some 3)
  ∧ (∃ l vs, pm_flatten diamond 4 [3] = Ok l
             ∧ ProbabilisticModel_flatten diamond 4 [3] = Ok vs
             ∧ (∀ x, x ∈ l ↔ reach_from diamond [3] x)
             ∧ (∀ x, x ∈ vs ↔ reach_from diamond [3] x)).
Proof.
  assert (is_Some (diamond !! 3)) as Hin by by eexists.
  split; [exact diamond_wf |]. split; [exact Hin |]. split; [lia |].
  split; [exact diamond_roots |]. split.
  - exact (proj1 (flatten_is_the_reachable_set diamond 4 diamond_wf) 3 Hin ltac:(lia)).
  - exact (proj2 (flatten_is_the_reachable_set diamond 4 diamond_wf) [3] diamond_roots).
Defined.

(** In the flattened list of the root of the diamond, [C2] comes after its
    parent [P]. *)
Lemma flatten_lists_parents_first_witness :
  _flatten diamond 4 3 = Ok [0; 1; 0; 2; 3]
  ∧ diamond !! 2 = Some (rv "C2" 2 [0])
  ∧ 0 ∈ [0; 1; 0].
Proof.
  split; [reflexivity |]. split; [reflexivity |].
  eapply (proj1 (flatten_lists_parents_first diamond 4) 3 [0; 1; 0; 2; 3] [0; 1; 0] 2 [3]
                _ 0).
  - reflexivity.
  - reflexivity.
  - reflexivity.
  - left.
Defined.

Lemma coupling_in_graph : ∀ x, x ∈ [0] ++ 2 :: [1] -> is_Some (coupling !! x).
Proof.
  intros x Hx. repeat (apply elem_of_cons in Hx as [-> | Hx]); try by eexists.
  by apply elem_of_nil in Hx.
Qed.

Lemma sigma_is_not_mu_post : ∀ x, x ∈ [1] -> name_of coupling x ≠ Ok "mu_post".
Proof. intros x ->%list_elem_of_singleton. vm_compute. discriminate. Qed.

(** Of the two variables [mu_post], the one that comes last in the list is
    found. *)
Lemma get_variable_returns_the_last_of_a_name_witness :
  (∀ x, x ∈ [0] ++ 2 :: [1] -> is_Some (coupling !! x))
  ∧ name_of coupling 2 = Ok "mu_post"
  ∧ name_of coupling 0 = Ok "mu_post"
  ∧ (∀ x, x ∈ [1] -> name_of coupling x ≠ Ok "mu_post")
  ∧ get_variable coupling (Ok ([0] ++ 2 :: [1])) "mu_post" = Ok 2.
Proof.
  split; [exact coupling_in_graph |]. split; [reflexivity |]. split; [reflexivity |].
  split; [exact sigma_is_not_mu_post |].
  exact (get_variable_returns_the_last_of_a_name coupling [0] [1] 2 "mu_post"
           coupling_in_graph eq_refl sigma_is_not_mu_post).
Defined.

(** The variable [x] finds itself, not its parent [x]. *)
Lemma get_variable_of_own_name_witness :
  _flatten namesakes 2 1 = Ok [0; 1]
  ∧ name_of namesakes 1 = Ok "x"
  ∧ name_of namesakes 0 = Ok "x"
  ∧ get_variable namesakes (_flatten namesakes 2 1) "x" = Ok 1.
Proof.
  split; [reflexivity |]. split; [reflexivity |]. split; [reflexivity |].
  exact (get_variable_of_own_name namesakes 2 1 [0; 1] "x" eq_refl eq_refl).
Defined.

(** The reset of the model of the diamond on a heap that holds draws of
    [P]. *)
Lemma reset_clears_the_caches_only_witness :
  wf_graph diamond ∧ roots_in diamond [3] 4
  ∧ ∃ s', pm_reset diamond 4 [3] cached_heap = Ok s'
          ∧ (∀ k, model_set diamond [3] k -> get s' k = clear (get cached_heap k))
          ∧ (∀ k, ¬ model_set diamond [3] k -> get s' k = get cached_heap k)
          ∧ draws s' = draws cached_heap
          ∧ ∃ s'', pm_reset diamond 4 [3] s' = Ok s'' ∧ ∀ k, get s'' k = get s' k.
Proof.
  split; [exact diamond_wf |]. split; [exact diamond_roots |].
  destruct (reset_clears_the_caches_only diamond 4 [3] cached_heap diamond_wf
              diamond_roots)
    as (s' & Hrun & Hin & Hout & _ & Hd & _ & Hagain).
  exists s'. split; [exact Hrun |]. split; [exact Hin |]. split; [exact Hout |].
  split; [exact Hd | exact Hagain].
Defined.

(** After [x.calculate_log_probability({})] the model of [x] answers 0. *)
Lemma variable_level_call_leaves_the_memo_flag_witness :
  wf_graph single ∧ single !! 0 = Some (rv "x" 10 []) ∧ 0 < 1
  ∧ ∃ lp s1,
      calculate_log_probability single 1 0 ∅ true fresh_heap = Ok (lp, s1)
      ∧ _evaluated (get s1 0) = true
      ∧ ∀ rv_values, ∃ s2,
          pm_calculate_log_probability single 1 [0] rv_values s1
          = Ok (py_sum [lzero], s2)
          ∧ evals s2 = evals s1
          ∧ _evaluated (get s2 0) = false.
Proof.
  split; [exact single_wf |]. split; [reflexivity |]. split; [lia |].
  destruct (calculate_log_probability single 1 0 ∅ true fresh_heap)
    as [[lp s1] | |] eqn:Hrun; [| by vm_compute in Hrun | by vm_compute in Hrun].
  exists lp, s1. split; [reflexivity |].
  exact (variable_level_call_leaves_the_memo_flag single 1 0 _ ∅ true fresh_heap lp s1
           single_wf eq_refl ltac:(lia) Hrun).
Defined.

Lemma fresh_heap_clear (A : nat -> Prop) :
  ∀ x, A x -> _evaluated (get fresh_heap x) = false.
Proof. intros x _. reflexivity. Qed.

(** The log-probability of the model of the diamond. *)
Lemma model_log_probability_is_the_sum_of_the_densities_witness :
  BackendLaws ∧ wf_graph diamond ∧ roots_in diamond [3] 4
  ∧ (∀ x, model_set diamond [3] x -> _evaluated (get fresh_heap x) = false)
  ∧ ∃ lp s' new,
      pm_calculate_log_probability diamond 4 [3] {[ 0 := Some 1%Z ]} fresh_heap
      = Ok (lp, s')
      ∧ evals s' = evals fresh_heap ++ new
      ∧ NoDup new
      ∧ (∀ x, x ∈ new ↔ reach_from diamond [3] x ∧ is_random diamond x)
      ∧ lp = sum_of diamond {[ 0 := Some 1%Z ]} fresh_heap new.
Proof.
  split; [exact int_laws |]. split; [exact diamond_wf |]. split; [exact diamond_roots |].
  split; [apply fresh_heap_clear |].
  exact (model_log_probability_is_the_sum_of_the_densities diamond 4 [3]
           {[ 0 := Some 1%Z ]} fresh_heap int_laws diamond_wf diamond_roots
           (fresh_heap_clear _)).
Defined.

(** The model of the diamond, constructed when [P] is observed. *)
Lemma model_construction_gives_the_observed_submodel_witness :
  wf_graph diamond ∧ roots_in diamond [3] 4
  ∧ ∃ m, ProbabilisticModel_init diamond 2 4 [3] observed_parent_heap = Ok m
         ∧ variables m = [3]
         ∧ posterior_model m = None
         ∧ (∀ k, k ∈ observed_submodel m -> is_observed diamond k observed_parent_heap
                                            = Ok true)
         ∧ (∀ k, reach_from diamond [3] k ->
                 is_observed diamond k observed_parent_heap = Ok true ->
                 reach_from diamond (observed_submodel m) k).
Proof.
  split; [exact diamond_wf |]. split; [exact diamond_roots |].
  destruct (model_construction_gives_the_observed_submodel diamond 0 4 [3]
              observed_parent_heap diamond_wf diamond_roots)
    as (m & Hrun & Hv & Hp & _ & _ & Hobs & Hall).
  exists m. split; [exact Hrun |]. split; [exact Hv |]. split; [exact Hp |].
  split; [exact Hobs | exact Hall].
Defined.

(** The joint model [mu_post], [sigma] and the posterior model [mu_post]. *)
Lemma posterior_model_is_required_witness :
  wf_graph coupling ∧ roots_in coupling [0; 1] 3 ∧ roots_in coupling [2] 3
  ∧ ∃ m q m',
      ProbabilisticModel_init coupling 2 3 [0; 1] fresh_heap = Ok m
      ∧ ProbabilisticModel_init coupling 2 3 [2] fresh_heap = Ok q
      ∧ (∀ number_samples method input_values s0,
            pm__get_posterior_sample coupling 3 m number_samples input_values s0
            = Raise (AttributeError "The posterior model has not been initialized.")
            ∧ estimate_log_model_evidence coupling 3 m number_samples method
                                          input_values s0
              = Raise (AttributeError "The posterior model has not been initialized."))
      ∧ set_posterior_model coupling 2 3 m q fresh_heap = Ok m'
      ∧ (∀ number_samples input_values s0, ∃ d s',
            pm__get_posterior_sample coupling 3 m' number_samples input_values s0
            = Ok (d, s')).
Proof.
  split; [exact coupling_wf |]. split; [exact coupling_joint_roots |].
  split; [exact coupling_posterior_roots |].
  destruct (posterior_model_is_required coupling 0 3 [0; 1] [2] fresh_heap coupling_wf
              coupling_joint_roots coupling_posterior_roots)
    as (m & q & m' & Hm & Hq & Hraise & Hset & _ & _ & _ & Hret & _).
  exists m, q, m'. split; [exact Hm |]. split; [exact Hq |]. split; [exact Hraise |].
  split; [exact Hset | exact Hret].
Defined.

(** The model of the diamond with [P] alone observed is not observed. *)
Lemma model_is_observed_when_all_its_variables_are_witness :
  wf_graph diamond ∧ roots_in diamond [3] 4
  ∧ ∃ b, pm_is_observed diamond 4 [3] observed_parent_heap = Ok b
         ∧ (b = true ↔ ∀ k, reach_from diamond [3] k ->
                            is_observed diamond k observed_parent_heap = Ok true).
Proof.
  split; [exact diamond_wf |]. split; [exact diamond_roots |].
  exact (model_is_observed_when_all_its_variables_are diamond 4 [3] observed_parent_heap
           diamond_wf diamond_roots).
Defined.

Lemma posterior_mapping_injective :
  ∀ p p' j, model_mapping posterior !! p = Some j -> model_mapping posterior !! p' = Some j
            -> p = p'.
Proof.
  intros p p' j Hp Hp'. simpl in Hp, Hp'.
  apply lookup_singleton_Some in Hp as [<- _].
  by apply lookup_singleton_Some in Hp' as [<- _].
Qed.

(** The posterior sample of the coupled models. *)
Lemma posterior_sample_binds_the_coupled_variables_witness :
  posterior_model (joint posterior) = Some posterior
  ∧ (∀ p p' j, model_mapping posterior !! p = Some j ->
               model_mapping posterior !! p' = Some j -> p = p')
  ∧ ∃ d s',
      pm__get_posterior_sample coupling 3 (joint posterior) 1 ∅ fresh_heap = Ok (d, s')
      ∧ ∃ d1 s1,
          pm__get_sample coupling 3 (post_variables posterior) 1 false ∅ fresh_heap
          = Ok (d1, s1)
          ∧ ∀ p j v, model_mapping posterior !! p = Some j -> d1 !! p = Some v ->
                     (∅ : gmap nat (option Z)) !! j = None ->
                     d !! j = Some v ∧ ∀ e, e ∈ draws s' -> e ∈ draws s1 ∨ e.1 ≠ j.
Proof.
  split; [reflexivity |]. split; [exact posterior_mapping_injective |].
  destruct (pm__get_posterior_sample coupling 3 (joint posterior) 1 ∅ fresh_heap)
    as [[d s'] | |] eqn:Hrun; [| by vm_compute in Hrun | by vm_compute in Hrun].
  exists d, s'. split; [reflexivity |].
  exact (posterior_sample_binds_the_coupled_variables coupling 3 (joint posterior)
           posterior 1 ∅ fresh_heap d s' eq_refl posterior_mapping_injective Hrun).
Defined.

(** [e = y * 2], then [e + x]; and the link [var2link(2)], as the operand of
    [x] and as the receiver of [+ x]. *)
Lemma links_read_within_their_vars_witness :
  operand_ok (OpNumber (Some 2%Z)) [] ∧ OpNumber (Some 2%Z) ≠ OpOther
  ∧ (∃ e h1,
       Variable_apply_operator 1 (OpNumber (Some 2%Z)) op_mul [] = Ok (e, h1)
       ∧ link_ok e h1
       ∧ ∃ g h2,
           PartialLink_apply_operator e (OpVariable 0) op_add h1 = Ok (g, h2)
           ∧ link_ok g h2 ∧ link_ok e h2)
  ∧ ∃ o h1,
      var2link (OpNumber (Some 2%Z)) [] = (OpLink o, h1)
      ∧ Variable_apply_operator 0 (OpLink o) op_add h1
        = Raise (AttributeError "'dict' object has no attribute 'add'")
      ∧ PartialLink_apply_operator o (OpVariable 0) op_add h1
        = Raise (AttributeError "'dict' object has no attribute 'union'").
Proof.
  split; [exact I |]. split; [discriminate |]. split.
  - destruct (proj1 (@links_read_within_their_vars backend op_mul []) 1
                    (@OpNumber backend (Some 2%Z)) I ltac:(discriminate))
      as (e & h1 & He & Hok & _).
    exists e, h1. split; [exact He |]. split; [exact Hok |].
    destruct (proj1 (proj2 (@links_read_within_their_vars backend op_add h1)) e
                    (@OpVariable backend 0) Hok I ltac:(discriminate))
      as (g & h2 & Hg & Hgok & Hframe).
    exists g, h2. split; [exact Hg |]. split; [exact Hgok | exact (Hframe e Hok)].
  - destruct (proj2 (proj2 (proj2 (@links_read_within_their_vars backend op_add [])))
                    (Some 2%Z)) as (o & h1 & Ho & _ & _ & Hv & Hp).
    exists o, h1. split; [exact Ho |]. split; [exact (Hv 0) |].
    exact (Hp (@OpVariable backend 0)).
Defined.

Lemma link_vars_in_graph :
  ∀ v, v ∈ ({[ 3 ]} : gset nat) -> v < 4 ∧ is_Some (diamond !! v).
Proof. intros v ->%elem_of_singleton. split; [lia | by eexists]. Qed.

(** The link over the root of the diamond. *)
Lemma get_variable_of_a_link_raises_witness :
  vars_of link_of_R link_heap = Some {[ 3 ]}
  ∧ wf_graph diamond
  ∧ (∀ v, v ∈ ({[ 3 ]} : gset nat) -> v < 4 ∧ is_Some (diamond !! v))
  ∧ ∃ flat, PartialLink__flatten diamond 4 link_of_R link_heap = Ok flat
            ∧ last flat = Some (FLink link_of_R)
            ∧ PartialLink_get_variable diamond 4 link_of_R link_heap "R"
              = Raise (AttributeError "'PartialLink' object has no attribute 'name'").
Proof.
  split; [reflexivity |]. split; [exact diamond_wf |]. split; [exact link_vars_in_graph |].
  destruct (proj1 (get_variable_of_a_link_raises diamond 4 link_of_R link_heap {[ 3 ]}
                     eq_refl) diamond_wf link_vars_in_graph)
    as (flat & Hflat & Hlast & _).
  exists flat. split; [exact Hflat |]. split; [exact Hlast |].
  exact (proj2 (get_variable_of_a_link_raises diamond 4 link_of_R link_heap {[ 3 ]}
                  eq_refl) flat "R" Hflat).
Defined.

Lemma minus_one_law :
  ∀ x y, op_mul (op_sub x y) (Some (-1)%Z) = op_sub y x.
Proof. intros [x |] [y |]; simpl; try done. f_equal. lia. Qed.

(** [2 - x] where [x] is 5. *)
Lemma reflected_operators_of_a_variable_witness :
  ({[ 0 := Some 5%Z ]} : gmap nat (option Z)) !! 0 = Some (Some 5%Z)
  ∧ (∀ x y, op_mul (op_sub x y) (Some (-1)%Z) = op_sub y x)
  ∧ ∃ l h',
      Variable_rsub op_sub op_mul (Some (-1)%Z) 0 (OpNumber (Some 2%Z)) [] = Ok (l, h')
      ∧ vars_of l h' = Some {[ 0 ]}
      ∧ fn l {[ 0 := Some 5%Z ]} = Ok (op_sub (Some 2%Z) (Some 5%Z)).
Proof.
  assert (({[ 0 := Some 5%Z ]} : gmap nat (option Z)) !! 0 = Some (Some 5%Z)) as Hval
    by reflexivity.
  split; [exact Hval |]. split; [exact minus_one_law |].
  destruct (@reflected_operators_of_a_variable backend op_add op_sub op_mul (Some (-1)%Z) 0
              (Some 2%Z) [] {[ 0 := Some 5%Z ]} (Some 5%Z) Hval)
    as (_ & _ & (l & h' & Hrun & Hvars & _ & Hfn & _) & _).
  exists l, h'. split; [exact Hrun |]. split; [exact Hvars |].
  exact (Hfn minus_one_law).
Defined.

(** The subscript of the link over the root of the diamond. *)
Lemma subscript_of_a_link_shares_its_vars_witness :
  vars_of link_of_R link_heap = Some {[ 3 ]}
  ∧ links_of link_of_R link_heap = Some ∅
  ∧ ∃ g h1,
      PartialLink_getitem unit tt (fun v _ => v) link_of_R (KeySingle unit tt) link_heap
      = (g, h1)
      ∧ vars g = vars link_of_R
      ∧ links_of g h1 = Some ∅
      ∧ ∀ x op, ∃ f h2,
          Variable_apply_operator x (OpLink g) op h1 = Ok (f, h2)
          ∧ vars_of link_of_R h2 = Some ({[ 3 ]} ∪ {[ x ]}).
Proof.
  split; [reflexivity |]. split; [reflexivity |].
  destruct (proj1 (@subscript_of_a_link_shares_its_vars backend unit tt (fun v _ => v)
                     (fun v => v) link_of_R (KeySingle unit tt) link_heap {[ 3 ]} ∅
                     eq_refl eq_refl))
    as (g & h1 & Hrun & Hvars & _ & Hlinks & _ & _ & Hop).
  exists g, h1. split; [exact Hrun |]. split; [exact Hvars |].
  split; [exact Hlinks | exact Hop].
Defined.

(** The coupling of the posterior model [mu_post] with the joint model. *)
Lemma model_mapping_is_injective_witness :
  pm_flatten coupling 1 [2] = Ok [2]
  ∧ pm_flatten coupling 1 [0; 1] = Ok [0; 1]
  ∧ ∃ pm, PosteriorModel_init coupling 1 [2] [0; 1] = Ok pm
          ∧ (∀ p p' j, model_mapping pm !! p = Some j -> model_mapping pm !! p' = Some j ->
                       p = p').
Proof.
  split; [reflexivity |]. split; [reflexivity |].
  destruct (model_mapping_is_injective coupling 1 [2] [0; 1] [2] [0; 1] eq_refl eq_refl)
    as (pm & Hinit & Hinj & _).
  exists pm. split; [exact Hinit | exact Hinj].
Defined.

Lemma fresh_heap_clean_reach : ∀ x, reach diamond 3 x -> samples (get fresh_heap x) = [].
Proof. intros x _. reflexivity. Qed.

(** The root of the diamond sampled by itself. *)
Lemma variable_sample_is_its_draw_alone_witness :
  wf_graph diamond ∧ diamond !! 3 = Some (rv "R" 3 [1; 2]) ∧ 3 < 4
  ∧ (∀ x, reach diamond 3 x -> samples (get fresh_heap x) = [])
  ∧ _observed (get fresh_heap 3) = false
  ∧ (∅ : gmap nat (option Z)) !! 3 = None
  ∧ ∃ v s' new,
      get_sample diamond 4 3 1 ∅ fresh_heap = Ok ({[ 3 := v ]}, s')
      ∧ draws s' = draws fresh_heap ++ ((fun x => (x, x)) <$> new)
      ∧ NoDup new
      ∧ last new = Some 3
      ∧ (∀ k, reach diamond 3 k -> is_random diamond k -> clean (get s' k)).
Proof.
  split; [exact diamond_wf |]. split; [reflexivity |]. split; [lia |].
  split; [exact fresh_heap_clean_reach |]. split; [reflexivity |]. split; [reflexivity |].
  destruct (variable_sample_is_its_draw_alone diamond 4 3 _ 1 ∅ fresh_heap diamond_wf
              eq_refl ltac:(lia) fresh_heap_clean_reach eq_refl eq_refl)
    as (v & s' & new & Hrun & Hd & Hnd & _ & Hlast & Hclean).
  exists v, s', new. split; [exact Hrun |]. split; [exact Hd |]. split; [exact Hnd |].
  split; [exact Hlast | exact Hclean].
Defined.

End MoreExamplesProps.

(** ** The evidence estimate *)

Section EvidenceProps.

Context `{Backend}.
Variable G : graph.

(** [ProbabilisticModel._get_sample], not in observed mode, from caches that
    are empty and with input values that bind random variables only: the keys
    of the sample, the draws behind its values, and the heap it leaves. *)
Lemma model_sample_spec fuel roots number_samples input_values s :
  wf_graph G -> roots_in G roots fuel ->
  (∀ x, reach_from G roots x -> samples (get s x) = []) ->
  (∀ x, is_Some (input_values !! x) -> is_random G x) ->
  ∃ d s',
    pm__get_sample G fuel roots number_samples false input_values s = Ok (d, s')
    ∧ (∀ x, is_Some (d !! x)
            ↔ is_Some (input_values !! x) ∨ live_from G input_values roots x)
    ∧ (∀ x r, G !! x = Some (Rand r) -> live_from G input_values roots x ->
              input_values !! x = None ->
              ∃ input_dict j,
                input_dict_of d (rv_parents r) = Ok input_dict
                ∧ d !! x = Some (dist_get_sample (rv_distribution r)
                                   (apply_link (rv_link r) input_dict) number_samples j))
    ∧ evals s' = evals s
    ∧ (∀ s_r, pm_reset G fuel roots s = Ok s_r -> ∀ k, get s' k = get s_r k).
Proof.
  intros Hwf Hroots Hclean Hiv.
  destruct (pm__get_sample_spec G fuel roots number_samples false input_values s
              Hwf Hroots ltac:(done)) as (d0 & s0 & Hrun0 & Hev0 & _ & _ & Hreset0).
  destruct (sample_roots G number_samples input_values Hwf fuel roots s Hroots Hclean)
    as (ds & s1 & new & Hrun & Hs1 & Hnew & Hdom & Hagree).
  destruct (pm_reset_spec G fuel roots s1 Hwf Hroots) as (s' & Hreset & Hd' & _).
  assert (d0 = input_values ∪ join_dicts_list ds) as ->.
  { unfold pm__get_sample in Hrun0. rewrite Hrun in Hrun0. simpl in Hrun0.
    rewrite Hreset in Hrun0. simpl in Hrun0. congruence. }
  exists (input_values ∪ join_dicts_list ds), s0. split; [done |].
  pose proof Hs1 as (Hd1 & He1 & Hnd1 & Hnew1 & Hold1).
  set (d := input_values ∪ join_dicts_list ds).
  assert (∀ y, live_from G input_values roots y ->
               d !! y = binding G number_samples input_values s1 y) as Hbind.
  { intros y Hy. unfold d. destruct (input_values !! y) as [w |] eqn:Hw.
    - rewrite (lookup_union_Some_l _ _ _ w Hw).
      destruct (Hiv y) as [ry Hry]; [by eexists |].
      assert (y ∉ new) as Hyn.
      { intros Hyn. apply Hnew in Hyn as (_ & _ & Hn). congruence. }
      unfold binding. rewrite Hry, (Hold1 y Hyn), Hclean, Hw; [done |].
      destruct Hy as (p & Hp & Hl). exists p. split; [done | by apply live_reach in Hl].
    - rewrite lookup_union_r by done.
      apply Hdom in Hy as [w' Hw']. rewrite Hw'. symmetry. by apply Hagree. }
  split; [| split; [| by split]].
  - intros x. unfold d. by rewrite lookup_union_is_Some, Hdom.
  - intros x r Hx Hlive Hin.
    assert (x ∈ new) as Hxn
        by (apply Hnew; split; [done | split; [by exists r | done]]).
    destruct (Hnew1 x Hxn)
      as (_ & _ & v & Hg & (r' & M & i & j & Hr' & HM & Hi & Hv & Hj)).
    assert (r' = r) as -> by congruence.
    exists i, j. split.
    + rewrite <- Hi. apply input_dict_of_ext. intros p Hp.
      destruct (HM p Hp) as [_ ->]. apply Hbind.
      destruct Hlive as (q & Hq & Hl). exists q. split; [done |].
      apply live_trans with x; [done |].
      apply live_parent with r p; [done | done | done |]. constructor.
    + rewrite (Hbind x Hlive). unfold binding. rewrite Hx, Hg. simpl. by rewrite Hv.
Qed.

(** The sum of the densities reads the observation and the value of the
    variables only. *)
Lemma sum_of_restored vals s s' l :
  (∀ k, get s' k = get s k) -> sum_of G vals s' l = sum_of G vals s l.
Proof.
  intros Hs. unfold sum_of. induction l as [|x l IH]; simpl; [done |].
  rewrite IH. f_equal. unfold own_log_probability. by rewrite (Hs x).
Qed.

(** The translation of a posterior sample binds every joint variable that
    the coupling pairs with a posterior variable that the sample binds. *)
Lemma posterior_sample2joint_sample_bound (mm : gmap nat nat) (sample : gmap nat value) :
  ∀ p j v, mm !! p = Some j -> sample !! p = Some v ->
           is_Some (posterior_sample2joint_sample mm sample !! j).
Proof.
  unfold posterior_sample2joint_sample.
  apply (map_fold_weak_ind
           (fun (r : gmap nat value) (m : gmap nat value) =>
              ∀ p j v, mm !! p = Some j -> m !! p = Some v -> is_Some (r !! j))).
  - intros p j v _ Hm. by rewrite lookup_empty in Hm.
  - intros i x m r Hi IH p j v Hp Hm. destruct (decide (i = p)) as [-> | Hne].
    + rewrite Hp, lookup_insert_eq. by eexists.
    + rewrite lookup_insert_ne in Hm by done. pose proof (IH p j v Hp Hm) as [w Hw].
      destruct (mm !! i) as [ji |]; [| by eexists].
      destruct (decide (ji = j)) as [-> | Hj].
      * rewrite lookup_insert_eq. by eexists.
      * rewrite lookup_insert_ne by done. by eexists.
Qed.

(** C9: what [estimate_log_model_evidence] by the method "ELBO" computes.
    On an acyclic graph, with the laws of the addition, a posterior model
    attached whose coupling sends no two posterior variables to one joint
    variable, no random dataset, and from a heap where the variables of the
    three models are clean, as every reset leaves them, the call returns, and
    its result is made of these.  The observed draw is the sample of the
    observed submodel, one sample in observed mode: it binds every declared
    variable of the observed submodel that holds observed data to this data.
    The posterior samples are the sample of the posterior model, of
    [number_samples] samples and not in observed mode: they bind the input
    values and every variable of the posterior model that the pass comes to,
    a random variable to a draw of [number_samples] samples of its
    distribution on the parameters that its link gives for the values of its
    parents in these very samples.  The merged assignment binds a joint
    variable that the coupling pairs with a posterior variable to what the
    posterior samples hold for that variable, and any other variable as the
    observed draw does.  The posterior log-probability is the sum of the
    log-densities of the random variables of the posterior model, each once,
    at the posterior samples; the joint log-probability is the sum of the
    log-densities of the random variables of the joint model, each once, at
    the merged assignment; the densities are asked in this order, and the
    result is the mean of the joint log-probability minus the posterior
    log-probability.  The call leaves every variable as it was.  On any heap
    and any graph, whenever the call returns, these four steps have returned
    in turn, each on the heap the step before left, and the result is the mean
    of the joint log-probability minus the posterior log-probability; the
    merged assignment binds a joint variable to a value that the posterior
    samples hold for a posterior variable paired with it, when there is one,
    and as the observed draw does otherwise. *)
Theorem estimate_log_model_evidence_ELBO (fuel : nat) (m : ProbabilisticModel)
    (pm : PosteriorModel) (number_samples : nat) (input_values : gmap nat value)
    (s : state) :
  posterior_model m = Some pm ->
  (BackendLaws -> wf_graph G ->
   roots_in G (observed_submodel m) fuel -> roots_in G (variables m) fuel ->
   roots_in G (post_variables pm) fuel ->
   (∀ p p' j, model_mapping pm !! p = Some j -> model_mapping pm !! p' = Some j ->
              p = p') ->
   no_dataset s ->
   (∀ k, reach_from G (observed_submodel m) k ∨ reach_from G (post_variables pm) k
         ∨ reach_from G (variables m) k -> clean (get s k)) ->
   (∀ x, is_Some (input_values !! x) -> is_random G x) ->
   ∃ observed_draw s1 posterior_samples s2 merged new_q new_p result s_end,
     estimate_log_model_evidence G fuel m number_samples (Literal "ELBO") input_values s
     = Ok (result, s_end)
     ∧ pm__get_sample G fuel (observed_submodel m) 1 true ∅ s = Ok (observed_draw, s1)
     ∧ (∀ v, v ∈ observed_submodel m -> is_random G v ->
             has_observed_value (get s v) = true ->
             observed_draw !! v = Some (_observed_value (get s v)))
     ∧ pm__get_sample G fuel (post_variables pm) number_samples false input_values s1
       = Ok (posterior_samples, s2)
     ∧ (∀ x, is_Some (posterior_samples !! x)
             ↔ is_Some (input_values !! x)
               ∨ live_from G input_values (post_variables pm) x)
     ∧ (∀ x r, G !! x = Some (Rand r) ->
               live_from G input_values (post_variables pm) x ->
               input_values !! x = None ->
               ∃ input_dict j,
                 input_dict_of posterior_samples (rv_parents r) = Ok input_dict
                 ∧ posterior_samples !! x
                   = Some (dist_get_sample (rv_distribution r)
                             (apply_link (rv_link r) input_dict) number_samples j))
     ∧ (∀ p j v, model_mapping pm !! p = Some j -> posterior_samples !! p = Some v ->
                 merged !! j = Some v)
     ∧ (∀ k, (∀ p, model_mapping pm !! p = Some k -> posterior_samples !! p = None) ->
             merged !! k = observed_draw !! k)
     ∧ NoDup new_q ∧ (∀ x, x ∈ new_q ↔ model_set G (post_variables pm) x)
     ∧ NoDup new_p ∧ (∀ x, x ∈ new_p ↔ model_set G (variables m) x)
     ∧ evals s_end = evals s ++ new_q ++ new_p
     ∧ result = F_mean (lsub (sum_of G merged s new_p)
                             (sum_of G posterior_samples s new_q))
     ∧ (∀ k, get s1 k = get s k) ∧ (∀ k, get s2 k = get s k)
     ∧ (∀ k, get s_end k = get s k))
  ∧ (∀ result s_end,
       estimate_log_model_evidence G fuel m number_samples (Literal "ELBO") input_values s
       = Ok (result, s_end) ->
       ∃ observed_draw s1 posterior_samples s2 posterior_log_prob s3 merged
         joint_log_prob,
         pm__get_sample G fuel (observed_submodel m) 1 true ∅ s = Ok (observed_draw, s1)
         ∧ pm__get_sample G fuel (post_variables pm) number_samples false input_values s1
           = Ok (posterior_samples, s2)
         ∧ pm_calculate_log_probability G fuel (post_variables pm) posterior_samples s2
           = Ok (posterior_log_prob, s3)
         ∧ (∀ j v, merged !! j = Some v ->
                   (∃ p, model_mapping pm !! p = Some j ∧ posterior_samples !! p = Some v)
                   ∨ observed_draw !! j = Some v)
         ∧ (∀ p j v, model_mapping pm !! p = Some j -> posterior_samples !! p = Some v ->
                     ∃ p' v', model_mapping pm !! p' = Some j
                              ∧ posterior_samples !! p' = Some v'
                              ∧ merged !! j = Some v')
         ∧ (∀ k, (∀ p, model_mapping pm !! p = Some k -> posterior_samples !! p = None) ->
                 merged !! k = observed_draw !! k)
         ∧ pm_calculate_log_probability G fuel (variables m) merged s3
           = Ok (joint_log_prob, s_end)
         ∧ result = F_mean (lsub joint_log_prob posterior_log_prob)).
Proof.
  intros Hpm.
  assert (∀ ps od : gmap nat value,
             ∀ k, (∀ p, model_mapping pm !! p = Some k -> ps !! p = None) ->
                  (posterior_sample2joint_sample (model_mapping pm) ps ∪ od) !! k
                  = od !! k) as Hrest.
  { intros ps od k Hk. apply lookup_union_r.
    destruct (posterior_sample2joint_sample (model_mapping pm) ps !! k) as [v |] eqn:Hv;
      [| done].
    destruct (proj1 (posterior_sample2joint_sample_spec (model_mapping pm) ps) k v Hv)
      as (p & Hp & Hps).
    rewrite (Hk p Hp) in Hps. done. }
  split; [intros Hlaws Hwf Hobs Hvars Hpost Hinj Hnd Hclean Hiv |].
  2: { intros result s_end. unfold estimate_log_model_evidence, check_posterior_model.
       rewrite Hpm. cbn [mbind outcome_bind py_is_literal]. rewrite String.eqb_refl.
       destruct (pm__get_sample G fuel (observed_submodel m) 1 true ∅ s)
         as [[od s1] | |] eqn:H1; cbn [mbind outcome_bind]; try done.
       destruct (pm__get_sample G fuel (post_variables pm) number_samples false
                                input_values s1)
         as [[ps s2] | |] eqn:H2; cbn [mbind outcome_bind]; try done.
       destruct (pm_calculate_log_probability G fuel (post_variables pm) ps s2)
         as [[plp s3] | |] eqn:H3; cbn [mbind outcome_bind]; try done.
       destruct (pm_calculate_log_probability G fuel (variables m) _ s3)
         as [[jlp s4] | |] eqn:Hj; cbn [mbind outcome_bind]; try done.
       intros [= <- <-].
       exists od, s1, ps, s2, plp, s3.
       exists (posterior_sample2joint_sample (model_mapping pm) ps ∪ od), jlp.
       split; [done |]. split; [done |]. split; [done |]. split.
       { intros j v Hv.
         apply lookup_union_Some_raw in Hv as [Hv | [_ Hv]]; [left | by right].
         by apply (proj1 (posterior_sample2joint_sample_spec (model_mapping pm) ps)). }
       split.
       { intros p j v Hp Hv.
         destruct (posterior_sample2joint_sample_bound (model_mapping pm) ps p j v Hp Hv)
           as [v' Hv'].
         destruct (proj1 (posterior_sample2joint_sample_spec (model_mapping pm) ps)
                     j v' Hv') as (p' & Hp' & Hps').
         exists p', v'. split; [done |]. split; [done |].
         by apply lookup_union_Some_l. }
       split; [by apply Hrest | by split]. }
  (* the observed draw *)
  destruct (pm__get_sample_spec G fuel (observed_submodel m) 1 true ∅ s Hwf Hobs
              ltac:(done)) as (od & s1 & Hrun1 & Hev1 & _ & _ & Hres1).
  assert (∀ k, get s1 k = get s k) as Hs1.
  { apply (pass_restores G fuel (observed_submodel m)); [done | done | | done].
    intros k [Hk _]. apply Hclean. by left. }
  (* the posterior samples *)
  destruct (model_sample_spec fuel (post_variables pm) number_samples input_values s1
              Hwf Hpost) as (ps & s2 & Hrun2 & Hkeys & Hanc & Hev2 & Hres2); [| done |].
  { intros x Hx. rewrite Hs1. apply Hclean. right. by left. }
  assert (∀ k, get s2 k = get s k) as Hs2.
  { intros k. rewrite <- Hs1. revert k.
    apply (pass_restores G fuel (post_variables pm)); [done | done | | done].
    intros k [Hk _]. rewrite Hs1. apply Hclean. right. by left. }
  (* the posterior log-probability *)
  destruct (pm_calculate_log_probability_once
              G ps (reach_from G (post_variables pm)) Hwf
              (reach_from_closed G (post_variables pm)) fuel (post_variables pm) s2)
    as (lpq & s3 & new_q & Hrun3 & Hev3 & Hnd3 & Hin3 & Hlp3); [done | done | |].
  { intros x [Hx _]. rewrite Hs2. apply Hclean. right. by left. }
  destruct (pm_calculate_log_probability_spec G fuel (post_variables pm) ps s2 Hwf Hpost)
    as (lpq' & s3' & Hrun3' & _ & _ & _ & Hres3).
  assert (s3' = s3) as -> by congruence.
  assert (∀ k, get s3 k = get s k) as Hs3.
  { intros k. rewrite <- Hs2. revert k.
    apply (pass_restores G fuel (post_variables pm)); [done | done | | done].
    intros k [Hk _]. rewrite Hs2. apply Hclean. right. by left. }
  (* the joint log-probability *)
  set (merged := posterior_sample2joint_sample (model_mapping pm) ps ∪ od).
  destruct (pm_calculate_log_probability_once
              G merged (reach_from G (variables m)) Hwf
              (reach_from_closed G (variables m)) fuel (variables m) s3)
    as (lpp & s4 & new_p & Hrun4 & Hev4 & Hnd4 & Hin4 & Hlp4); [done | done | |].
  { intros x [Hx _]. rewrite Hs3. apply Hclean. right. by right. }
  destruct (pm_calculate_log_probability_spec G fuel (variables m) merged s3 Hwf Hvars)
    as (lpp' & s4' & Hrun4' & _ & _ & _ & Hres4).
  assert (s4' = s4) as -> by congruence.
  assert (∀ k, get s4 k = get s k) as Hs4.
  { intros k. rewrite <- Hs3. revert k.
    apply (pass_restores G fuel (variables m)); [done | done | | done].
    intros k [Hk _]. rewrite Hs3. apply Hclean. right. by right. }
  exists od, s1, ps, s2, merged, new_q, new_p.
  exists (F_mean (lsub lpp lpq)), s4.
  split.
  { unfold estimate_log_model_evidence, check_posterior_model. rewrite Hpm.
    cbn [mbind outcome_bind py_is_literal]. rewrite String.eqb_refl.
    rewrite Hrun1. cbn [mbind outcome_bind]. rewrite Hrun2. cbn [mbind outcome_bind].
    rewrite Hrun3. cbn [mbind outcome_bind]. fold merged. rewrite Hrun4. done. }
  split; [done |]. split.
  { intros v Hv [r Hr] Hov.
    destruct (pm__get_sample_keeps_observed G v r s fuel (observed_submodel m) 1 ∅
                od s1 Hr) as (Hval & Hroot & _); [| done | done |].
    { apply Hclean. left. exists v. split; [done | constructor]. }
    destruct (Hroot Hv) as [x Hx]. rewrite Hx. f_equal.
    destruct (Hval x Hx) as [He | ->]; [by rewrite lookup_empty in He | done]. }
  split; [done |]. split; [done |]. split; [done |].
  destruct (posterior_sample2joint_sample_spec (model_mapping pm) ps) as [Hsound Hcompl].
  split.
  { intros p j v Hp Hv. unfold merged. apply lookup_union_Some_l.
    by apply (Hcompl Hinj p). }
  split; [intros k Hk; by apply Hrest |].
  split; [done |]. split; [done |]. split; [done |]. split; [done |].
  split; [by rewrite Hev4, Hev3, Hev2, Hev1, app_assoc |].
  split; [| done].
  by rewrite Hlp4, Hlp3, (sum_of_restored merged s s3), (sum_of_restored ps s s2).
Qed.

End EvidenceProps.

Section EvidenceExample.

Import IntBackend MoreExamples.
#[local] Existing Instance backend.

Lemma evidence_graph_wf : wf_graph evidence_graph.
Proof. apply wf_graphb_sound. vm_compute. reflexivity. Qed.

Lemma evidence_heap_clean : ∀ k, clean (get evidence_heap k).
Proof.
  intros k. unfold get. simpl. destruct (decide (k = 1)) as [-> | Hne].
  - vm_compute. auto.
  - rewrite lookup_total_alt, lookup_singleton_ne by done. by repeat split.
Qed.

Lemma evidence_heap_no_dataset : no_dataset evidence_heap.
Proof.
  intros k. unfold get. simpl. destruct (decide (k = 1)) as [-> | Hne].
  - reflexivity.
  - by rewrite lookup_total_alt, lookup_singleton_ne.
Qed.

Lemma evidence_mapping_injective :
  ∀ p p' j, model_mapping evidence_posterior !! p = Some j ->
            model_mapping evidence_posterior !! p' = Some j -> p = p'.
Proof.
  intros p p' j Hp Hp'. simpl in Hp, Hp'.
  apply lookup_singleton_Some in Hp as [<- _].
  by apply lookup_singleton_Some in Hp' as [<- _].
Qed.

(** The evidence estimate of the model of [x], observed with the data 7,
    with the posterior model of [mu]: the posterior draws 5 for [mu], the
    joint model is scored at [mu = 5] and [x = 7], and the estimate is
    [(-37 - 26) - (-1)]. *)
Lemma estimate_log_model_evidence_ELBO_witness :
  BackendLaws ∧ wf_graph evidence_graph
  ∧ roots_in evidence_graph [1] 3 ∧ roots_in evidence_graph [2] 3
  ∧ posterior_model evidence_joint = Some evidence_posterior
  ∧ no_dataset evidence_heap
  ∧ (∀ k, clean (get evidence_heap k))
  ∧ ∃ (observed_draw posterior_samples merged : gmap nat (option Z)) result s_end,
      estimate_log_model_evidence evidence_graph 3 evidence_joint 2 (Literal "ELBO") ∅
                                  evidence_heap
      = Ok (result, s_end)
      ∧ result = (-62)%Z
      ∧ observed_draw !! 1 = Some (Some 7%Z)
      ∧ (∃ v, posterior_samples !! 2 = Some v ∧ merged !! 0 = Some v)
      ∧ merged !! 1 = Some (Some 7%Z)
      ∧ evals s_end = [2; 1; 0].
Proof.
  assert (roots_in evidence_graph [1] 3) as Hjoint
    by (apply roots_inb_sound; vm_compute; reflexivity).
  assert (roots_in evidence_graph [2] 3) as Hpost
    by (apply roots_inb_sound; vm_compute; reflexivity).
  split; [exact int_laws |]. split; [exact evidence_graph_wf |].
  split; [exact Hjoint |]. split; [exact Hpost |]. split; [reflexivity |].
  split; [exact evidence_heap_no_dataset |]. split; [exact evidence_heap_clean |].
  destruct (proj1 (estimate_log_model_evidence_ELBO evidence_graph 3 evidence_joint
                     evidence_posterior 2 ∅ evidence_heap eq_refl)
                  int_laws evidence_graph_wf Hjoint Hjoint Hpost
                  evidence_mapping_injective evidence_heap_no_dataset)
    as (od & s1 & ps & s2 & merged & new_q & new_p & result & s_end & Hrun & _ & Hod
        & _ & Hkeys & _ & Hcoupled & Hother & _ & _ & _ & _ & Hev & _).
  { intros k _. apply evidence_heap_clean. }
  { intros x [v Hv]. by rewrite lookup_empty in Hv. }
  exists od, ps, merged, result, s_end. split; [exact Hrun |].
  assert (estimate_log_model_evidence evidence_graph 3 evidence_joint 2 (Literal "ELBO")
                                      ∅ evidence_heap
          = Ok ((-62)%Z, {| store := store s_end; draws := [(2, 2)];
                            evals := [2; 1; 0] |})) as Hval.
  { rewrite Hrun. vm_compute in Hrun. injection Hrun as <- <-. reflexivity. }
  rewrite Hrun in Hval. injection Hval as -> Hs.
  split; [reflexivity |]. split.
  { apply (Hod 1); [left | by eexists | reflexivity]. }
  split.
  { destruct (proj2 (Hkeys 2)) as [v Hv].
    { right. exists 2. split; [left | constructor]. }
    exists v. split; [exact Hv |]. by apply (Hcoupled 2 0 v). }
  split.
  { etrans; [apply (Hother 1) | apply (Hod 1); [left | by eexists | reflexivity]].
    intros p Hp. simpl in Hp. apply lookup_singleton_Some in Hp as [_ Hp]. done. }
  by rewrite Hs.
Defined.

End EvidenceExample.
